(** * AlgoAuth: threshold key custody, verified against the TypeScript sources

    The development embeds the Shamir secret-sharing module of the front
    end ([initTables], [gfMul], [gfDiv], [evaluatePolynomial],
    [splitSecret], [reconstructSecret]), the key-release and node routes of
    the API server, the X25519 share encapsulation and the AES-GCM payload
    cipher, and proves the properties the design document states about
    them. *)

From Stdlib Require Import ZArith Lia List Bool Field Permutation.
From stdpp Require Import base list strings gmap.
Import ListNotations.

#[local] Open Scope Z_scope.

(** ** JavaScript values

    Every number the Shamir module manipulates is an integer; the only
    other values that can flow through its expressions are [undefined] (a
    typed-array read outside the bounds) and [NaN] (arithmetic on
    [undefined]).  The two behave alike under every operator the module
    applies to them: [=== 0] is false, [^] treats them as [0], arithmetic
    yields [NaN] and a typed-array read at such an index is [undefined].
    They are therefore both represented by [None]. *)

Definition jsval := option Z.

Definition strict_eq0 (v : jsval) : bool :=
  match v with Some 0 => true | _ => false end.

Definition js_add (a b : jsval) : jsval :=
  match a, b with Some x, Some y => Some (x + y) | _, _ => None end.

Definition js_sub (a b : jsval) : jsval :=
  match a, b with Some x, Some y => Some (x - y) | _, _ => None end.

(** JavaScript's [%] truncates towards zero, like [Z.rem]. *)
Definition js_rem (a : jsval) (m : Z) : jsval :=
  match a with Some x => Some (Z.rem x m) | None => None end.

(** [ToInt32] on the operands of [^]; the integers met here are typed-array
    elements and table indices, far below [2^31]. *)
Definition to_int32 (v : jsval) : Z :=
  match v with Some x => x | None => 0 end.

Definition js_xor (a b : jsval) : Z := Z.lxor (to_int32 a) (to_int32 b).

(** A [Uint8Array] is a list of integers in [0, 256). Reading outside the
    bounds gives [undefined]; writing stores the value modulo 256 and is
    ignored outside the bounds. *)
Definition u8_get (t : list Z) (i : jsval) : jsval :=
  match i with
  | Some z => if z <? 0 then None else t !! Z.to_nat z
  | None => None
  end.

Definition u8_set (t : list Z) (i : nat) (v : Z) : list Z :=
  <[i := v mod 256]> t.

Definition u8_new (len : nat) : list Z := replicate len 0.

Definition is_byte (z : Z) : bool := (0 <=? z) && (z <? 256).

(** Thrown exceptions, by message. *)
Inductive outcome (A : Type) : Type :=
  | Return (a : A)
  | Throw (msg : string).
Arguments Return {A} a.
Arguments Throw {A} msg.

#[global] Instance outcome_ret : MRet outcome := @Return.
#[global] Instance outcome_bind : MBind outcome :=
  fun A B (f : A -> outcome B) (m : outcome A) =>
    match m with Return a => f a | Throw e => Throw e end.

(** [target.set(source, offset)] on typed arrays, the source fitting in
    the target. *)
Definition u8_set_all (t source : list Z) (offset : nat) : list Z :=
  take offset t ++ source ++ drop (offset + length source) t.

(** The system's random source behind [crypto.getRandomValues] and
    [nacl.randomBytes]: [src t] is the [t]-th byte it ever delivers and the
    cursor counts the bytes delivered so far. The call fills the view
    [a.subarray(from)]. *)
Definition entropy := nat -> Z.

Definition getRandomValues (src : entropy) (cur : nat) (a : list Z) (from : nat)
  : list Z * nat :=
  let len := (length a - from)%nat in
  (take from a ++ ((fun t => src t mod 256) <$> seq cur len), (cur + len)%nat).

(** ** GF(256) lookup tables *)

Module Shamir.

(** One iteration of the loop of [initTables]: the state is
    [(x, EXP_TABLE, LOG_TABLE)]. *)
Definition initTables_step (st : Z * list Z * list Z) (i : nat)
  : Z * list Z * list Z :=
  let '(x, exp, log) := st in
  let exp := u8_set exp i x in
  let log := u8_set log (Z.to_nat x) (Z.of_nat i) in
  let x := Z.lxor x (Z.shiftl x 1) in
  let x := if 256 <=? x then Z.lxor x 283 (* 0x11b *) else x in
  (x, exp, log).

Definition initTables : list Z * list Z :=
  let '(_, exp, log) :=
    fold_left initTables_step (seq 0 255) (1, u8_new 256, u8_new 256) in
  let exp := u8_set exp 255 (to_int32 (u8_get exp (Some 0))) in
  (exp, log).

Definition EXP_TABLE : list Z := Eval vm_compute in fst initTables.
Definition LOG_TABLE : list Z := Eval vm_compute in snd initTables.

Definition gfMul (a b : jsval) : jsval :=
  if strict_eq0 a || strict_eq0 b then Some 0
  else u8_get EXP_TABLE
         (js_rem (js_add (u8_get LOG_TABLE a) (u8_get LOG_TABLE b)) 255).

Definition gfDiv (a b : jsval) : outcome jsval :=
  if strict_eq0 b then Throw "Division by zero in GF(256)"
  else if strict_eq0 a then Return (Some 0)
  else Return (u8_get EXP_TABLE
         (js_rem (js_add (js_sub (u8_get LOG_TABLE a) (u8_get LOG_TABLE b))
                         (Some 255)) 255)).

(** [evaluatePolynomial]: Horner's rule, from the highest coefficient down. *)
Definition evaluatePolynomial (coefficients : list Z) (x : Z) : Z :=
  fold_left
    (fun result i =>
       js_xor (gfMul (Some result) (Some x))
              (u8_get coefficients (Some (Z.of_nat i))))
    (rev (seq 0 (length coefficients))) 0.

(** [shares[i][j] = v]; the index [i] is always in range where this is
    used. *)
Definition set_cell (shares : list (list Z)) (i j : nat) (v : Z)
  : list (list Z) :=
  alter (fun s => u8_set s j v) i shares.

Definition splitSecret (src : entropy) (cur : nat)
    (secret : list Z) (n k : Z) : outcome (list (list Z) * nat) :=
  if n <? k then Throw "Threshold must be <= number of shares"
  else if k <? 2 then Throw "Threshold must be >= 2"
  else if 255 <? n then Throw "Max 255 shares"
  else
    let shares :=
      fold_left
        (fun shares i =>
           let shares := shares ++ [u8_new (length secret + 1)] in
           set_cell shares i 0 (Z.of_nat i + 1))
        (seq 0 (Z.to_nat n)) [] in
    Return
      (fold_left
         (fun '(shares, cur) byteIdx =>
            let coefficients := u8_new (Z.to_nat k) in
            let coefficients :=
              u8_set coefficients 0
                (to_int32 (u8_get secret (Some (Z.of_nat byteIdx)))) in
            let '(coefficients, cur) :=
              getRandomValues src cur coefficients 1 in
            (fold_left
               (fun shares i =>
                  set_cell shares i (byteIdx + 1)
                    (evaluatePolynomial coefficients (Z.of_nat i + 1)))
               (seq 0 (Z.to_nat n)) shares,
             cur))
         (seq 0 (length secret)) (shares, cur)).

(** A [for] loop whose body may throw. *)
Fixpoint for_each {S : Type} (idx : list nat) (body : S -> nat -> outcome S)
    (s : S) : outcome S :=
  match idx with
  | [] => Return s
  | i :: idx => s' ← body s i; for_each idx body s'
  end.

(** Element [j] of a plain array of values. *)
Definition arr_get (xs : list jsval) (j : nat) : jsval :=
  from_option id None (xs !! j).

(** The two products accumulated by the innermost loop of
    [reconstructSecret] for share [i]. *)
Definition lagrange_terms (xs : list jsval) (i : nat) : jsval * jsval :=
  fold_left
    (fun '(numerator, denominator) j =>
       if decide (i = j) then (numerator, denominator)
       else (gfMul numerator (arr_get xs j),
             gfMul denominator (Some (js_xor (arr_get xs i) (arr_get xs j)))))
    (seq 0 (length xs)) (Some 1, Some 1).

Definition reconstructSecret (shares : list (list Z)) : outcome (list Z) :=
  if (length shares <? 2)%nat then Throw "Need at least 2 shares"
  else
    let secretLength :=
      Z.of_nat (length (from_option id [] (shares !! 0%nat))) - 1 in
    if secretLength <? 0 then Throw "Invalid typed array length: -1"
    else
      let secret := u8_new (Z.to_nat secretLength) in
      let xs := (fun s => u8_get s (Some 0)) <$> shares in
      for_each (seq 0 (Z.to_nat secretLength))
        (fun secret byteIdx =>
           result ←
             for_each (seq 0 (length shares))
               (fun result i =>
                  let '(numerator, denominator) := lagrange_terms xs i in
                  lagrangeCoeff ← gfDiv numerator denominator;
                  let share_i := from_option id [] (shares !! i) in
                  Return
                    (js_xor (Some result)
                       (gfMul (u8_get share_i (Some (Z.of_nat byteIdx + 1)))
                              lagrangeCoeff)))
               0;
           Return (u8_set secret byteIdx result))
        secret.

End Shamir.

(** ** Key release routes of the API server *)

Module KeyRelease.

(** A non-negative binary64 number is [mant * 2 ^ expo] for integers
    [0 <= mant < 2 ^ 53] and [-1074 <= expo <= 971]; a number may be
    written with several such pairs. *)
Record double : Type := { mant : Z; expo : Z }.


(** [n / 2 ^ s] rounded to the nearest integer, a tie to the even one. *)
Definition round_shift (n s : Z) : Z :=
  let q := n / 2 ^ s in
  let r := n mod 2 ^ s in
  if 2 * r <? 2 ^ s then q
  else if 2 ^ s <? 2 * r then q + 1
  else if Z.even q then q else q + 1.

(** [x * k] for an integer [0 < k <= 2 ^ 53], itself a binary64 number:
    the exact product [mant * k * 2 ^ expo], rounded to 53 significant
    bits when it has more (round to nearest, ties to even). The product of
    a number below 1 is below [2 ^ 53], so no exponent overflows, and a
    product of more than 53 bits is a normal number. *)
Definition times (x : double) (k : Z) : double :=
  let n := mant x * k in
  let s := Z.max 0 (Z.log2 n - 52) in
  {| mant := round_shift n s; expo := expo x + s |}.

(** [Math.floor] *)
Definition Math_floor (x : double) : Z := Z.shiftl (mant x) (expo x).

(** [Math.random]: [rnd t] is the [t]-th number it ever returns, a
    binary64 number of the interval [0, 1); the cursor counts the calls
    made so far. *)
Definition random := nat -> double.

Record SharedFileItem : Type := {
  sf_id : string;
  sf_expiresAt : option Z;
  sf_encryptionKey : option string;
  sf_shares : option (list string)
}.

Record FileItem : Type := {
  f_id : string;
  f_groupId : option string;
  f_encryptionKey : option string;
  f_shares : option (list string)
}.

Record Member : Type := {
  m_address : string;
  m_status : string;
  m_role : string
}.

Record Group : Type := { g_name : string; g_members : list Member }.

(** The JSON body of a successful key request; [None] is [null]. *)
Record KeyResponse : Type := {
  encryptionKey : option string;
  shares : list (option string);
  releasedNodes : list (option string);
  threshold : Z;
  totalShares : Z
}.

Inductive response : Type :=
  | Status (code : Z) (error : string)
  | Json (body : KeyResponse).

(** What the route writes to the console about a Shamir release. *)
Record ReleaseLog : Type := {
  releasedIndices : list nat;
  withheldIndex : option nat
}.

Definition nodeNames : list string := ["alpha"; "beta"; "gamma"]%string.

(** [x || null] on an optional string. *)
Definition or_null (x : option string) : option string :=
  match x with
  | Some s => if String.eqb s "" then None else Some s
  | None => None
  end.

(** [[a[i], a[j]] = [a[j], a[i]]] with both indices in range. *)
Definition swap (a : list nat) (i j : nat) : list nat :=
  match a !! i, a !! j with
  | Some x, Some y => <[j := x]> (<[i := y]> a)
  | _, _ => a
  end.

(** The Fisher-Yates loop over [indices], from the last index down to 1. *)
Definition shuffle (rnd : random) (cur : nat) (indices : list nat)
  : list nat * nat :=
  fold_left
    (fun '(indices, cur) i =>
       let j := Z.to_nat (Math_floor (times (rnd cur) (Z.of_nat i + 1))) in
       (swap indices i j, S cur))
    (rev (seq 1 (length indices - 1))) (indices, cur).

(** The release block shared by both routes: the released shares and node
    names, the console record and the cursor of [Math.random]. *)
Definition release (rnd : random) (cur : nat) (allShares : list string)
  : list (option string) * list (option string) * option ReleaseLog * nat :=
  if (3 <=? length allShares)%nat then
    let '(indices, cur) := shuffle rnd cur [0; 1; 2]%nat in
    let picked := take 2 indices in
    ((fun i => allShares !! i) <$> picked,
     (fun i => nodeNames !! i) <$> picked,
     Some {| releasedIndices := picked; withheldIndex := indices !! 2%nat |},
     cur)
  else ([], [], None, cur).

(** [GET /api/files/shared/:shareId/key], after authentication. *)
Definition getSharedFileKey (sharesStore : gmap string (list SharedFileItem))
    (rnd : random) (cur : nat) (now : Z) (address shareId : string)
  : response * option ReleaseLog * nat :=
  let shared := default [] (sharesStore !! address) in
  match List.find (fun s => String.eqb (sf_id s) shareId) shared with
  | None => (Status 404 "Share not found", None, cur)
  | Some share =>
      let expired :=
        match sf_expiresAt share with
        | Some e => negb (e =? 0) && (0 <? e) && (e <? now)
        | None => false
        end in
      if expired then (Status 410 "Share has expired", None, cur)
      else
        let allShares := default [] (sf_shares share) in
        let '(releasedShares, released, log, cur) := release rnd cur allShares in
        (Json {| encryptionKey := or_null (sf_encryptionKey share);
                 shares := releasedShares;
                 releasedNodes := released;
                 threshold := 2;
                 totalShares := 3 |},
         log, cur)
  end.

(** The first file with the requested id and group over all the users'
    stores, in the insertion order of the map. *)
Fixpoint findGroupFile (filesStore : list (string * list FileItem))
    (fileId groupId : string) : option FileItem :=
  match filesStore with
  | [] => None
  | (_, files) :: rest =>
      match List.find
              (fun f => String.eqb (f_id f) fileId &&
                        match f_groupId f with
                        | Some g => String.eqb g groupId
                        | None => false
                        end) files with
      | Some found => Some found
      | None => findGroupFile rest fileId groupId
      end
  end.

(** [GET /api/groups/:id/files/:fileId/key], after authentication. *)
Definition getGroupFileKey (groupsStore : gmap string Group)
    (filesStore : list (string * list FileItem))
    (rnd : random) (cur : nat) (address groupId fileId : string)
  : response * option ReleaseLog * nat :=
  match groupsStore !! groupId with
  | None => (Status 404 "Group not found", None, cur)
  | Some group =>
      let isMember :=
        existsb
          (fun m => String.eqb (m_address m) address &&
                    (String.eqb (m_status m) "active" ||
                     String.eqb (m_status m) "joined"))
          (g_members group) in
      if negb isMember then (Status 403 "Not a member of this group", None, cur)
      else
        match findGroupFile filesStore fileId groupId with
        | None => (Status 404 "File not found in group", None, cur)
        | Some targetFile =>
            let allShares := default [] (f_shares targetFile) in
            let '(releasedShares, released, log, cur) :=
              release rnd cur allShares in
            (Json {| encryptionKey := or_null (f_encryptionKey targetFile);
                     shares := releasedShares;
                     releasedNodes := released;
                     threshold := 2;
                     totalShares := 3 |},
             log, cur)
        end
  end.

End KeyRelease.


(** ** Share encapsulation and node routes (tweetnacl)

    The primitives of [tweetnacl] and [tweetnacl-util] are parameters:
    [nacl_box msg nonce publicKey secretKey] and
    [nacl_box_open box nonce publicKey secretKey] (which returns [null],
    here [None], when authentication fails) may throw on arguments of the
    wrong size, [decodeBase64] throws on a string that is not base64, and
    [scalarMult_base] gives the public key of a secret key. The array
    [nacl_box] returns is an object, hence always truthy. *)

Module Nodes.

Record Sealed : Type := { nonce : string; encrypted : string }.

Record NodeKey : Type := { publicKey : string; secretKey : list Z }.

(** [nodeKeys], filled for the three nodes when the server starts. *)
Record NodeKeys : Type := { alpha : NodeKey; beta : NodeKey; gamma : NodeKey }.

(** The [encryptedShare] field of a request: absent, a string, or an
    object with optional [encrypted] and [nonce] fields. *)
Inductive shareField : Type :=
  | SF_absent
  | SF_string (s : string)
  | SF_object (encrypted nonce : option string).

Record ReencryptRequest : Type := {
  fileId : option string;
  recipientPublicKey : option string;
  shareIndex : jsval;
  encryptedShare : shareField;
  senderPublicKey : option string
}.

Record ReencryptBody : Type := {
  success : bool;
  reEncryptedShare : string + Sealed;
  nodeId : string;
  nodePublicKey : string
}.

Inductive reencryptResponse : Type :=
  | RStatus (code : Z) (error : string)
  | RJson (body : ReencryptBody).

(** One element of the [encryptedShares] array of [/api/encrypt-shares]. *)
Record SealedToNode : Type := {
  sn_nonce : string;
  sn_encrypted : string;
  sn_ephemeralPublicKey : string
}.

Record EncryptedEntry : Type := {
  ee_nodeId : option string;
  ee_encryptedShare : string + SealedToNode;
  ee_error : option string
}.

Definition truthy (s : option string) : bool :=
  match s with
  | Some s => negb (String.eqb s "")
  | None => false
  end.

Definition shareField_truthy (f : shareField) : bool :=
  match f with
  | SF_absent => false
  | SF_string s => negb (String.eqb s "")
  | SF_object _ _ => true
  end.

Definition nodeIds : list string := ["alpha"; "beta"; "gamma"]%string.

(** [nodeKeys[nodeId]] *)
Definition lookupNode (nodeKeys : NodeKeys) (id : option string)
  : option NodeKey :=
  match id with
  | Some id =>
      if String.eqb id "alpha" then Some (alpha nodeKeys)
      else if String.eqb id "beta" then Some (beta nodeKeys)
      else if String.eqb id "gamma" then Some (gamma nodeKeys)
      else None
  | None => None
  end.

(** [nacl.randomBytes(n)] *)
Definition randomBytes (src : entropy) (cur : nat) (n : nat) : list Z * nat :=
  getRandomValues src cur (u8_new n) 0.

Section Primitives.

Variable decodeBase64 : string -> outcome (list Z).
Variable encodeBase64 : list Z -> string.
Variable nacl_box : list Z -> list Z -> list Z -> list Z -> outcome (list Z).
Variable nacl_box_open :
  list Z -> list Z -> list Z -> list Z -> outcome (option (list Z)).
Variable scalarMult_base : list Z -> list Z.
(** The bytes [new Uint8Array(shareHex.match(/.{1,2}/g).map(h => parseInt(h, 16)))]
    denotes, or the [TypeError] thrown when the match is [null]. *)
Variable hexBytes : string -> outcome (list Z).

(** [encryptForRecipient] of the front end. *)
Definition encryptForRecipient (src : entropy) (cur : nat) (data : list Z)
    (recipientPublicKeyBase64 senderSecretKeyBase64 : string)
  : outcome (Sealed * nat) :=
  recipientPublicKey ← decodeBase64 recipientPublicKeyBase64;
  senderSecretKey ← decodeBase64 senderSecretKeyBase64;
  let '(nonce, cur) := randomBytes src cur 24 in
  encrypted ← nacl_box data nonce recipientPublicKey senderSecretKey;
  Return ({| nonce := encodeBase64 nonce;
             encrypted := encodeBase64 encrypted |}, cur).

(** [decryptFromSender] of the front end. *)
Definition decryptFromSender
    (encryptedBase64 nonceBase64 senderPublicKeyBase64
     recipientSecretKeyBase64 : string) : outcome (list Z) :=
  encrypted ← decodeBase64 encryptedBase64;
  nonce ← decodeBase64 nonceBase64;
  senderPublicKey ← decodeBase64 senderPublicKeyBase64;
  recipientSecretKey ← decodeBase64 recipientSecretKeyBase64;
  decrypted ← nacl_box_open encrypted nonce senderPublicKey recipientSecretKey;
  match decrypted with
  | None => Throw "Decryption failed"
  | Some decrypted => Return decrypted
  end.

(** [naclUtil.decodeBase64(encryptedShare.encrypted || encryptedShare)]:
    an object that is not a string is rejected as an invalid encoding. *)
Definition decodeEncrypted (f : shareField) : outcome (list Z) :=
  match f with
  | SF_string s => decodeBase64 s
  | SF_object (Some e) _ =>
      if String.eqb e "" then Throw "invalid encoding" else decodeBase64 e
  | _ => Throw "invalid encoding"
  end.

(** [encryptedShare.nonce || ''] *)
Definition nonceField (f : shareField) : string :=
  match f with
  | SF_object _ (Some n) => n
  | _ => ""
  end.

(** Step 1 of [POST /api/nodes/reencrypt]: the value of [decryptedShare]
    after the inner [try]; [None] stands for [undefined] and [null]. *)
Definition reencrypt_step1 (node : NodeKey) (req : ReencryptRequest)
  : option (list Z) :=
  if shareField_truthy (encryptedShare req) && truthy (senderPublicKey req)
  then
    match
      encrypted ← decodeEncrypted (encryptedShare req);
      nonce ← decodeBase64 (nonceField (encryptedShare req));
      senderPk ← decodeBase64 (default "" (senderPublicKey req));
      nacl_box_open encrypted nonce senderPk (secretKey node)
    with
    | Return decryptedShare => decryptedShare
    | Throw _ => None
    end
  else None.

(** [['alpha', 'beta', 'gamma'][shareIndex] || 'alpha'] *)
Definition nodeIdOf (shareIndex : jsval) : string :=
  default "alpha"
    (match shareIndex with
     | Some i => if i <? 0 then None else nodeIds !! Z.to_nat i
     | None => None
     end).

(** [POST /api/nodes/reencrypt], after authentication. *)
Definition reencrypt (nodeKeys : NodeKeys) (src : entropy) (cur : nat)
    (req : ReencryptRequest) : reencryptResponse * nat :=
  let nodeId := nodeIdOf (shareIndex req) in
  match lookupNode nodeKeys (Some nodeId) with
  | None => (RStatus 400 "Invalid share index", cur)
  | Some node =>
      match reencrypt_step1 node req with
      | Some decryptedShare =>
          if truthy (recipientPublicKey req) then
            match decodeBase64 (default "" (recipientPublicKey req)) with
            | Throw e => (RStatus 500 e, cur)
            | Return recipientPk =>
                let '(nonce, cur) := randomBytes src cur 24 in
                match nacl_box decryptedShare nonce recipientPk (secretKey node) with
                | Throw e => (RStatus 500 e, cur)
                | Return reEncrypted =>
                    (RJson {| success := true;
                              reEncryptedShare :=
                                inr {| nonce := encodeBase64 nonce;
                                       encrypted := encodeBase64 reEncrypted |};
                              nodeId := nodeId;
                              nodePublicKey := publicKey node |}, cur)
                end
            end
          else
            (RJson {| success := true;
                      reEncryptedShare := inl "placeholder_reencrypted_data";
                      nodeId := nodeId;
                      nodePublicKey := publicKey node |}, cur)
      | None =>
          (RJson {| success := true;
                    reEncryptedShare := inl "placeholder_reencrypted_data";
                    nodeId := nodeId;
                    nodePublicKey := publicKey node |}, cur)
      end
  end.

(** The callback of [shares.map] in [POST /api/encrypt-shares]: the entry
    or the exception thrown, and the cursor of the random source after
    it. *)
Definition encryptShare (nodeKeys : NodeKeys) (senderPublicKey : option string)
    (src : entropy) (cur : nat) (shareHex : string) (i : nat)
  : outcome EncryptedEntry * nat :=
  let nodeId := nodeIds !! i in
  match lookupNode nodeKeys nodeId with
  | None =>
      (Return {| ee_nodeId := nodeId;
                 ee_encryptedShare := inl shareHex;
                 ee_error := Some "Node not found" |}, cur)
  | Some node =>
      match hexBytes shareHex with
      | Throw e => (Throw e, cur)
      | Return shareBytes =>
          let '(nonce, cur) := randomBytes src cur 24 in
          if truthy senderPublicKey then
            let '(ephemeral_secretKey, cur) := randomBytes src cur 32 in
            let ephemeral_publicKey := scalarMult_base ephemeral_secretKey in
            match nacl_box shareBytes nonce (secretKey node)
                    ephemeral_secretKey with
            | Throw e => (Throw e, cur)
            | Return encrypted =>
                (Return {| ee_nodeId := nodeId;
                           ee_encryptedShare :=
                             inr {| sn_nonce := encodeBase64 nonce;
                                    sn_encrypted := encodeBase64 encrypted;
                                    sn_ephemeralPublicKey :=
                                      encodeBase64 ephemeral_publicKey |};
                           ee_error := None |}, cur)
            end
          else
            (Return {| ee_nodeId := nodeId;
                       ee_encryptedShare := inl shareHex;
                       ee_error := None |}, cur)
      end
  end.

(** [shares.map]: the callback runs on the shares in order until one
    throws; the random bytes drawn before that stay drawn. *)
Fixpoint encryptAll (nodeKeys : NodeKeys) (senderPublicKey : option string)
    (src : entropy) (cur : nat) (shares : list string) (i : nat)
  : outcome (list EncryptedEntry) * nat :=
  match shares with
  | [] => (Return [], cur)
  | shareHex :: rest =>
      match encryptShare nodeKeys senderPublicKey src cur shareHex i with
      | (Throw e, cur) => (Throw e, cur)
      | (Return entry, cur) =>
          match encryptAll nodeKeys senderPublicKey src cur rest (S i) with
          | (Throw e, cur) => (Throw e, cur)
          | (Return entries, cur) => (Return (entry :: entries), cur)
          end
      end
  end.

(** [POST /api/encrypt-shares], after authentication: the status and error
    of a failure, or the [encryptedShares] of the body. *)
Definition encryptShares (nodeKeys : NodeKeys) (src : entropy) (cur : nat)
    (shares : option (list string)) (senderPublicKey : option string)
  : (Z * string + list EncryptedEntry) * nat :=
  match shares with
  | None => (inl (400, "Shares array is required"), cur)
  | Some shares =>
      match encryptAll nodeKeys senderPublicKey src cur shares 0 with
      | (Return encryptedShares, cur) => (inr encryptedShares, cur)
      | (Throw e, cur) => (inl (500, e), cur)
      end
  end.

End Primitives.

End Nodes.

(** ** The payload cipher (Web Crypto)

    [subtle_encrypt iv key data] and [subtle_decrypt iv key data] are
    [crypto.subtle.encrypt] and [crypto.subtle.decrypt] with the algorithm
    [{ name: 'AES-GCM', iv }]; a rejected promise is a [Throw]. *)

Module Aes.

Section WebCrypto.

Variable CryptoKey : Type.
Variable subtle_encrypt : list Z -> CryptoKey -> list Z -> outcome (list Z).
Variable subtle_decrypt : list Z -> CryptoKey -> list Z -> outcome (list Z).

Definition encryptAES (src : entropy) (cur : nat) (data : list Z)
    (key : CryptoKey) : outcome (list Z * nat) :=
  let '(iv, cur) := getRandomValues src cur (u8_new 12) 0 in
  ciphertext ← subtle_encrypt iv key data;
  let result := u8_new (length iv + length ciphertext) in
  let result := u8_set_all result iv 0 in
  let result := u8_set_all result ciphertext (length iv) in
  Return (result, cur).

Definition decryptAES (data : list Z) (key : CryptoKey) : outcome (list Z) :=
  let iv := take 12 data in
  let ciphertext := drop 12 data in
  subtle_decrypt iv key ciphertext.

End WebCrypto.

End Aes.

(** * Encodings, front-end libraries, server routes and contract *)

(** ** Hexadecimal encoding of shares and keys

    A string is a sequence of code units below 256 ([string]); the hex
    strings the code produces are ASCII. *)

Module Hex.

Definition code (c : Ascii.ascii) : Z := Z.of_N (Ascii.N_of_ascii c).

(** The white space [parseInt] skips, among the code units below 256:
    TAB, LF, VT, FF, CR, SP and NBSP. *)
Definition is_space (c : Ascii.ascii) : bool :=
  let n := code c in
  (n =? 9) || (n =? 10) || (n =? 11) || (n =? 12) || (n =? 13) ||
  (n =? 32) || (n =? 160).

Definition digit16 (c : Ascii.ascii) : option Z :=
  let n := code c in
  if (48 <=? n) && (n <=? 57) then Some (n - 48)
  else if (97 <=? n) && (n <=? 102) then Some (n - 87)
  else if (65 <=? n) && (n <=? 70) then Some (n - 55)
  else None.

Fixpoint trimStart (s : string) : string :=
  match s with
  | String c r => if is_space c then trimStart r else s
  | EmptyString => s
  end.

(** The value of the longest prefix of hexadecimal digits, [None] when
    there is no digit. *)
Fixpoint digits16 (s : string) (acc : option Z) : option Z :=
  match s with
  | String c r =>
      match digit16 c with
      | Some d => digits16 r (Some (16 * default 0 acc + d))
      | None => acc
      end
  | EmptyString => acc
  end.

(** [parseInt(s, 16)]; [None] is [NaN]. The result is exact as long as it
    is below [2^53], which holds for the two-character arguments of the
    code. *)
Definition parseInt16 (s : string) : jsval :=
  let s := trimStart s in
  let '(sign, s) :=
    match s with
    | String c r =>
        if code c =? 45 then (-1, r)
        else if code c =? 43 then (1, r)
        else (1, s)
    | EmptyString => (1, s)
    end in
  let s :=
    match s with
    | String c0 (String c1 r) =>
        if (code c0 =? 48) && ((code c1 =? 120) || (code c1 =? 88)) then r
        else s
    | _ => s
    end in
  match digits16 s None with
  | Some v => Some (sign * v)
  | None => None
  end.

Definition hexDigit (d : Z) : Ascii.ascii :=
  Ascii.ascii_of_N (Z.to_N (if d <? 10 then 48 + d else 87 + d)).

Fixpoint toString16_aux (fuel : nat) (n : Z) (acc : string) : string :=
  match fuel with
  | O => acc
  | S fuel =>
      let acc := String (hexDigit (n mod 16)) acc in
      if n <? 16 then acc else toString16_aux fuel (n / 16) acc
  end.

(** [n.toString(16)] for a non-negative integer. *)
Definition toString16 (n : Z) : string :=
  toString16_aux (S (Z.to_nat (Z.log2 n))) n "".

(** [s.padStart(targetLength, c)] for a one-character filler. *)
Definition padStart (s : string) (targetLength : nat) (c : Ascii.ascii) : string :=
  String.string_of_list_ascii
    (replicate (targetLength - String.length s) c) +:+ s.

(** The character ['0']. *)
Definition char_0 : Ascii.ascii := Ascii.ascii_of_N 48.

(** [shareToHex] of the Shamir module. *)
Definition shareToHex (share : list Z) : string :=
  String.concat "" (map (fun b => padStart (toString16 b) 2 char_0) share).

(** [hexToShare] of the Shamir module: the loop runs over [i = 2 * k]. *)
Definition hexToShare (hex : string) : list Z :=
  let bytes := u8_new (String.length hex / 2) in
  fold_left
    (fun bytes k =>
       let i := (2 * k)%nat in
       u8_set bytes (i / 2)
         (to_int32 (parseInt16 (String.substring i 2 hex))))
    (seq 0 ((String.length hex + 1) / 2)) bytes.

(** [bytesToHex] and [hexToBytes] of the encryption module. *)
Definition bytesToHex (bytes : list Z) : string :=
  String.concat "" (map (fun b => padStart (toString16 b) 2 char_0) bytes).

Definition hexToBytes (hex : string) : list Z :=
  let bytes := u8_new (String.length hex / 2) in
  fold_left
    (fun bytes k =>
       let i := (2 * k)%nat in
       u8_set bytes (i / 2)
         (to_int32 (parseInt16 (String.substring i 2 hex))))
    (seq 0 ((String.length hex + 1) / 2)) bytes.

(** The matches of [/.{1,2}/g]: from left to right, two characters that are
    no line terminators, or one when no second one follows. *)
Definition is_line_terminator (c : Ascii.ascii) : bool :=
  (code c =? 10) || (code c =? 13).

Fixpoint match_pairs (s : string) : list string :=
  match s with
  | EmptyString => []
  | String c1 rest =>
      if is_line_terminator c1 then match_pairs rest
      else
        match rest with
        | EmptyString => [String c1 EmptyString]
        | String c2 rest' =>
            if is_line_terminator c2
            then String c1 EmptyString :: match_pairs rest'
            else String c1 (String c2 EmptyString) :: match_pairs rest'
        end
  end.

(** [new Uint8Array(hex.match(/.{1,2}/g).map(h => parseInt(h, 16)))], as
    the pages and the server decode a hex key or share; the match of a
    string without such a character is [null]. *)
Definition pairsToBytes (hex : string) : outcome (list Z) :=
  match match_pairs hex with
  | [] => Throw "Cannot read properties of null (reading 'map')"
  | pairs => Return (map (fun h => to_int32 (parseInt16 h) mod 256) pairs)
  end.

End Hex.

(** ** Key material on upload and on download (front-end pages) *)

Module Client.


(** [hexToShare] applied to an element of the [shares] array of a
    response; reading [length] of [null] throws. *)
Definition hexToShare_json (hex : option string) : outcome (list Z) :=
  match hex with
  | Some hex => Return (Hex.hexToShare hex)
  | None => Throw "Cannot read properties of null (reading 'length')"
  end.

Fixpoint map_outcome {A B} (f : A -> outcome B) (l : list A)
  : outcome (list B) :=
  match l with
  | [] => Return []
  | x :: l => y ← f x; ys ← map_outcome f l; Return (y :: ys)
  end.

(** The key recovery of [handleDownload] from the body of a key response:
    the hex key, or [None] when the response carries neither two shares
    nor a key. *)
Definition recoverKeyHex (data : KeyRelease.KeyResponse)
  : outcome (option string) :=
  if (2 <=? length (KeyRelease.shares data))%nat then
    shareArrays ← map_outcome hexToShare_json (KeyRelease.shares data);
    reconstructedKey ← Shamir.reconstructSecret shareArrays;
    Return
      (Some
         (String.concat ""
            (map (fun b => Hex.padStart (Hex.toString16 b) 2 Hex.char_0)
               reconstructedKey)))
  else
    match KeyRelease.encryptionKey data with
    | Some k => if String.eqb k "" then Return None else Return (Some k)
    | None => Return None
    end.


End Client.

(** ** Files under AES-GCM, base64 and stored key pairs (front-end
    libraries) *)

Module AesFile.

Section WebCrypto.

Variable CryptoKey : Type.
Variable subtle_encrypt : list Z -> CryptoKey -> list Z -> outcome (list Z).
Variable subtle_decrypt : list Z -> CryptoKey -> list Z -> outcome (list Z).
(** [crypto.subtle.generateKey]: the key its [n]-th call returns. *)
Variable subtle_generateKey : nat -> outcome CryptoKey.
Variable subtle_exportKey : CryptoKey -> outcome (list Z).
Variable subtle_importKey : list Z -> outcome CryptoKey.

Definition generateAESKey (kcur : nat) : outcome (CryptoKey * nat) :=
  key ← subtle_generateKey kcur; Return (key, S kcur).

Definition exportAESKey (key : CryptoKey) : outcome (list Z) :=
  subtle_exportKey key.

Definition importAESKey (keyBytes : list Z) : outcome CryptoKey :=
  subtle_importKey keyBytes.

(** [encryptFile]: the blob, the raw key and the two cursors. *)
Definition encryptFile (src : entropy) (cur kcur : nat) (fileData : list Z)
  : outcome (list Z * list Z * nat * nat) :=
  '(key, kcur) ← generateAESKey kcur;
  keyBytes ← exportAESKey key;
  '(encrypted, cur) ← Aes.encryptAES CryptoKey subtle_encrypt src cur fileData key;
  Return (encrypted, keyBytes, cur, kcur).

Definition decryptFile (encryptedData keyBytes : list Z) : outcome (list Z) :=
  key ← importAESKey keyBytes;
  Aes.decryptAES CryptoKey subtle_decrypt encryptedData key.

(** Step 3 of [handleDownload]: the bytes saved for a downloaded blob,
    decrypted when a key is at hand. *)
Definition decryptDownload (keyHex : option string) (encryptedData : list Z)
  : outcome (list Z) :=
  match keyHex with
  | Some keyHex =>
      if String.eqb keyHex "" then Return encryptedData
      else keyBytes ← Hex.pairsToBytes keyHex;
           decryptFile encryptedData keyBytes
  | None => Return encryptedData
  end.

End WebCrypto.

End AesFile.

Module Base64.

Section Browser.

Variable btoa : string -> outcome string.
Variable atob : string -> outcome string.

(** [String.fromCharCode] of a byte, and [charCodeAt]. *)
Definition fromCharCode (b : Z) : Ascii.ascii := Ascii.ascii_of_N (Z.to_N (b mod 256)).

Definition charCode (c : Ascii.ascii) : Z := Z.of_N (Ascii.N_of_ascii c).

Definition bytesToBase64 (bytes : list Z) : outcome string :=
  let binary :=
    fold_left
      (fun binary i =>
         binary +:+ String (fromCharCode (to_int32 (u8_get bytes (Some (Z.of_nat i)))))
                      EmptyString)
      (seq 0 (length bytes)) EmptyString in
  btoa binary.

Definition base64ToBytes (base64 : string) : outcome (list Z) :=
  binary ← atob base64;
  let bytes := u8_new (String.length binary) in
  Return
    (fold_left
       (fun bytes i =>
          u8_set bytes i
            (match String.get i binary with
             | Some c => charCode c
             | None => 0
             end))
       (seq 0 (String.length binary)) bytes).

End Browser.

End Base64.

(** [localStorage], shared by the token helpers of the contract client
    and the key pairs of the X25519 module. *)
Module Storage.

Definition localStorage := gmap string string.

Definition getItem (st : localStorage) (k : string) : option string := st !! k.
Definition setItem (st : localStorage) (k v : string) : localStorage :=
  <[k := v]> st.
Definition removeItem (st : localStorage) (k : string) : localStorage :=
  delete k st.

Definition getAuthToken (st : localStorage) : option string :=
  getItem st "blocksafe_jwt".

Definition setAuthToken (st : localStorage) (token : string) : localStorage :=
  setItem st "blocksafe_jwt" token.

Definition clearAuthToken (st : localStorage) : localStorage :=
  removeItem st "blocksafe_jwt".

Definition isAuthenticated (st : localStorage) : bool :=
  Nodes.truthy (getItem st "blocksafe_jwt").

Record X25519KeyPair : Type := { publicKey : string; secretKey : string }.

Definition KEY_STORAGE_PREFIX : string := "blocksafe_x25519_".

Section Json.

Variable JSON_stringify : X25519KeyPair -> string.
Variable JSON_parse : string -> outcome X25519KeyPair.

Definition saveKeyPair (st : localStorage) (walletAddress : string)
    (keyPair : X25519KeyPair) : localStorage :=
  setItem st (KEY_STORAGE_PREFIX +:+ walletAddress) (JSON_stringify keyPair).

(** [None] is [null]. *)
Definition loadKeyPair (st : localStorage) (walletAddress : string)
  : outcome (option X25519KeyPair) :=
  match getItem st (KEY_STORAGE_PREFIX +:+ walletAddress) with
  | Some stored =>
      if String.eqb stored "" then Return None
      else kp ← JSON_parse stored; Return (Some kp)
  | None => Return None
  end.

Definition hasKeyPair (st : localStorage) (walletAddress : string) : bool :=
  bool_decide (getItem st (KEY_STORAGE_PREFIX +:+ walletAddress) <> None).

End Json.

End Storage.

Module SecretBox.

Section Primitives.

Variable decodeBase64 : string -> outcome (list Z).
Variable encodeBase64 : list Z -> string.
(** [nacl.secretbox] returns a byte array, or throws when the key has not
    32 bytes or the nonce not 24; [nacl.secretbox.open] throws in the same
    cases and returns [null] ([None]) on a failed check. *)
Variable nacl_secretbox : list Z -> list Z -> list Z -> outcome (list Z).
Variable nacl_secretbox_open :
  list Z -> list Z -> list Z -> outcome (option (list Z)).

Definition encryptWithSharedSecret (src : entropy) (cur : nat)
    (data secretKey : list Z) : outcome (Nodes.Sealed * nat) :=
  let '(nonce, cur) := Nodes.randomBytes src cur 24 in
  encrypted ← nacl_secretbox data nonce secretKey;
  Return ({| Nodes.nonce := encodeBase64 nonce;
             Nodes.encrypted := encodeBase64 encrypted |}, cur).

Definition decryptWithSharedSecret (encryptedBase64 nonceBase64 : string)
    (secretKey : list Z) : outcome (list Z) :=
  encrypted ← decodeBase64 encryptedBase64;
  nonce ← decodeBase64 nonceBase64;
  decrypted ← nacl_secretbox_open encrypted nonce secretKey;
  match decrypted with
  | None => Throw "Secretbox decryption failed"
  | Some decrypted => Return decrypted
  end.

End Primitives.

End SecretBox.

(** ** The node keys at start-up (server) *)

Module NodeSetup.

Section Primitives.

Variable encodeBase64 : list Z -> string.
Variable scalarMult_base : list Z -> list Z.
(** [crypto.createHash('sha256').update(s).digest()] *)
Variable sha256 : string -> list Z.
(** [process.env] *)
Variable env : string -> option string.

(** [nacl.box.keyPair.fromSecretKey] *)
Definition keyPair_fromSecretKey (secretKey : list Z)
  : outcome (list Z * list Z) :=
  if (length secretKey =? 32)%nat
  then Return (scalarMult_base secretKey, secretKey)
  else Throw "bad secret key size".

(** [nacl.box.keyPair] *)
Definition keyPair (src : entropy) (cur : nat) : list Z * list Z * nat :=
  let '(secretKey, cur) := Nodes.randomBytes src cur 32 in
  (scalarMult_base secretKey, secretKey, cur).

(** The body of the loop of [loadOrGenerateNodeKeys] for the node named
    [node], in capitals. *)
Definition nodeKey (src : entropy) (cur : nat) (node : string)
  : outcome (Nodes.NodeKey * nat) :=
  let privEnv := env ("NODE_" +:+ node +:+ "_PRIVATE_KEY") in
  if Nodes.truthy privEnv && String.prefix "0x" (default "" privEnv) then
    let seedHash := sha256 (default "" privEnv) in
    '(pk, sk) ← keyPair_fromSecretKey seedHash;
    Return ({| Nodes.publicKey := encodeBase64 pk; Nodes.secretKey := sk |},
            cur)
  else
    let '(pk, sk, cur) := keyPair src cur in
    Return ({| Nodes.publicKey := encodeBase64 pk; Nodes.secretKey := sk |},
            cur).

Definition loadOrGenerateNodeKeys (src : entropy) (cur : nat)
  : outcome (Nodes.NodeKeys * nat) :=
  '(a, cur) ← nodeKey src cur "ALPHA";
  '(b, cur) ← nodeKey src cur "BETA";
  '(g, cur) ← nodeKey src cur "GAMMA";
  Return ({| Nodes.alpha := a; Nodes.beta := b; Nodes.gamma := g |}, cur).

End Primitives.

End NodeSetup.

(** ** The server: stores, audit log and authentication *)

Module Server.

(** A response: the JSON body of a success, or a status with an error. *)
Inductive reply (A : Type) : Type :=
  | Ok (body : A)
  | Err (code : Z) (error : string).
Arguments Ok {A} body.
Arguments Err {A} code error.

Record AuditEntry : Type := {
  a_type : string;
  a_actor : string;
  a_fileId : option string;
  a_target : option string;
  a_timestamp : Z;
  a_txId : option string
}.

Record NonceItem : Type := {
  n_nonce : string;
  n_message : string;
  n_expiresAt : Z
}.

Record PublicLink : Type := {
  pl_token : string;
  pl_fileId : string;
  pl_cid : string;
  pl_name : string;
  pl_owner : string;
  pl_encryptionKey : option string;
  pl_createdAt : Z;
  pl_expiresAt : Z
}.

(** An element of [filesStore]; [publicLinks] is absent until the first
    link is made. *)
Record FileItem : Type := {
  id : string;
  name : string;
  cid : string;
  owner : string;
  size : Z;
  mimeType : string;
  createdAt : Z;
  isDeleted : bool;
  encryptionKey : option string;
  shares : list string;
  groupId : option string;
  publicLinks : option (list PublicLink)
}.

(** An element of [sharesStore]. *)
Record ShareItem : Type := {
  s_id : string;
  s_fileId : string;
  s_name : string;
  s_cid : string;
  s_size : Z;
  s_mimeType : string;
  s_owner : string;
  s_permission : string;
  s_wrappedKey : string;
  s_encryptionKey : option string;
  s_shares : list string;
  s_sharedAt : Z;
  s_expiresAt : Z
}.

Record MemberItem : Type := {
  mb_address : string;
  mb_role : string;
  mb_status : string;
  mb_joinedAt : Z
}.

Record GroupItem : Type := {
  gr_id : string;
  gr_name : string;
  gr_creator : string;
  gr_members : list MemberItem;
  gr_createdAt : Z
}.

(** The stores of the process. [filesStore] keeps the insertion order of
    its [Map], which two routes iterate; a user is stored with the time of
    the first sign-in. *)
Record state : Type := {
  nonces : gmap string NonceItem;
  users : gmap string Z;
  filesStore : list (string * list FileItem);
  sharesStore : gmap string (list ShareItem);
  publicKeys : gmap string string;
  groupsStore : gmap string GroupItem;
  auditLog : list AuditEntry
}.

Definition empty_state : state :=
  {| nonces := ∅; users := ∅; filesStore := []; sharesStore := ∅;
     publicKeys := ∅; groupsStore := ∅; auditLog := [] |}.

Definition set_nonces (st : state) (v : gmap string NonceItem) : state :=
  {| nonces := v; users := users st; filesStore := filesStore st;
     sharesStore := sharesStore st; publicKeys := publicKeys st;
     groupsStore := groupsStore st; auditLog := auditLog st |}.

Definition set_users (st : state) (v : gmap string Z) : state :=
  {| nonces := nonces st; users := v; filesStore := filesStore st;
     sharesStore := sharesStore st; publicKeys := publicKeys st;
     groupsStore := groupsStore st; auditLog := auditLog st |}.

Definition set_filesStore (st : state) (v : list (string * list FileItem))
  : state :=
  {| nonces := nonces st; users := users st; filesStore := v;
     sharesStore := sharesStore st; publicKeys := publicKeys st;
     groupsStore := groupsStore st; auditLog := auditLog st |}.

Definition set_sharesStore (st : state) (v : gmap string (list ShareItem))
  : state :=
  {| nonces := nonces st; users := users st; filesStore := filesStore st;
     sharesStore := v; publicKeys := publicKeys st;
     groupsStore := groupsStore st; auditLog := auditLog st |}.

Definition set_publicKeys (st : state) (v : gmap string string) : state :=
  {| nonces := nonces st; users := users st; filesStore := filesStore st;
     sharesStore := sharesStore st; publicKeys := v;
     groupsStore := groupsStore st; auditLog := auditLog st |}.

Definition set_groupsStore (st : state) (v : gmap string GroupItem) : state :=
  {| nonces := nonces st; users := users st; filesStore := filesStore st;
     sharesStore := sharesStore st; publicKeys := publicKeys st;
     groupsStore := v; auditLog := auditLog st |}.

Definition set_auditLog (st : state) (v : list AuditEntry) : state :=
  {| nonces := nonces st; users := users st; filesStore := filesStore st;
     sharesStore := sharesStore st; publicKeys := publicKeys st;
     groupsStore := groupsStore st; auditLog := v |}.

(** [addAudit]: the entry is pushed and the oldest one dropped once there
    are more than 500. *)
Definition addAudit (st : state) (now : Z) (type actor : string)
    (fileId target txId : option string) : state :=
  let auditLog :=
    auditLog st ++ [{| a_type := type; a_actor := actor; a_fileId := fileId;
                       a_target := target; a_timestamp := now;
                       a_txId := txId |}] in
  set_auditLog st
    (if (500 <? length auditLog)%nat then drop 1 auditLog else auditLog).

(** [l.slice(-n)] *)
Definition slice_last {A} (n : nat) (l : list A) : list A :=
  drop (length l - n) l.

Definition opt_eqb (x : option string) (s : string) : bool :=
  match x with Some x => String.eqb x s | None => false end.

(** [GET /api/audit], after authentication. *)
Definition getAudit (st : state) (address : string) : list AuditEntry :=
  let userAudit :=
    List.filter
      (fun a => String.eqb (a_actor a) address || opt_eqb (a_target a) address)
      (auditLog st) in
  rev (slice_last 50 userAudit).

(** [GET /api/audit/:fileId], after authentication. *)
Definition getFileAudit (st : state) (fileId : string) : list AuditEntry :=
  let events := List.filter (fun a => opt_eqb (a_fileId a) fileId) (auditLog st) in
  rev (slice_last 20 events).

(** *** Authentication *)

Fixpoint toString10_aux (fuel : nat) (n : Z) (acc : string) : string :=
  match fuel with
  | O => acc
  | S fuel =>
      let acc := String (Ascii.ascii_of_N (Z.to_N (48 + n mod 10))) acc in
      if n <? 10 then acc else toString10_aux fuel (n / 10) acc
  end.

(** The decimal digits of a time stamp in a template string. *)
Definition toString10 (n : Z) : string :=
  toString10_aux (S (Z.to_nat (Z.log2 n))) n "".

Definition newline : string := String (Ascii.ascii_of_N 10) EmptyString.

Section Jwt.

(** [jwt.sign] of the payload [{address, iat}] with the server's secret
    and a life of 24 hours, and [jwt.verify] at a time: the address of the
    payload, or [None] when it throws. *)
Variable jwt_sign : string -> Z -> string.
Variable jwt_verify : string -> Z -> option string.

(** [authHeader.split(' ')[1]] of a header that starts with ["Bearer "]. *)
Fixpoint upto_space (s : string) : string :=
  match s with
  | String c r => if Hex.code c =? 32 then EmptyString else String c (upto_space r)
  | EmptyString => EmptyString
  end.

(** [requireAuth]: the address of [req.user] for the routes behind it. *)
Definition requireAuth (authorization : option string) (now : Z)
  : reply string :=
  match authorization with
  | Some authHeader =>
      if negb (String.eqb authHeader "") && String.prefix "Bearer " authHeader
      then
        let token := upto_space (String.substring 7 (String.length authHeader - 7) authHeader) in
        match jwt_verify token now with
        | Some address => Ok address
        | None => Err 401 "Invalid or expired token"
        end
      else Err 401 "Missing or invalid authorization header"
  | None => Err 401 "Missing or invalid authorization header"
  end.

(** [GET /api/auth/nonce/:address]; [nonce] is the hex of the 32 random
    bytes. *)
Definition getNonce (st : state) (now : Z) (nonce address : string)
  : state * (string * string) :=
  let message :=
    "BlockSafe Authentication" +:+ newline +:+ "Address: " +:+ address +:+
    newline +:+ "Nonce: " +:+ nonce +:+ newline +:+ "Timestamp: " +:+
    toString10 now in
  (set_nonces st
     (<[address := {| n_nonce := nonce; n_message := message;
                      n_expiresAt := now + 5 * 60 * 1000 |}]> (nonces st)),
   (nonce, message)).

(** [POST /api/auth/verify]: the token and the address. *)
Definition verify (st : state) (now : Z) (address : string)
  : state * reply (string * string) :=
  match nonces st !! address with
  | None => (st, Err 400 "No nonce found for this address")
  | Some stored =>
      if n_expiresAt stored <? now then
        (set_nonces st (delete address (nonces st)),
         Err 400 "Nonce expired — request a new one")
      else
        let st := set_nonces st (delete address (nonces st)) in
        let st :=
          match users st !! address with
          | Some _ => st
          | None => set_users st (<[address := now]> (users st))
          end in
        (st, Ok (jwt_sign address (now / 1000), address))
  end.

End Jwt.

(** *** Files *)

(** [store.get(address) || []] for a [Map] of arrays in insertion order. *)
Definition store_get {A} (store : list (string * list A)) (address : string)
  : list A :=
  match List.find (fun p => String.eqb (fst p) address) store with
  | Some p => snd p
  | None => []
  end.

(** [if (!store.has(address)) store.set(address, []);
     store.get(address).push(item)] *)
Fixpoint store_push {A} (store : list (string * list A)) (address : string)
    (item : A) : list (string * list A) :=
  match store with
  | [] => [(address, [item])]
  | (a, l) :: rest =>
      if String.eqb a address then (a, l ++ [item]) :: rest
      else (a, l) :: store_push rest address item
  end.

(** The first element that satisfies [p], changed in place. *)
Fixpoint update_first {A} (p : A -> bool) (f : A -> A) (l : list A) : list A :=
  match l with
  | [] => []
  | x :: l => if p x then f x :: l else x :: update_first p f l
  end.

Definition store_update {A} (store : list (string * list A))
    (address : string) (g : list A -> list A) : list (string * list A) :=
  map (fun p => if String.eqb (fst p) address then (fst p, g (snd p)) else p)
    store.

Definition set_isDeleted (f : FileItem) (v : bool) : FileItem :=
  {| id := id f; name := name f; cid := cid f; owner := owner f;
     size := size f; mimeType := mimeType f; createdAt := createdAt f;
     isDeleted := v; encryptionKey := encryptionKey f; shares := shares f;
     groupId := groupId f; publicLinks := publicLinks f |}.

Definition set_publicLinks (f : FileItem) (v : option (list PublicLink))
  : FileItem :=
  {| id := id f; name := name f; cid := cid f; owner := owner f;
     size := size f; mimeType := mimeType f; createdAt := createdAt f;
     isDeleted := isDeleted f; encryptionKey := encryptionKey f;
     shares := shares f; groupId := groupId f; publicLinks := v |}.

(** [GET /api/files], after authentication. *)
Definition listFiles (st : state) (address : string) : list FileItem :=
  List.filter (fun f => negb (isDeleted f)) (store_get (filesStore st) address).

(** The file of a [multipart] upload and the fields of its body. *)
Record UploadedFile : Type := {
  originalname : string;
  u_size : Z;
  mimetype : string
}.

Record UploadBody : Type := {
  ub_filename : option string;
  ub_encryptionKey : option string;
  ub_shares : option string;
  ub_groupId : option string
}.

(** The body of the upload response: the item without key and shares. *)
Record SafeItem : Type := {
  si_id : string;
  si_name : string;
  si_cid : string;
  si_owner : string;
  si_size : Z;
  si_mimeType : string;
  si_createdAt : Z;
  si_isDeleted : bool;
  si_groupId : option string
}.

Section Json.

(** [JSON.parse] of the [shares] field, which the pages send as an array
    of strings. *)
Variable JSON_parse : string -> outcome (list string).

(** [POST /api/files/upload], after authentication. [pinned] is the
    content id from the pinning step, which may throw, and [uuid] the
    fresh identifier. *)
Definition upload (st : state) (now : Z) (address : string)
    (file : option UploadedFile) (body : UploadBody)
    (pinned : outcome string) (uuid : string) : state * reply SafeItem :=
  match file with
  | None => (st, Err 400 "No file provided")
  | Some file =>
      let filename :=
        default (originalname file) (KeyRelease.or_null (ub_filename body)) in
      let encryptionKey := KeyRelease.or_null (ub_encryptionKey body) in
      let sharesJson := KeyRelease.or_null (ub_shares body) in
      let groupId := KeyRelease.or_null (ub_groupId body) in
      match pinned with
      | Throw msg => (st, Err 500 msg)
      | Return cid =>
          let shares :=
            match sharesJson with
            | Some sharesJson =>
                match JSON_parse sharesJson with
                | Return shares => shares
                | Throw _ => []
                end
            | None => []
            end in
          let fileItem :=
            {| id := uuid; name := filename; cid := cid; owner := address;
               size := u_size file; mimeType := mimetype file;
               createdAt := now; isDeleted := false;
               encryptionKey := encryptionKey; shares := shares;
               groupId := groupId; publicLinks := None |} in
          let st :=
            set_filesStore st (store_push (filesStore st) address fileItem) in
          let st := addAudit st now "FILE_UPLOAD" address (Some uuid) None None in
          (st, Ok {| si_id := uuid; si_name := filename; si_cid := cid;
                     si_owner := address; si_size := u_size file;
                     si_mimeType := mimetype file; si_createdAt := now;
                     si_isDeleted := false; si_groupId := groupId |})
      end
  end.

End Json.

(** [GET /api/files/:id/key], after authentication: the key and the
    shares of a file of the caller. *)
Definition getFileKey (st : state) (address fileId : string)
  : reply (option string * list string) :=
  match List.find (fun f => String.eqb (id f) fileId)
          (store_get (filesStore st) address) with
  | None => Err 404 "File not found"
  | Some file => Ok (encryptionKey file, shares file)
  end.

(** [DELETE /api/files/:id], after authentication. *)
Definition deleteFile (st : state) (now : Z) (address fileId : string)
  : state * reply bool :=
  match List.find (fun f => String.eqb (id f) fileId)
          (store_get (filesStore st) address) with
  | None => (st, Err 404 "File not found")
  | Some file =>
      let st :=
        set_filesStore st
          (store_update (filesStore st) address
             (update_first (fun f => String.eqb (id f) fileId)
                (fun f => set_isDeleted f true))) in
      let st := addAudit st now "FILE_DELETE" address (Some (id file)) None None in
      (st, Ok true)
  end.

(** *** Sharing *)

(** [POST /api/files/:id/share], after authentication; absent fields of
    the body take their defaults. *)
Definition shareFile (st : state) (now : Z) (address fileId : string)
    (recipientAddress permission : option string) (expiresIn : option Z)
    (wrappedKey : option string) (uuid : string) : state * reply string :=
  match KeyRelease.or_null recipientAddress with
  | None => (st, Err 400 "recipientAddress is required")
  | Some recipientAddress =>
      match List.find (fun f => String.eqb (id f) fileId && negb (isDeleted f))
              (store_get (filesStore st) address) with
      | None => (st, Err 404 "File not found")
      | Some file =>
          let expiresIn := default 0 expiresIn in
          let shareItem :=
            {| s_id := uuid; s_fileId := id file; s_name := name file;
               s_cid := cid file; s_size := size file;
               s_mimeType := mimeType file; s_owner := address;
               s_permission := default "read" permission;
               s_wrappedKey := default "" wrappedKey;
               s_encryptionKey := KeyRelease.or_null (encryptionKey file);
               s_shares := shares file;
               s_sharedAt := now;
               s_expiresAt := if 0 <? expiresIn then now + expiresIn * 1000
                              else 0 |} in
          let st :=
            set_sharesStore st
              (<[recipientAddress :=
                   default [] (sharesStore st !! recipientAddress)
                   ++ [shareItem]]> (sharesStore st)) in
          let st :=
            addAudit st now "FILE_SHARE" address (Some (id file))
              (Some recipientAddress) None in
          (st, Ok uuid)
      end
  end.

(** [GET /api/files/shared], after authentication. *)
Definition listShared (st : state) (now : Z) (address : string)
  : list ShareItem :=
  List.filter
    (fun s => (s_expiresAt s =? 0) || (now <? s_expiresAt s))
    (default [] (sharesStore st !! address)).

(** What the key routes read of a share and of a file. *)
Definition to_SharedFileItem (s : ShareItem) : KeyRelease.SharedFileItem :=
  {| KeyRelease.sf_id := s_id s;
     KeyRelease.sf_expiresAt := Some (s_expiresAt s);
     KeyRelease.sf_encryptionKey := s_encryptionKey s;
     KeyRelease.sf_shares := Some (s_shares s) |}.

Definition to_FileItem (f : FileItem) : KeyRelease.FileItem :=
  {| KeyRelease.f_id := id f;
     KeyRelease.f_groupId := groupId f;
     KeyRelease.f_encryptionKey := encryptionKey f;
     KeyRelease.f_shares := Some (shares f) |}.

Definition to_Member (m : MemberItem) : KeyRelease.Member :=
  {| KeyRelease.m_address := mb_address m;
     KeyRelease.m_status := mb_status m;
     KeyRelease.m_role := mb_role m |}.

Definition to_Group (g : GroupItem) : KeyRelease.Group :=
  {| KeyRelease.g_name := gr_name g;
     KeyRelease.g_members := to_Member <$> gr_members g |}.

(** [GET /api/files/shared/:shareId/key] on the stores of the server. *)
Definition getSharedFileKey (st : state) (rnd : KeyRelease.random)
    (cur : nat) (now : Z) (address shareId : string)
  : KeyRelease.response * option KeyRelease.ReleaseLog * nat :=
  KeyRelease.getSharedFileKey
    ((fun l : list ShareItem => to_SharedFileItem <$> l) <$> sharesStore st)
    rnd cur now address shareId.

(** [GET /api/groups/:id/files/:fileId/key] on the stores of the server. *)
Definition getGroupFileKey (st : state) (rnd : KeyRelease.random)
    (cur : nat) (address groupId fileId : string)
  : KeyRelease.response * option KeyRelease.ReleaseLog * nat :=
  KeyRelease.getGroupFileKey
    (to_Group <$> groupsStore st)
    (map (fun p => (fst p, to_FileItem <$> snd p)) (filesStore st))
    rnd cur address groupId fileId.

(** *** Public links *)

(** [POST /api/files/:id/public-link], after authentication: the token
    and the expiry. [linkToken] is the hex of the 32 random bytes. *)
Definition createPublicLink (st : state) (now : Z) (address fileId : string)
    (expiresIn : option Z) (linkToken : string)
  : state * reply (string * Z) :=
  let expiresIn := default 3600 expiresIn in
  match List.find (fun f => String.eqb (id f) fileId && negb (isDeleted f))
          (store_get (filesStore st) address) with
  | None => (st, Err 404 "File not found")
  | Some file =>
      let publicLink :=
        {| pl_token := linkToken; pl_fileId := id file; pl_cid := cid file;
           pl_name := name file; pl_owner := address;
           pl_encryptionKey := KeyRelease.or_null (encryptionKey file);
           pl_createdAt := now; pl_expiresAt := now + expiresIn * 1000 |} in
      let st :=
        set_filesStore st
          (store_update (filesStore st) address
             (update_first
                (fun f => String.eqb (id f) fileId && negb (isDeleted f))
                (fun f =>
                   set_publicLinks f
                     (Some (default [] (publicLinks f) ++ [publicLink]))))) in
      let st :=
        addAudit st now "PUBLIC_LINK_CREATED" address (Some (id file)) None None in
      (st, Ok (linkToken, pl_expiresAt publicLink))
  end.

(** The first file, in the order of the stores, with a link of the given
    token, and that link. *)
Fixpoint find_link_in (files : list FileItem) (token : string)
  : option (FileItem * PublicLink) :=
  match files with
  | [] => None
  | file :: files =>
      match publicLinks file with
      | None => find_link_in files token
      | Some links =>
          match List.find (fun l => String.eqb (pl_token l) token) links with
          | Some link => Some (file, link)
          | None => find_link_in files token
          end
      end
  end.

Fixpoint find_link (store : list (string * list FileItem)) (token : string)
  : option (FileItem * PublicLink) :=
  match store with
  | [] => None
  | (_, files) :: store =>
      match find_link_in files token with
      | Some r => Some r
      | None => find_link store token
      end
  end.

Definition link_expired (link : PublicLink) (now : Z) : bool :=
  negb (pl_expiresAt link =? 0) && (pl_expiresAt link <? now).

(** [GET /api/public/:token]: name, cid, size, type and owner. *)
Definition getPublic (st : state) (now : Z) (token : string)
  : reply (string * string * Z * string * string) :=
  match find_link (filesStore st) token with
  | Some (file, link) =>
      if link_expired link now then Err 410 "Link has expired"
      else Ok (name file, cid file, size file, mimeType file, pl_owner link)
  | None => Err 404 "Link not found"
  end.

(** [GET /api/public/:token/key] *)
Definition getPublicKey (st : state) (now : Z) (token : string)
  : reply (option string) :=
  match find_link (filesStore st) token with
  | Some (file, link) =>
      if link_expired link now then Err 410 "Link has expired"
      else
        Ok (match KeyRelease.or_null (pl_encryptionKey link) with
            | Some k => Some k
            | None => KeyRelease.or_null (encryptionKey file)
            end)
  | None => Err 404 "Link not found"
  end.

(** *** Registered public keys *)

(** [POST /api/keys/register], after authentication. *)
Definition registerKey (st : state) (now : Z) (address : string)
    (publicKey : option string) : state * reply bool :=
  match KeyRelease.or_null publicKey with
  | None => (st, Err 400 "publicKey is required")
  | Some publicKey =>
      let st := set_publicKeys st (<[address := publicKey]> (publicKeys st)) in
      let st := addAudit st now "KEY_REGISTERED" address None None None in
      (st, Ok true)
  end.

(** [GET /api/keys/:address] *)
Definition getKey (st : state) (address : string) : reply string :=
  match KeyRelease.or_null (publicKeys st !! address) with
  | None => Err 404 "No key registered for this address"
  | Some pk => Ok pk
  end.

(** *** Groups *)

Definition set_members (g : GroupItem) (v : list MemberItem) : GroupItem :=
  {| gr_id := gr_id g; gr_name := gr_name g; gr_creator := gr_creator g;
     gr_members := v; gr_createdAt := gr_createdAt g |}.

Definition set_status (m : MemberItem) (v : string) : MemberItem :=
  {| mb_address := mb_address m; mb_role := mb_role m; mb_status := v;
     mb_joinedAt := mb_joinedAt m |}.

(** [POST /api/groups], after authentication. *)
Definition createGroup (st : state) (now : Z) (address : string)
    (name : option string) (uuid : string) : state * reply GroupItem :=
  match KeyRelease.or_null name with
  | None => (st, Err 400 "Group name is required")
  | Some name =>
      let group :=
        {| gr_id := uuid; gr_name := name; gr_creator := address;
           gr_members := [{| mb_address := address; mb_role := "admin";
                             mb_status := "active"; mb_joinedAt := now |}];
           gr_createdAt := now |} in
      let st := set_groupsStore st (<[uuid := group]> (groupsStore st)) in
      let st := addAudit st now "GROUP_CREATED" address None (Some uuid) None in
      (st, Ok group)
  end.

Definition isAdmin (group : GroupItem) (address : string) : bool :=
  existsb
    (fun m => String.eqb (mb_address m) address && String.eqb (mb_role m) "admin")
    (gr_members group).

(** [POST /api/groups/:id/invite], after authentication. *)
Definition invite (st : state) (now : Z) (address groupId memberAddress : string)
    (role : option string) : state * reply bool :=
  match groupsStore st !! groupId with
  | None => (st, Err 404 "Group not found")
  | Some group =>
      if negb (isAdmin group address) then (st, Err 403 "Only admins can invite")
      else if existsb (fun m => String.eqb (mb_address m) memberAddress)
                (gr_members group)
      then (st, Err 400 "User already in group")
      else
        let group :=
          set_members group
            (gr_members group
             ++ [{| mb_address := memberAddress;
                    mb_role := default "member" role;
                    mb_status := "invited"; mb_joinedAt := now |}]) in
        let st := set_groupsStore st (<[groupId := group]> (groupsStore st)) in
        let st :=
          addAudit st now "MEMBER_INVITED" address None (Some memberAddress) None in
        (st, Ok true)
  end.

(** [POST /api/groups/:id/accept], after authentication. *)
Definition accept (st : state) (address groupId : string) : state * reply bool :=
  match groupsStore st !! groupId with
  | None => (st, Err 404 "Group not found")
  | Some group =>
      match List.find (fun m => String.eqb (mb_address m) address)
              (gr_members group) with
      | None => (st, Err 404 "Not a member")
      | Some _ =>
          let group :=
            set_members group
              (update_first (fun m => String.eqb (mb_address m) address)
                 (fun m => set_status m "active") (gr_members group)) in
          (set_groupsStore st (<[groupId := group]> (groupsStore st)), Ok true)
      end
  end.

(** [DELETE /api/groups/:id/members/:memberAddress], after
    authentication. *)
Definition removeMember (st : state) (now : Z)
    (address groupId memberAddress : string) : state * reply bool :=
  match groupsStore st !! groupId with
  | None => (st, Err 404 "Group not found")
  | Some group =>
      if negb (isAdmin group address)
      then (st, Err 403 "Only admins can remove members")
      else
        let group :=
          set_members group
            (List.filter (fun m => negb (String.eqb (mb_address m) memberAddress))
               (gr_members group)) in
        let st := set_groupsStore st (<[groupId := group]> (groupsStore st)) in
        let st :=
          addAudit st now "MEMBER_REMOVED" address None (Some memberAddress) None in
        (st, Ok true)
  end.

End Server.

(** ** The group registry contract

    A call is a transaction: when an [assert] fails, a missing box is
    read or an addition overflows, the call fails and the state is the
    one before it. The cost and size limits of boxes are not part of the
    model. *)

Module GroupRegistry.

Record state : Type := {
  groupCount : Z;
  groupNames : gmap Z string;
  groupCreators : gmap Z string;
  memberStatuses : gmap (Z * string) Z;
  memberRoles : gmap (Z * string) Z
}.

Definition set_groupCount (st : state) (v : Z) : state :=
  {| groupCount := v; groupNames := groupNames st;
     groupCreators := groupCreators st; memberStatuses := memberStatuses st;
     memberRoles := memberRoles st |}.

Definition set_groupNames (st : state) (v : gmap Z string) : state :=
  {| groupCount := groupCount st; groupNames := v;
     groupCreators := groupCreators st; memberStatuses := memberStatuses st;
     memberRoles := memberRoles st |}.

Definition set_groupCreators (st : state) (v : gmap Z string) : state :=
  {| groupCount := groupCount st; groupNames := groupNames st;
     groupCreators := v; memberStatuses := memberStatuses st;
     memberRoles := memberRoles st |}.

Definition set_memberStatuses (st : state) (v : gmap (Z * string) Z) : state :=
  {| groupCount := groupCount st; groupNames := groupNames st;
     groupCreators := groupCreators st; memberStatuses := v;
     memberRoles := memberRoles st |}.

Definition set_memberRoles (st : state) (v : gmap (Z * string) Z) : state :=
  {| groupCount := groupCount st; groupNames := groupNames st;
     groupCreators := groupCreators st; memberStatuses := memberStatuses st;
     memberRoles := v |}.

(** [a + b] on [uint64] *)
Definition uint64_add (a b : Z) : outcome Z :=
  if a + b <? 2 ^ 64 then Return (a + b) else Throw "+ overflowed".

(** [assert(cond, msg)] *)
Definition assert (cond : bool) (msg : string) : outcome unit :=
  if cond then Return tt else Throw msg.

(** [box.exists] and [box.value] *)
Definition box_exists {K} `{Countable K} {V} (m : gmap K V) (k : K) : bool :=
  bool_decide (is_Some (m !! k)).

Definition box_value {K} `{Countable K} {V} (m : gmap K V) (k : K) : outcome V :=
  match m !! k with
  | Some v => Return v
  | None => Throw "Box must have value"
  end.

Definition createApplication : state :=
  {| groupCount := 0; groupNames := ∅; groupCreators := ∅;
     memberStatuses := ∅; memberRoles := ∅ |}.

Definition createGroup (st : state) (sender name : string)
  : outcome (state * Z) :=
  count ← uint64_add (groupCount st) 1;
  let st := set_groupCount st count in
  let groupId := groupCount st in
  let st := set_groupNames st (<[groupId := name]> (groupNames st)) in
  let st := set_groupCreators st (<[groupId := sender]> (groupCreators st)) in
  let key := (groupId, sender) in
  let st := set_memberStatuses st (<[key := 2]> (memberStatuses st)) in
  let st := set_memberRoles st (<[key := 1]> (memberRoles st)) in
  Return (st, groupId).

(** The three checks on the caller of [inviteMember] and [removeMember]. *)
Definition assert_admin (st : state) (callerKey : Z * string) : outcome unit :=
  _ ← assert (box_exists (memberStatuses st) callerKey) "Caller is not a member";
  status ← box_value (memberStatuses st) callerKey;
  _ ← assert (status =? 2) "Caller has not joined";
  role ← box_value (memberRoles st) callerKey;
  assert (role =? 1) "Caller is not admin".

Definition inviteMember (st : state) (sender : string) (groupId : Z)
    (user : string) : outcome state :=
  let callerKey := (groupId, sender) in
  _ ← assert_admin st callerKey;
  let userKey := (groupId, user) in
  let st := set_memberStatuses st (<[userKey := 1]> (memberStatuses st)) in
  let st := set_memberRoles st (<[userKey := 0]> (memberRoles st)) in
  Return st.

Definition acceptInvite (st : state) (sender : string) (groupId : Z)
  : outcome state :=
  let key := (groupId, sender) in
  _ ← assert (box_exists (memberStatuses st) key) "No invite found";
  status ← box_value (memberStatuses st) key;
  _ ← assert (status =? 1) "Not invited";
  Return (set_memberStatuses st (<[key := 2]> (memberStatuses st))).

Definition rejectInvite (st : state) (sender : string) (groupId : Z)
  : outcome state :=
  let key := (groupId, sender) in
  _ ← assert (box_exists (memberStatuses st) key) "No invite found";
  status ← box_value (memberStatuses st) key;
  _ ← assert (status =? 1) "Not invited";
  Return (set_memberStatuses st (<[key := 0]> (memberStatuses st))).

Definition removeMember (st : state) (sender : string) (groupId : Z)
    (user : string) : outcome state :=
  let callerKey := (groupId, sender) in
  _ ← assert_admin st callerKey;
  let userKey := (groupId, user) in
  Return (set_memberStatuses st (<[userKey := 0]> (memberStatuses st))).

Definition leaveGroup (st : state) (sender : string) (groupId : Z)
  : outcome state :=
  let key := (groupId, sender) in
  _ ← assert (box_exists (memberStatuses st) key) "Not a member";
  status ← box_value (memberStatuses st) key;
  _ ← assert (status =? 2) "Not joined";
  Return (set_memberStatuses st (<[key := 0]> (memberStatuses st))).

Definition getGroupName (st : state) (groupId : Z) : outcome string :=
  _ ← assert (box_exists (groupNames st) groupId) "Group does not exist";
  box_value (groupNames st) groupId.

Definition getGroupCreator (st : state) (groupId : Z) : outcome string :=
  _ ← assert (box_exists (groupCreators st) groupId) "Group does not exist";
  box_value (groupCreators st) groupId.

Definition getMemberStatus (st : state) (groupId : Z) (user : string) : Z :=
  default 0 (memberStatuses st !! (groupId, user)).

Definition getMemberRole (st : state) (groupId : Z) (user : string) : Z :=
  default 0 (memberRoles st !! (groupId, user)).

Definition isMember (st : state) (groupId : Z) (user : string) : bool :=
  match memberStatuses st !! (groupId, user) with
  | Some status => status =? 2
  | None => false
  end.

Definition isAdmin (st : state) (groupId : Z) (user : string) : bool :=
  match memberStatuses st !! (groupId, user), memberRoles st !! (groupId, user) with
  | Some status, Some role => (status =? 2) && (role =? 1)
  | _, _ => false
  end.

Definition getGroupCount (st : state) : Z := groupCount st.

(** The calls that change the state. *)
Inductive call : Type :=
  | CreateGroup (name : string)
  | InviteMember (groupId : Z) (user : string)
  | AcceptInvite (groupId : Z)
  | RejectInvite (groupId : Z)
  | RemoveMember (groupId : Z) (user : string)
  | LeaveGroup (groupId : Z).

Definition run (st : state) (sender : string) (c : call) : outcome state :=
  match c with
  | CreateGroup name => '(st, _) ← createGroup st sender name; Return st
  | InviteMember groupId user => inviteMember st sender groupId user
  | AcceptInvite groupId => acceptInvite st sender groupId
  | RejectInvite groupId => rejectInvite st sender groupId
  | RemoveMember groupId user => removeMember st sender groupId user
  | LeaveGroup groupId => leaveGroup st sender groupId
  end.

(** The state after a sequence of transactions; a failed one changes
    nothing. *)
Definition run_all (st : state) (txns : list (string * call)) : state :=
  fold_left
    (fun st t =>
       match run st (fst t) (snd t) with
       | Return st' => st'
       | Throw _ => st
       end)
    txns st.

End GroupRegistry.

(** * Verification *)


(** ** Exhaustive checks over bytes *)

Definition all_bytes : list Z := map Z.of_nat (seq 0 256).

Lemma all_bytes_spec (z : Z) : is_byte z = true -> In z all_bytes.
Proof.
  unfold is_byte. intros H. apply andb_prop in H as [H1 H2].
  apply Z.leb_le in H1. apply Z.ltb_lt in H2.
  unfold all_bytes. apply in_map_iff. exists (Z.to_nat z). split.
  - lia.
  - apply in_seq. lia.
Qed.

Lemma forall_byte (P : Z -> bool) :
  forallb P all_bytes = true -> forall z, is_byte z = true -> P z = true.
Proof.
  intros H z Hz. rewrite forallb_forall in H. apply H, all_bytes_spec, Hz.
Qed.

Lemma forall_byte2 (P : Z -> Z -> bool) :
  forallb (fun a => forallb (P a) all_bytes) all_bytes = true ->
  forall a b, is_byte a = true -> is_byte b = true -> P a b = true.
Proof.
  intros H a b Ha Hb.
  apply (forall_byte (P a)); [|exact Hb].
  apply (forall_byte (fun a => forallb (P a) all_bytes)); assumption.
Qed.

(** ** The tables are mutually inverse *)

Lemma tables_initialised :
  (Shamir.EXP_TABLE, Shamir.LOG_TABLE) = Shamir.initTables.
Proof. vm_compute. reflexivity. Qed.

Definition gexp (i : Z) : Z := to_int32 (u8_get Shamir.EXP_TABLE (Some i)).
Definition glog (a : Z) : Z := to_int32 (u8_get Shamir.LOG_TABLE (Some a)).

Definition exp_entry_ok (i : Z) : bool :=
  if i <? 255 then
    match u8_get Shamir.EXP_TABLE (Some i) with
    | Some e =>
        is_byte e && negb (e =? 0) &&
        match u8_get Shamir.LOG_TABLE (Some e) with
        | Some l => l =? i
        | None => false
        end
    | None => false
    end
  else true.

Definition log_entry_ok (a : Z) : bool :=
  if a =? 0 then true
  else
    match u8_get Shamir.LOG_TABLE (Some a) with
    | Some l =>
        (0 <=? l) && (l <? 255) &&
        match u8_get Shamir.EXP_TABLE (Some l) with
        | Some e => e =? a
        | None => false
        end
    | None => false
    end.

Lemma is_byte_range z : is_byte z = true <-> 0 <= z < 256.
Proof. unfold is_byte. rewrite andb_true_iff, Z.leb_le, Z.ltb_lt. tauto. Qed.

Lemma exp_entry i : 0 <= i < 255 ->
  u8_get Shamir.EXP_TABLE (Some i) = Some (gexp i) /\
  is_byte (gexp i) = true /\ gexp i <> 0 /\
  u8_get Shamir.LOG_TABLE (Some (gexp i)) = Some i.
Proof.
  intros Hi.
  assert (H : exp_entry_ok i = true).
  { apply forall_byte; [vm_compute; reflexivity | apply is_byte_range; lia]. }
  unfold exp_entry_ok, gexp in *.
  destruct (Z.ltb_spec i 255); [|lia].
  destruct (u8_get Shamir.EXP_TABLE (Some i)) as [e|]; [|discriminate].
  cbn [to_int32].
  destruct (u8_get Shamir.LOG_TABLE (Some e)) as [l|];
    [|rewrite andb_false_r in H; discriminate].
  apply andb_prop in H as [H Hl]. apply andb_prop in H as [Hb Hn].
  apply Z.eqb_eq in Hl. apply negb_true_iff, Z.eqb_neq in Hn. subst l.
  auto.
Qed.

Lemma log_entry a : 0 < a < 256 ->
  u8_get Shamir.LOG_TABLE (Some a) = Some (glog a) /\
  0 <= glog a < 255 /\ gexp (glog a) = a.
Proof.
  intros Ha.
  assert (H : log_entry_ok a = true).
  { apply forall_byte; [vm_compute; reflexivity | apply is_byte_range; lia]. }
  unfold log_entry_ok, glog, gexp in *.
  destruct (Z.eqb_spec a 0); [lia|].
  destruct (u8_get Shamir.LOG_TABLE (Some a)) as [l|]; [|discriminate].
  cbn [to_int32].
  destruct (u8_get Shamir.EXP_TABLE (Some l)) as [e|];
    [|rewrite andb_false_r in H; discriminate].
  apply andb_prop in H as [H He]. apply andb_prop in H as [H1 H2].
  apply Z.eqb_eq in He. apply Z.leb_le in H1. apply Z.ltb_lt in H2.
  cbn [to_int32]. auto with zarith.
Qed.

(** ** Field arithmetic on bytes *)

Definition gmul (a b : Z) : Z := to_int32 (Shamir.gfMul (Some a) (Some b)).

Lemma strict_eq0_Some a : strict_eq0 (Some a) = (a =? 0).
Proof. destruct a; reflexivity. Qed.

Lemma gfMul_nonzero a b : 0 < a < 256 -> 0 < b < 256 ->
  Shamir.gfMul (Some a) (Some b) = Some (gexp ((glog a + glog b) mod 255)).
Proof.
  intros Ha Hb. unfold Shamir.gfMul. rewrite !strict_eq0_Some.
  destruct (Z.eqb_spec a 0); [lia|]. destruct (Z.eqb_spec b 0); [lia|].
  cbn [orb].
  destruct (log_entry a Ha) as (-> & Hla & _).
  destruct (log_entry b Hb) as (-> & Hlb & _).
  cbn [js_add js_rem]. rewrite Z.rem_mod_nonneg by lia.
  apply exp_entry. apply Z.mod_pos_bound. lia.
Qed.

Lemma gfMul_zero_l b : Shamir.gfMul (Some 0) b = Some 0.
Proof. reflexivity. Qed.

Lemma gfMul_zero_r a : Shamir.gfMul a (Some 0) = Some 0.
Proof. unfold Shamir.gfMul. cbn. rewrite orb_true_r. reflexivity. Qed.

Lemma gmul_nonzero a b : 0 < a < 256 -> 0 < b < 256 ->
  gmul a b = gexp ((glog a + glog b) mod 255).
Proof. intros Ha Hb. unfold gmul. rewrite gfMul_nonzero by assumption. reflexivity. Qed.

Lemma gmul_0_l b : gmul 0 b = 0.
Proof. reflexivity. Qed.

Lemma gmul_0_r a : gmul a 0 = 0.
Proof. unfold gmul. rewrite gfMul_zero_r. reflexivity. Qed.

Lemma gmul_range a b : 0 <= a < 256 -> 0 <= b < 256 -> 0 <= gmul a b < 256.
Proof.
  intros Ha Hb.
  destruct (Z.eq_dec a 0) as [->|]; [rewrite gmul_0_l; lia|].
  destruct (Z.eq_dec b 0) as [->|]; [rewrite gmul_0_r; lia|].
  rewrite gmul_nonzero by lia.
  apply is_byte_range, exp_entry, Z.mod_pos_bound. lia.
Qed.

Lemma gfMul_gmul a b : 0 <= a < 256 -> 0 <= b < 256 ->
  Shamir.gfMul (Some a) (Some b) = Some (gmul a b).
Proof.
  intros Ha Hb.
  destruct (Z.eq_dec a 0) as [->|]; [reflexivity|].
  destruct (Z.eq_dec b 0) as [->|]; [rewrite gfMul_zero_r, gmul_0_r; reflexivity|].
  rewrite gmul_nonzero, gfMul_nonzero by lia. reflexivity.
Qed.

Lemma gmul_neq_0 a b : 0 < a < 256 -> 0 < b < 256 -> gmul a b <> 0.
Proof.
  intros Ha Hb. rewrite gmul_nonzero by lia.
  apply exp_entry, Z.mod_pos_bound. lia.
Qed.

Lemma glog_gexp i : 0 <= i < 255 -> glog (gexp i) = i.
Proof.
  intros Hi. unfold glog. destruct (exp_entry i Hi) as (_ & _ & _ & ->).
  reflexivity.
Qed.

Lemma gexp_pos i : 0 <= i < 255 -> 0 < gexp i < 256.
Proof.
  intros Hi. destruct (exp_entry i Hi) as (_ & Hb & Hn & _).
  apply is_byte_range in Hb. lia.
Qed.

Lemma gmul_comm a b : gmul a b = gmul b a.
Proof.
  unfold gmul, Shamir.gfMul. rewrite orb_comm.
  destruct (strict_eq0 (Some b) || strict_eq0 (Some a)); [reflexivity|].
  f_equal. f_equal. f_equal.
  destruct (u8_get Shamir.LOG_TABLE (Some a)), (u8_get Shamir.LOG_TABLE (Some b));
    cbn; try reflexivity. f_equal. lia.
Qed.

Lemma gmul_assoc a b c : 0 <= a < 256 -> 0 <= b < 256 -> 0 <= c < 256 ->
  gmul a (gmul b c) = gmul (gmul a b) c.
Proof.
  intros Ha Hb Hc.
  destruct (Z.eq_dec a 0) as [->|]; [reflexivity|].
  destruct (Z.eq_dec b 0) as [->|]; [rewrite gmul_0_l, !gmul_0_r; reflexivity|].
  destruct (Z.eq_dec c 0) as [->|]; [rewrite !gmul_0_r; reflexivity|].
  destruct (log_entry a ltac:(lia)) as (_ & Hla & _).
  destruct (log_entry b ltac:(lia)) as (_ & Hlb & _).
  destruct (log_entry c ltac:(lia)) as (_ & Hlc & _).
  rewrite (gmul_nonzero b c), (gmul_nonzero a b) by lia.
  assert (Hbc : 0 <= (glog b + glog c) mod 255 < 255) by (apply Z.mod_pos_bound; lia).
  assert (Hab : 0 <= (glog a + glog b) mod 255 < 255) by (apply Z.mod_pos_bound; lia).
  rewrite !gmul_nonzero by (try apply gexp_pos; lia).
  rewrite !glog_gexp by assumption.
  rewrite Z.add_mod_idemp_r, Z.add_mod_idemp_l by lia.
  rewrite Z.add_assoc. reflexivity.
Qed.

Lemma gmul_1_l a : 0 <= a < 256 -> gmul 1 a = a.
Proof.
  intros Ha.
  destruct (Z.eq_dec a 0) as [->|]; [reflexivity|].
  destruct (log_entry a ltac:(lia)) as (_ & Hla & He).
  rewrite gmul_nonzero by lia.
  change (glog 1) with 0. rewrite Z.add_0_l, Z.mod_small by lia. exact He.
Qed.

(** Division: the value [gfDiv] returns when it does not throw. *)
Definition gdiv (a b : Z) : Z :=
  match Shamir.gfDiv (Some a) (Some b) with
  | Return v => to_int32 v
  | Throw _ => 0
  end.

Definition ginv (b : Z) : Z := gdiv 1 b.

Lemma gfDiv_zero a : Shamir.gfDiv a (Some 0) = Throw "Division by zero in GF(256)".
Proof. reflexivity. Qed.

Lemma gfDiv_nonzero a b : 0 < a < 256 -> 0 < b < 256 ->
  Shamir.gfDiv (Some a) (Some b)
  = Return (Some (gexp ((glog a - glog b + 255) mod 255))).
Proof.
  intros Ha Hb. unfold Shamir.gfDiv. rewrite !strict_eq0_Some.
  destruct (Z.eqb_spec a 0); [lia|]. destruct (Z.eqb_spec b 0); [lia|].
  destruct (log_entry a Ha) as (-> & Hla & _).
  destruct (log_entry b Hb) as (-> & Hlb & _).
  cbn [js_add js_sub js_rem]. rewrite Z.rem_mod_nonneg by lia.
  f_equal. apply exp_entry. apply Z.mod_pos_bound. lia.
Qed.

Lemma gfDiv_zero_num b : 0 < b < 256 ->
  Shamir.gfDiv (Some 0) (Some b) = Return (Some 0).
Proof.
  intros Hb. unfold Shamir.gfDiv. rewrite !strict_eq0_Some.
  destruct (Z.eqb_spec b 0); [lia|]. reflexivity.
Qed.

Lemma gdiv_nonzero a b : 0 < a < 256 -> 0 < b < 256 ->
  gdiv a b = gexp ((glog a - glog b + 255) mod 255).
Proof. intros Ha Hb. unfold gdiv. rewrite gfDiv_nonzero by assumption. reflexivity. Qed.

Lemma gdiv_0_l b : 0 < b < 256 -> gdiv 0 b = 0.
Proof. intros Hb. unfold gdiv. rewrite gfDiv_zero_num by assumption. reflexivity. Qed.

Lemma gfDiv_gdiv a b : 0 <= a < 256 -> 0 < b < 256 ->
  Shamir.gfDiv (Some a) (Some b) = Return (Some (gdiv a b)).
Proof.
  intros Ha Hb. destruct (Z.eq_dec a 0) as [->|].
  - rewrite gdiv_0_l, gfDiv_zero_num by assumption. reflexivity.
  - rewrite gdiv_nonzero, gfDiv_nonzero by lia. reflexivity.
Qed.

Lemma ginv_pos b : 0 < b < 256 -> 0 < ginv b < 256.
Proof.
  intros Hb. unfold ginv. rewrite gdiv_nonzero by lia.
  apply gexp_pos, Z.mod_pos_bound. lia.
Qed.

Lemma gdiv_range a b : 0 <= a < 256 -> 0 < b < 256 -> 0 <= gdiv a b < 256.
Proof.
  intros Ha Hb. destruct (Z.eq_dec a 0) as [->|].
  - rewrite gdiv_0_l by assumption. lia.
  - rewrite gdiv_nonzero by lia.
    pose proof (gexp_pos ((glog a - glog b + 255) mod 255)
                  ltac:(apply Z.mod_pos_bound; lia)). lia.
Qed.

Lemma gdiv_gmul_ginv a b : 0 <= a < 256 -> 0 < b < 256 ->
  gdiv a b = gmul a (ginv b).
Proof.
  intros Ha Hb. destruct (Z.eq_dec a 0) as [->|].
  - rewrite gdiv_0_l by assumption. reflexivity.
  - destruct (log_entry a ltac:(lia)) as (_ & Hla & _).
    destruct (log_entry b ltac:(lia)) as (_ & Hlb & _).
    pose proof (ginv_pos b Hb) as Hi.
    rewrite gmul_nonzero by lia. rewrite gdiv_nonzero by lia.
    unfold ginv. rewrite (gdiv_nonzero 1 b) by lia.
    rewrite glog_gexp by (apply Z.mod_pos_bound; lia).
    change (glog 1) with 0.
    rewrite Z.add_mod_idemp_r by lia. f_equal. f_equal. lia.
Qed.

Lemma gmul_ginv_l b : 0 < b < 256 -> gmul (ginv b) b = 1.
Proof.
  intros Hb.
  destruct (log_entry b ltac:(lia)) as (_ & Hlb & _).
  pose proof (ginv_pos b Hb) as Hi.
  rewrite gmul_nonzero by lia.
  unfold ginv. rewrite (gdiv_nonzero 1 b) by lia.
  rewrite glog_gexp by (apply Z.mod_pos_bound; lia).
  change (glog 1) with 0.
  rewrite Z.add_mod_idemp_l by lia.
  replace (0 - glog b + 255 + glog b) with 255 by lia.
  reflexivity.
Qed.

(** ** Multiplication by its definition: polynomials over GF(2) modulo
    x^8 + x^4 + x^3 + x + 1

    A byte stands for the polynomial whose coefficient of [x^i] is its bit
    [i]. [clmul] is the product of two such polynomials (no carries) and
    [polymod] the remainder of a polynomial of degree at most 14 by
    [0x11B]. *)

Definition clmul (a b : Z) : Z :=
  fold_left
    (fun acc i => if Z.testbit b (Z.of_nat i)
                  then Z.lxor acc (Z.shiftl a (Z.of_nat i)) else acc)
    (seq 0 8) 0.

Definition polymod_step (x : Z) (i : Z) : Z :=
  if Z.testbit x i then Z.lxor x (Z.shiftl 283 (i - 8)) else x.

Definition polymod (x : Z) : Z :=
  fold_left polymod_step [14; 13; 12; 11; 10; 9; 8] x.

Definition gf256_mul (a b : Z) : Z := polymod (clmul a b).

(** The quotient of the division that [polymod] performs. *)
Definition polyquot (x : Z) : Z :=
  snd (fold_left
         (fun '(x, q) i =>
            if Z.testbit x i
            then (Z.lxor x (Z.shiftl 283 (i - 8)), Z.lor q (Z.shiftl 1 (i - 8)))
            else (x, q))
         [14; 13; 12; 11; 10; 9; 8] (x, 0)).

Definition gf256_mul_ok (a b : Z) : bool :=
  let x := clmul a b in
  (gmul a b =? polymod x) && (polymod x <? 256) && (polyquot x <? 128) &&
  (x =? Z.lxor (clmul 283 (polyquot x)) (polymod x)).

Lemma gf256_mul_checked a b : 0 <= a < 256 -> 0 <= b < 256 ->
  gf256_mul_ok a b = true.
Proof.
  intros Ha Hb.
  apply (forall_byte2 gf256_mul_ok);
    [vm_compute; reflexivity | apply is_byte_range; lia | apply is_byte_range; lia].
Qed.

Lemma gmul_gf256_mul a b : 0 <= a < 256 -> 0 <= b < 256 ->
  gmul a b = gf256_mul a b.
Proof.
  intros Ha Hb. pose proof (gf256_mul_checked a b Ha Hb) as H.
  unfold gf256_mul_ok in H. rewrite !andb_true_iff in H.
  destruct H as [[[H _] _] _]. apply Z.eqb_eq in H. exact H.
Qed.

(** [gf256_mul a b] is the remainder of the polynomial [clmul a b] by
    [0x11B]: it has degree below 8 and differs from the product by a
    multiple of [0x11B]. *)
Lemma gf256_mul_remainder a b : 0 <= a < 256 -> 0 <= b < 256 ->
  exists q, 0 <= q < 128 /\
    clmul a b = Z.lxor (clmul 283 q) (gf256_mul a b) /\
    0 <= gf256_mul a b < 256.
Proof.
  intros Ha Hb. pose proof (gf256_mul_checked a b Ha Hb) as H.
  unfold gf256_mul_ok in H. rewrite !andb_true_iff in H.
  destruct H as [[[Hm Hr] Hq] Hx].
  apply Z.eqb_eq in Hm, Hx. apply Z.ltb_lt in Hr, Hq.
  exists (polyquot (clmul a b)). unfold gf256_mul.
  pose proof (gmul_range a b Ha Hb) as Hg. rewrite Hm in Hg.
  split; [|split; [exact Hx | lia]].
  split; [|exact Hq].
  unfold polyquot.
  assert (G : forall l x q, 0 <= q ->
    0 <= snd (fold_left
         (fun '(x, q) i =>
            if Z.testbit x i
            then (Z.lxor x (Z.shiftl 283 (i - 8)), Z.lor q (Z.shiftl 1 (i - 8)))
            else (x, q)) l (x, q))).
  { induction l as [|i l IH]; intros x q Hq0; cbn [fold_left snd]; [exact Hq0|].
    destruct (Z.testbit x i); apply IH; [|exact Hq0].
    apply Z.lor_nonneg. split; [exact Hq0|]. apply Z.shiftl_nonneg. lia. }
  apply G. lia.
Qed.

Lemma polymod_step_lxor x y i :
  polymod_step (Z.lxor x y) i = Z.lxor (polymod_step x i) (polymod_step y i).
Proof.
  unfold polymod_step. rewrite Z.lxor_spec.
  set (m := Z.shiftl 283 (i - 8)).
  destruct (Z.testbit x i), (Z.testbit y i); cbn [xorb].
  - rewrite (Z.lxor_comm y m), Z.lxor_assoc, <- (Z.lxor_assoc m m y).
    rewrite Z.lxor_nilpotent, Z.lxor_0_l. reflexivity.
  - rewrite !Z.lxor_assoc. f_equal. apply Z.lxor_comm.
  - rewrite Z.lxor_assoc. reflexivity.
  - reflexivity.
Qed.

Lemma polymod_lxor x y : polymod (Z.lxor x y) = Z.lxor (polymod x) (polymod y).
Proof.
  unfold polymod. generalize [14; 13; 12; 11; 10; 9; 8]. intros l.
  revert x y. induction l as [|i l IH]; intros x y; cbn [fold_left].
  - reflexivity.
  - rewrite polymod_step_lxor. apply IH.
Qed.

Lemma clmul_lxor a b c : clmul a (Z.lxor b c) = Z.lxor (clmul a b) (clmul a c).
Proof.
  unfold clmul.
  assert (G : forall l u v,
    fold_left (fun acc i => if Z.testbit (Z.lxor b c) (Z.of_nat i)
                  then Z.lxor acc (Z.shiftl a (Z.of_nat i)) else acc) l (Z.lxor u v)
    = Z.lxor
        (fold_left (fun acc i => if Z.testbit b (Z.of_nat i)
                  then Z.lxor acc (Z.shiftl a (Z.of_nat i)) else acc) l u)
        (fold_left (fun acc i => if Z.testbit c (Z.of_nat i)
                  then Z.lxor acc (Z.shiftl a (Z.of_nat i)) else acc) l v)).
  { induction l as [|i l IH]; intros u v; cbn [fold_left]; [reflexivity|].
    rewrite Z.lxor_spec. set (m := Z.shiftl a (Z.of_nat i)).
    destruct (Z.testbit b (Z.of_nat i)), (Z.testbit c (Z.of_nat i)); cbn [xorb];
      rewrite <- IH; f_equal.
    - rewrite (Z.lxor_comm v m), Z.lxor_assoc, <- (Z.lxor_assoc m m v).
      rewrite Z.lxor_nilpotent, Z.lxor_0_l. reflexivity.
    - rewrite !Z.lxor_assoc. f_equal. apply Z.lxor_comm.
    - rewrite Z.lxor_assoc. reflexivity. }
  rewrite <- G. reflexivity.
Qed.

Lemma lxor_range a b : 0 <= a < 256 -> 0 <= b < 256 -> 0 <= Z.lxor a b < 256.
Proof.
  intros Ha Hb. split.
  - apply Z.lxor_nonneg. lia.
  - destruct (Z.eq_dec (Z.lxor a b) 0) as [->|Hn]; [lia|].
    apply (Z.log2_lt_pow2 _ 8); [pose proof (Z.lxor_nonneg a b); lia|].
    eapply Z.le_lt_trans; [apply Z.log2_lxor; lia|].
    destruct (Z.eq_dec a 0) as [->|]; destruct (Z.eq_dec b 0) as [->|];
      cbn [Z.log2]; try apply Z.max_lub_lt;
      try (apply Z.log2_lt_pow2; lia); lia.
Qed.

Lemma gmul_lxor_r a b c : 0 <= a < 256 -> 0 <= b < 256 -> 0 <= c < 256 ->
  gmul a (Z.lxor b c) = Z.lxor (gmul a b) (gmul a c).
Proof.
  intros Ha Hb Hc.
  rewrite !gmul_gf256_mul by (try apply lxor_range; lia).
  unfold gf256_mul. rewrite clmul_lxor. apply polymod_lxor.
Qed.

(** ** Lagrange interpolation at zero over a field of characteristic two

    The section is stated for an arbitrary field in which [x + x = 0];
    it is instantiated with GF(256) below. [horner] and [interp] follow
    the loops of [evaluatePolynomial] and [reconstructSecret]. *)

Section Interpolation.
Context {F : Type} `{EqDecision F}.
Variables (O I : F) (add mul sub : F -> F -> F) (opp : F -> F)
          (div : F -> F -> F) (inv : F -> F).
Hypothesis Fth : field_theory O I add mul sub opp div inv eq.
Hypothesis char2 : forall x, add x x = O.

Add Field Ffield : Fth.

Local Infix "+" := add.
Local Infix "*" := mul.
Local Infix "/" := div.

Definition prodl (l : list F) : F := fold_left mul l I.

Definition horner (cs : list F) (x : F) : F :=
  fold_left (fun r c => r * x + c) (rev cs) O.

Definition others (xs : list F) (x : F) : list F :=
  filter (fun y => y <> x) xs.

Definition basis (xs : list F) (x : F) : F :=
  prodl (others xs x) / prodl (add x <$> others xs x).

Definition interp (pts : list (F * F)) : F :=
  fold_left (fun r p => r + snd p * basis (fst <$> pts) (fst p)) pts O.

(** Sum of [f x * basis all x] over the points [x] of [l]. *)
Fixpoint isum (all l : list F) (f : F -> F) : F :=
  match l with
  | [] => O
  | x :: l => f x * basis all x + isum all l f
  end.

Lemma mul_eq_0 a b : a * b = O -> a = O \/ b = O.
Proof.
  intros H. destruct (decide (a = O)) as [|Ha]; [left; assumption|right].
  assert (E : b = inv a * (a * b)) by (field; assumption).
  rewrite E, H. ring.
Qed.

Lemma add_eq_0 a b : a + b = O -> a = b.
Proof.
  intros H. assert (E : a = (a + b) + b).
  { rewrite <- (Radd_assoc (F_R Fth) a b b), char2. ring. }
  rewrite E, H. ring.
Qed.

Lemma add_neq_0 a b : a <> b -> a + b <> O.
Proof. intros Hn H. apply Hn, add_eq_0, H. Qed.

Lemma fold_mul l a : fold_left mul l a = a * prodl l.
Proof.
  unfold prodl. revert a. induction l as [|x l IH]; intros a; cbn [fold_left].
  - ring.
  - rewrite IH, (IH (I * x)). ring.
Qed.

Lemma prodl_nil : prodl [] = I.
Proof. reflexivity. Qed.

Lemma prodl_cons x l : prodl (x :: l) = x * prodl l.
Proof. unfold prodl at 1. cbn [fold_left]. rewrite fold_mul. ring. Qed.

Lemma prodl_neq_0 l : Forall (fun x => x <> O) l -> prodl l <> O.
Proof.
  induction 1 as [|x l Hx _ IH].
  - rewrite prodl_nil. apply (F_1_neq_0 Fth).
  - rewrite prodl_cons. intros H. apply mul_eq_0 in H as [H|H]; tauto.
Qed.

Lemma basis_den_neq_0 xs x : prodl (add x <$> others xs x) <> O.
Proof.
  apply prodl_neq_0. apply Forall_fmap, Forall_forall. intros y Hy.
  apply list_elem_of_filter in Hy as [Hy _]. cbn.
  apply add_neq_0. congruence.
Qed.

Lemma horner_nil x : horner [] x = O.
Proof. reflexivity. Qed.

Lemma horner_cons c cs x : horner (c :: cs) x = horner cs x * x + c.
Proof. unfold horner. cbn [rev]. rewrite fold_left_app. reflexivity. Qed.

Lemma interp_isum xs f :
  interp ((fun x => (x, f x)) <$> xs) = isum xs xs f.
Proof.
  unfold interp.
  assert (E : fst <$> ((fun x => (x, f x)) <$> xs) = xs).
  { rewrite <- list_fmap_compose. apply list_fmap_id. }
  rewrite E. clear E. generalize xs at 1 3 as all. intros all.
  assert (G : forall l r,
    fold_left (fun r p => r + snd p * basis all (fst p))
      ((fun x => (x, f x)) <$> l) r = r + isum all l f).
  { induction l as [|x l IH]; intros r; cbn [fmap list_fmap fold_left isum].
    - ring.
    - rewrite IH. cbn [fst snd]. ring. }
  rewrite G. ring.
Qed.

Lemma isum_ext all l f g :
  (forall x, x ∈ l -> f x = g x) -> isum all l f = isum all l g.
Proof.
  induction l as [|x l IH]; intros H; cbn [isum]; [reflexivity|].
  rewrite (H x) by (left). rewrite IH; [reflexivity|].
  intros y Hy. apply H. right. exact Hy.
Qed.

Lemma isum_add all l f g :
  isum all l (fun x => f x + g x) = isum all l f + isum all l g.
Proof. induction l as [|x l IH]; cbn [isum]; [ring|rewrite IH; ring]. Qed.

Lemma isum_scale all l c f :
  isum all l (fun x => c * f x) = c * isum all l f.
Proof. induction l as [|x l IH]; cbn [isum]; [ring|rewrite IH; ring]. Qed.

Lemma isum_zero all l : isum all l (fun _ => O) = O.
Proof. induction l as [|x l IH]; cbn [isum]; [ring|rewrite IH; ring]. Qed.

(** Dropping the point [a] from the set multiplies every remaining basis
    value by [a / (x + a)]. *)
Lemma basis_cons a xs x : x <> a ->
  (x + a) * basis (a :: xs) x = a * basis xs x.
Proof.
  intros Hx. unfold basis, others.
  rewrite filter_cons_True by congruence.
  fold (others xs x). rewrite fmap_cons, !prodl_cons.
  pose proof (basis_den_neq_0 xs x) as HD.
  pose proof (add_neq_0 x a Hx) as Hxa.
  field. split; assumption.
Qed.

Lemma isum_drop a xs l h :
  a ∉ l ->
  isum (a :: xs) l (fun x => (x + a) * h x) = a * isum xs l h.
Proof.
  induction l as [|x l IH]; intros Ha; cbn [isum]; [ring|].
  apply not_elem_of_cons in Ha as [Hx Hl].
  rewrite IH by assumption.
  assert (E : (x + a) * h x * basis (a :: xs) x
              = h x * ((x + a) * basis (a :: xs) x)) by ring.
  rewrite E, basis_cons by congruence. ring.
Qed.

Lemma isum_drop_head a xs h :
  a ∉ xs ->
  isum (a :: xs) (a :: xs) (fun x => (x + a) * h x) = a * isum xs xs h.
Proof.
  intros Ha. cbn [isum]. rewrite isum_drop by assumption.
  rewrite char2. ring.
Qed.

Lemma basis_swap a b xs x : basis (a :: b :: xs) x = basis (b :: a :: xs) x.
Proof.
  unfold basis, others. rewrite !filter_cons.
  destruct (decide (a <> x)), (decide (b <> x)); try reflexivity.
  rewrite !fmap_cons, !prodl_cons.
  f_equal; ring.
Qed.

Lemma isum_swap a b xs f :
  isum (a :: b :: xs) (a :: b :: xs) f = isum (b :: a :: xs) (b :: a :: xs) f.
Proof.
  cbn [isum]. rewrite !(basis_swap a b).
  assert (E : isum (a :: b :: xs) xs f = isum (b :: a :: xs) xs f).
  { generalize xs at 2 4 as l. induction l as [|x l IH]; cbn [isum];
      [reflexivity|]. rewrite IH, basis_swap. reflexivity. }
  rewrite E. ring.
Qed.

(** The basis values at zero sum to one. *)
Lemma isum_one xs a : NoDup (a :: xs) ->
  isum (a :: xs) (a :: xs) (fun _ => I) = I.
Proof.
  revert a. induction xs as [|b xs IH]; intros a Hnd.
  - cbn [isum]. unfold basis, others. rewrite filter_cons_False by tauto.
    rewrite filter_nil. cbn [fmap list_fmap]. rewrite prodl_nil.
    field. apply (F_1_neq_0 Fth).
  - assert (Hab : a <> b).
    { apply NoDup_cons in Hnd as [Hn _]. intros ->. apply Hn. left. }
    assert (Hnd_b : NoDup (b :: xs)) by (eapply NoDup_cons_1_2; exact Hnd).
    assert (Hnd_a : NoDup (a :: xs)).
    { apply NoDup_cons in Hnd as [Hn Hnd]. apply NoDup_cons in Hnd as [_ Hnd].
      apply NoDup_cons. split; [|assumption].
      intros Hin. apply Hn. right. exact Hin. }
    pose proof (add_neq_0 a b Hab) as Hne.
    rewrite (isum_ext _ _ _
      (fun x => inv (a + b) * ((x + a) * I + (x + b) * I))).
    2:{ intros x _.
        assert (E : (x + a) * I + (x + b) * I = (x + x) + (a + b)) by ring.
        rewrite E, char2. field. assumption. }
    rewrite isum_scale, isum_add.
    rewrite isum_drop_head by (apply NoDup_cons_1_1; exact Hnd).
    rewrite (isum_swap a b), isum_drop_head.
    2:{ apply NoDup_cons in Hnd as [Hn Hnd]. apply NoDup_cons in Hnd as [Hb _].
        intros Hin. apply elem_of_cons in Hin as [->|Hin]; [tauto|tauto]. }
    rewrite (IH b Hnd_b), (IH a Hnd_a). field. assumption.
Qed.

(** Interpolating the values of a polynomial with at most as many
    coefficients as there are points gives its constant coefficient. *)
Theorem isum_horner cs : forall xs,
  NoDup xs -> (length cs <= length xs)%nat ->
  isum xs xs (horner cs) = hd O cs.
Proof.
  induction cs as [|c g IH]; intros xs Hnd Hlen.
  - rewrite (isum_ext _ _ _ (fun _ => O)) by (intros; apply horner_nil).
    apply isum_zero.
  - destruct xs as [|a xs]; [cbn in Hlen; lia|].
    cbn [length] in Hlen. cbn [hd].
    rewrite (isum_ext _ _ _
      (fun x => ((x + a) * horner g x + a * horner g x) + c * I)).
    2:{ intros x _. rewrite horner_cons.
        assert (E : (x + a) * horner g x + a * horner g x
                    = horner g x * x + (a * horner g x + a * horner g x))
          by ring.
        rewrite E, char2. ring. }
    rewrite !isum_add, !isum_scale.
    rewrite isum_drop_head by (apply NoDup_cons_1_1; exact Hnd).
    rewrite isum_one by assumption.
    rewrite (IH xs) by (try (eapply NoDup_cons_1_2; exact Hnd); lia).
    rewrite (IH (a :: xs)) by (try assumption; cbn [length]; lia).
    rewrite char2. ring.
Qed.

Corollary interp_horner cs xs :
  NoDup xs -> (length cs <= length xs)%nat ->
  interp ((fun x => (x, horner cs x)) <$> xs) = hd O cs.
Proof. intros Hnd Hlen. rewrite interp_isum. apply isum_horner; assumption. Qed.

(** The value of the polynomial with coefficients [cs] at [x], as the sum of
    the monomials [c_j * x^(j0 + j)]. *)
Fixpoint fpow (x : F) (j : nat) : F :=
  match j with
  | 0%nat => I
  | S j => x * fpow x j
  end.

Fixpoint psum (cs : list F) (x : F) (j0 : nat) : F :=
  match cs with
  | [] => O
  | c :: cs => c * fpow x j0 + psum cs x (S j0)
  end.

Lemma psum_shift cs x j0 : psum cs x (S j0) = x * psum cs x j0.
Proof.
  revert j0. induction cs as [|c cs IH]; intros j0; cbn [psum fpow]; [ring|].
  rewrite (IH (S j0)). ring.
Qed.

Lemma horner_psum cs x : horner cs x = psum cs x 0.
Proof.
  induction cs as [|c cs IH]; [reflexivity|].
  rewrite horner_cons, IH. cbn [psum fpow]. rewrite psum_shift. ring.
Qed.

End Interpolation.

(** ** The field GF(256) on bytes *)

Record GF : Type := mkGF { val : Z; val_ok : is_byte val = true }.

Lemma val_range (a : GF) : 0 <= val a < 256.
Proof. apply is_byte_range, val_ok. Qed.

Lemma GF_ext (a b : GF) : val a = val b -> a = b.
Proof.
  destruct a as [a Ha], b as [b Hb]. cbn. intros ->.
  f_equal. apply proof_irrel.
Qed.

#[global] Instance GF_eq_dec : EqDecision GF.
Proof.
  intros a b. destruct (decide (val a = val b)) as [E|E].
  - left. apply GF_ext, E.
  - right. intros ->. apply E. reflexivity.
Defined.

Lemma of_Z_ok (z : Z) : is_byte (z mod 256) = true.
Proof. apply is_byte_range, Z.mod_pos_bound. lia. Qed.

Definition of_Z (z : Z) : GF := mkGF (z mod 256) (of_Z_ok z).

Lemma val_of_Z z : 0 <= z < 256 -> val (of_Z z) = z.
Proof. intros H. cbn. apply Z.mod_small, H. Qed.

Lemma of_Z_val a : of_Z (val a) = a.
Proof. apply GF_ext, val_of_Z, val_range. Qed.

Definition fzero : GF := of_Z 0.
Definition fone : GF := of_Z 1.
Definition fadd (a b : GF) : GF := of_Z (Z.lxor (val a) (val b)).
Definition fmul (a b : GF) : GF := of_Z (gmul (val a) (val b)).
Definition fsub (a b : GF) : GF := fadd a b.
Definition fopp (a : GF) : GF := a.
Definition finv (a : GF) : GF := of_Z (ginv (val a)).
Definition fdiv (a b : GF) : GF := fmul a (finv b).

Lemma val_fadd a b : val (fadd a b) = Z.lxor (val a) (val b).
Proof. apply val_of_Z, lxor_range; apply val_range. Qed.

Lemma val_fmul a b : val (fmul a b) = gmul (val a) (val b).
Proof. apply val_of_Z, gmul_range; apply val_range. Qed.

Lemma val_neq_0 a : a <> fzero -> 0 < val a < 256.
Proof.
  intros H. pose proof (val_range a).
  destruct (Z.eq_dec (val a) 0) as [E|]; [|lia].
  exfalso. apply H, GF_ext. rewrite E. reflexivity.
Qed.

Lemma val_finv a : a <> fzero -> val (finv a) = ginv (val a).
Proof.
  intros H. apply val_of_Z. pose proof (ginv_pos (val a) (val_neq_0 a H)). lia.
Qed.

Lemma GF_field : field_theory fzero fone fadd fmul fsub fopp fdiv finv eq.
Proof.
  constructor; [constructor|..].
  - intros x. apply GF_ext. rewrite val_fadd. apply Z.lxor_0_l.
  - intros x y. apply GF_ext. rewrite !val_fadd. apply Z.lxor_comm.
  - intros x y z. apply GF_ext. rewrite !val_fadd. symmetry. apply Z.lxor_assoc.
  - intros x. apply GF_ext. rewrite val_fmul. apply gmul_1_l, val_range.
  - intros x y. apply GF_ext. rewrite !val_fmul. apply gmul_comm.
  - intros x y z. apply GF_ext. rewrite !val_fmul.
    apply gmul_assoc; apply val_range.
  - intros x y z. apply GF_ext. rewrite !val_fmul, !val_fadd, !val_fmul.
    rewrite (gmul_comm _ (val z)), gmul_lxor_r by apply val_range.
    rewrite !(gmul_comm (val z)). reflexivity.
  - reflexivity.
  - intros x. apply GF_ext. unfold fopp. rewrite val_fadd.
    apply Z.lxor_nilpotent.
  - discriminate.
  - reflexivity.
  - intros p Hp. apply GF_ext. rewrite val_fmul, val_finv by assumption.
    apply gmul_ginv_l, val_neq_0, Hp.
Qed.

Lemma GF_char2 (x : GF) : fadd x x = fzero.
Proof. apply GF_ext. rewrite val_fadd. apply Z.lxor_nilpotent. Qed.

(** The code's operations on bytes are the field's. *)

Lemma gfMul_val a b :
  Shamir.gfMul (Some (val a)) (Some (val b)) = Some (val (fmul a b)).
Proof. rewrite val_fmul. apply gfMul_gmul; apply val_range. Qed.

Lemma js_xor_val a b : js_xor (Some (val a)) (Some (val b)) = val (fadd a b).
Proof. rewrite val_fadd. reflexivity. Qed.

Lemma gfDiv_val a b : b <> fzero ->
  Shamir.gfDiv (Some (val a)) (Some (val b)) = Return (Some (val (fdiv a b))).
Proof.
  intros Hb. pose proof (val_neq_0 b Hb) as Hr.
  rewrite gfDiv_gdiv by (try apply val_range; assumption).
  unfold fdiv. rewrite val_fmul, val_finv by assumption.
  rewrite gdiv_gmul_ginv by (try apply val_range; assumption). reflexivity.
Qed.

Lemma gfDiv_val_zero a :
  Shamir.gfDiv a (Some (val fzero)) = Throw "Division by zero in GF(256)".
Proof. reflexivity. Qed.

(** ** Loops over indices *)

Lemma u8_get_nat (t : list Z) (i : nat) : u8_get t (Some (Z.of_nat i)) = t !! i.
Proof.
  unfold u8_get. destruct (Z.ltb_spec (Z.of_nat i) 0); [lia|].
  rewrite Nat2Z.id. reflexivity.
Qed.

Lemma fold_left_ext_in {A B} (f g : A -> B -> A) (l : list B) (a : A) :
  (forall a x, x ∈ l -> f a x = g a x) -> fold_left f l a = fold_left g l a.
Proof.
  revert a. induction l as [|x l IH]; intros a H; cbn [fold_left]; [reflexivity|].
  rewrite (H a x) by left. apply IH. intros a' y Hy. apply H. right. exact Hy.
Qed.

(** A downward loop that reads [l[i]] visits the elements of [rev l]. *)
Lemma fold_left_rev_index {A St} (g : St -> option A -> St) (l : list A) (a : St) :
  fold_left (fun r i => g r (l !! i)) (rev (seq 0 (length l))) a
  = fold_left (fun r c => g r (Some c)) (rev l) a.
Proof.
  revert a. induction l as [|c l IH] using rev_ind; intros a; [reflexivity|].
  rewrite length_app, Nat.add_comm. cbn [length Nat.add].
  rewrite seq_S, !rev_app_distr. cbn [rev app fold_left Nat.add].
  rewrite list_lookup_middle by reflexivity.
  rewrite <- IH. apply fold_left_ext_in. intros r i Hi.
  apply list_elem_of_In, in_rev, in_seq in Hi.
  rewrite lookup_app_l by lia. reflexivity.
Qed.

(** An upward loop that skips index [i] and reads [l[j]] visits the
    elements of [l] other than [l[i]], when [l] has no duplicates. *)
Lemma fold_left_skip_index {A St} `{EqDecision A}
    (h : St -> A -> St) (body : St -> nat -> St) (i : nat) (xi : A) :
  forall (l pre : list A) (a : St),
    NoDup (pre ++ l) -> (pre ++ l) !! i = Some xi ->
    (forall s j x, (pre ++ l) !! j = Some x ->
       body s j = if decide (i = j) then s else h s x) ->
    fold_left body (seq (length pre) (length l)) a
    = fold_left h (filter (fun y => y <> xi) l) a.
Proof.
  induction l as [|x l IH]; intros pre a Hnd Hi Hbody; [reflexivity|].
  cbn [length seq fold_left].
  assert (Hx : (pre ++ x :: l) !! length pre = Some x)
    by (apply list_lookup_middle; reflexivity).
  rewrite (Hbody a (length pre) x Hx).
  assert (E : pre ++ x :: l = (pre ++ [x]) ++ l) by (rewrite <- app_assoc; reflexivity).
  assert (El : S (length pre) = length (pre ++ [x]))
    by (rewrite length_app; cbn; lia).
  rewrite El. destruct (decide (i = length pre)) as [->|Hne].
  - assert (xi = x) by congruence. subst xi.
    rewrite filter_cons_False by tauto.
    apply IH; rewrite <- E; assumption.
  - assert (x <> xi).
    { intros ->. apply Hne. eapply NoDup_lookup; eassumption. }
    rewrite filter_cons_True by assumption. cbn [fold_left].
    apply IH; rewrite <- E; assumption.
Qed.

(** A loop over the indices of [l] whose body always returns. *)
Lemma for_each_index {A St} (g : St -> A -> St) (body : St -> nat -> outcome St) :
  forall (l pre : list A) (s : St),
    (forall s j x, (pre ++ l) !! j = Some x -> body s j = Return (g s x)) ->
    Shamir.for_each (seq (length pre) (length l)) body s
    = Return (fold_left g l s).
Proof.
  induction l as [|x l IH]; intros pre s Hbody; [reflexivity|].
  cbn [length seq Shamir.for_each fold_left].
  rewrite (Hbody s (length pre) x) by (apply list_lookup_middle; reflexivity).
  cbn [mbind outcome_bind].
  assert (El : S (length pre) = length (pre ++ [x]))
    by (rewrite length_app; cbn; lia).
  rewrite El. apply IH. intros s' j y Hj. apply Hbody.
  rewrite <- app_assoc in Hj. exact Hj.
Qed.

(** ** The code computes in the field *)

Definition gf_horner : list GF -> GF -> GF := horner fzero fadd fmul.
Definition gf_prodl : list GF -> GF := prodl fone fmul.
Definition gf_basis : list GF -> GF -> GF := basis fone fadd fmul fdiv.
Definition gf_interp : list (GF * GF) -> GF := interp fzero fone fadd fmul fdiv.

Lemma rev_fmap {A B} (f : A -> B) (l : list A) : rev (f <$> l) = f <$> rev l.
Proof.
  induction l as [|x l IH]; [reflexivity|].
  cbn [fmap list_fmap rev]. rewrite fmap_app. cbn [fmap list_fmap].
  f_equal. exact IH.
Qed.

Lemma evaluatePolynomial_val (cs : list GF) (x : GF) :
  Shamir.evaluatePolynomial (val <$> cs) (val x) = val (gf_horner cs x).
Proof.
  unfold Shamir.evaluatePolynomial, gf_horner, horner.
  rewrite (fold_left_ext_in _
    (fun r i => (fun r c => js_xor (Shamir.gfMul (Some r) (Some (val x))) c)
                  r ((val <$> cs) !! i))).
  2:{ intros r i _. rewrite u8_get_nat. reflexivity. }
  rewrite (fold_left_rev_index
    (fun r c => js_xor (Shamir.gfMul (Some r) (Some (val x))) c)).
  rewrite rev_fmap.
  change 0 with (val fzero) at 1. generalize fzero as r. generalize (rev cs) as l.
  induction l as [|c l IH]; intros r; [reflexivity|].
  cbn [fmap list_fmap fold_left]. rewrite gfMul_val, js_xor_val. apply IH.
Qed.

Lemma lagrange_terms_val (fxs : list GF) (i : nat) (xi : GF) :
  NoDup fxs -> fxs !! i = Some xi ->
  Shamir.lagrange_terms ((fun x => Some (val x)) <$> fxs) i
  = (Some (val (gf_prodl (others fxs xi))),
     Some (val (gf_prodl (fadd xi <$> others fxs xi)))).
Proof.
  intros Hnd Hi. unfold Shamir.lagrange_terms. rewrite length_fmap.
  rewrite (fold_left_skip_index
    (fun '(numerator, denominator) x =>
       (Shamir.gfMul numerator (Some (val x)),
        Shamir.gfMul denominator (Some (val (fadd xi x)))))
    _ i xi fxs [] (Some 1, Some 1) Hnd Hi).
  2:{ intros [n d] j x Hj. cbn [app] in Hj.
      destruct (decide (i = j)); [reflexivity|].
      unfold Shamir.arr_get. rewrite !list_lookup_fmap, Hj, Hi. cbn.
      rewrite js_xor_val. reflexivity. }
  fold (others fxs xi). unfold gf_prodl, prodl.
  change (Some 1) with (Some (val fone)).
  generalize fone at 1 3 as n. generalize fone as d.
  generalize (others fxs xi) as l.
  induction l as [|x l IH]; intros d n; [reflexivity|].
  cbn [fold_left fmap list_fmap]. rewrite !gfMul_val. apply IH.
Qed.

Lemma lagrange_coeff_val (fxs : list GF) (i : nat) (xi : GF) :
  NoDup fxs -> fxs !! i = Some xi ->
  (let '(numerator, denominator) :=
     Shamir.lagrange_terms ((fun x => Some (val x)) <$> fxs) i in
   Shamir.gfDiv numerator denominator)
  = Return (Some (val (gf_basis fxs xi))).
Proof.
  intros Hnd Hi. rewrite (lagrange_terms_val fxs i xi Hnd Hi).
  rewrite gfDiv_val; [reflexivity|].
  unfold gf_prodl. apply (basis_den_neq_0 _ _ _ _ _ _ _ _ GF_field GF_char2).
Qed.

(** The outer loop of [reconstructSecret] fills the result array from left
    to right. *)
Lemma for_each_fill (L : nat) (body : nat -> outcome Z) (f : nat -> Z) :
  (forall b, (b < L)%nat -> body b = Return (f b)) ->
  (forall b, (b < L)%nat -> 0 <= f b < 256) ->
  Shamir.for_each (seq 0 L)
    (fun secret b => r ← body b; Return (u8_set secret b r)) (u8_new L)
  = Return (f <$> seq 0 L).
Proof.
  intros Hbody Hf.
  assert (G : forall n s, (s + n = L)%nat ->
    Shamir.for_each (seq s n)
      (fun secret b => r ← body b; Return (u8_set secret b r))
      ((f <$> seq 0 s) ++ replicate n 0)
    = Return (f <$> seq 0 L)).
  { induction n as [|n IH]; intros s Hs.
    - cbn [seq Shamir.for_each replicate]. rewrite app_nil_r.
      replace s with L by lia. reflexivity.
    - cbn [seq Shamir.for_each]. rewrite Hbody by lia.
      cbn [mbind outcome_bind]. unfold u8_set.
      rewrite insert_app_r_alt by (rewrite length_fmap, length_seq; lia).
      rewrite length_fmap, length_seq, Nat.sub_diag. cbn [replicate].
      change (<[0%nat := f s mod 256]> (0 :: replicate n 0))
        with ([f s mod 256] ++ replicate n 0).
      rewrite Z.mod_small by (apply Hf; lia).
      rewrite app_assoc.
      replace ((f <$> seq 0 s) ++ [f s]) with (f <$> seq 0 (S s))
        by (rewrite seq_S, fmap_app; reflexivity).
      apply IH. lia. }
  apply (G L 0%nat). lia.
Qed.

Lemma fold_lxor_val (Y : GF -> GF) (all l : list GF) (r0 : GF) :
  fold_left (fun r x => Z.lxor r (val (fmul (Y x) (gf_basis all x)))) l (val r0)
  = val (fold_left
           (fun r p => fadd r (fmul (snd p) (gf_basis all (fst p))))
           ((fun x => (x, Y x)) <$> l) r0).
Proof.
  revert r0. induction l as [|x l IH]; intros r0; [reflexivity|].
  cbn [fold_left fmap list_fmap fst snd].
  rewrite <- val_fadd. apply IH.
Qed.

(** [reconstructSecret] on shares with distinct x-coordinates: byte [b] of
    the result is the interpolation at zero of the points [(x, Y b x)]. *)
Lemma reconstructSecret_val (fxs : list GF) (L : nat) (Y : nat -> GF -> GF) :
  NoDup fxs -> (2 <= length fxs)%nat ->
  Shamir.reconstructSecret
    ((fun x => val x :: ((fun b => val (Y b x)) <$> seq 0 L)) <$> fxs)
  = Return ((fun b => val (gf_interp ((fun x => (x, Y b x)) <$> fxs)))
              <$> seq 0 L).
Proof.
  intros Hnd Hlen. unfold Shamir.reconstructSecret.
  rewrite length_fmap.
  destruct (Nat.ltb_spec (length fxs) 2); [lia|].
  destruct fxs as [|x0 fxs']; [cbn in Hlen; lia|].
  set (fxs := x0 :: fxs') in *.
  assert (E0 : from_option id []
    (((fun x => val x :: ((fun b => val (Y b x)) <$> seq 0 L)) <$> fxs) !! 0%nat)
    = val x0 :: ((fun b => val (Y b x0)) <$> seq 0 L)) by reflexivity.
  rewrite E0. cbn [length]. rewrite length_fmap, length_seq.
  replace (Z.of_nat (S L) - 1) with (Z.of_nat L) by lia.
  destruct (Z.ltb_spec (Z.of_nat L) 0); [lia|].
  rewrite Nat2Z.id.
  assert (Exs : (fun s => u8_get s (Some 0)) <$>
      ((fun x => val x :: ((fun b => val (Y b x)) <$> seq 0 L)) <$> fxs)
      = (fun x => Some (val x)) <$> fxs).
  { rewrite <- list_fmap_compose. apply list_fmap_ext. intros; reflexivity. }
  rewrite Exs.
  apply (for_each_fill L _
           (fun b => val (gf_interp ((fun x => (x, Y b x)) <$> fxs)))).
  2:{ intros b _. apply val_range. }
  intros b Hb.
  rewrite <- (length_fmap
    (fun x => val x :: ((fun b => val (Y b x)) <$> seq 0 L)) fxs) at 1.
  rewrite length_fmap.
  rewrite (for_each_index
    (fun r x => Z.lxor r (val (fmul (Y b x) (gf_basis fxs x))))
    _ fxs [] 0).
  - f_equal. change 0 with (val fzero). rewrite fold_lxor_val.
    unfold gf_interp, interp. f_equal.
    rewrite <- list_fmap_compose.
    assert (E : fst ∘ (fun x => (x, Y b x)) <$> fxs = fxs) by apply list_fmap_id.
    rewrite E. reflexivity.
  - intros r j x Hj. cbn [app] in Hj.
    rewrite (lagrange_terms_val fxs j x Hnd Hj).
    rewrite gfDiv_val.
    2:{ unfold gf_prodl.
        apply (basis_den_neq_0 _ _ _ _ _ _ _ _ GF_field GF_char2). }
    cbn [mbind outcome_bind].
    rewrite list_lookup_fmap, Hj. cbn [fmap option_fmap option_map from_option id].
    replace (Z.of_nat b + 1) with (Z.of_nat (S b)) by lia.
    rewrite u8_get_nat, lookup_cons_ne_0 by lia. cbn [Nat.pred].
    rewrite list_lookup_fmap, lookup_seq_lt by assumption.
    cbn [fmap option_fmap option_map Nat.add].
    rewrite gfMul_val. reflexivity.
Qed.

(** ** What [splitSecret] returns *)

(** The coefficient array built for byte [b] of the secret when the random
    source stands at [cur] on entry: the secret byte, then the next [k - 1]
    random bytes. *)
Definition coefficients_of (src : entropy) (cur : nat)
    (secret : list Z) (k : Z) (b : nat) : list Z :=
  (to_int32 (u8_get secret (Some (Z.of_nat b))) mod 256)
  :: ((fun t => src t mod 256)
        <$> seq (cur + b * (Z.to_nat k - 1)) (Z.to_nat k - 1)).

(** Share [i] once the bytes below [b] are filled in. *)
Definition share_upto (src : entropy) (cur : nat) (secret : list Z)
    (k : Z) (b i : nat) : list Z :=
  (Z.of_nat i + 1)
  :: ((fun b' => Shamir.evaluatePolynomial
                   (coefficients_of src cur secret k b') (Z.of_nat i + 1)
                 mod 256) <$> seq 0 b)
     ++ replicate (length secret - b) 0.

Lemma init_shares (L m : nat) : (m <= 255)%nat ->
  fold_left
    (fun shares i =>
       let shares := shares ++ [u8_new (L + 1)] in
       Shamir.set_cell shares i 0 (Z.of_nat i + 1))
    (seq 0 m) []
  = (fun i => (Z.of_nat i + 1) :: replicate L 0) <$> seq 0 m.
Proof.
  induction m as [|m IH]; intros Hm; [reflexivity|].
  rewrite seq_S, fold_left_app, IH by lia. cbn [fold_left Nat.add].
  unfold Shamir.set_cell.
  rewrite alter_app_r_alt by (rewrite length_fmap, length_seq; lia).
  rewrite length_fmap, length_seq, Nat.sub_diag, fmap_app.
  f_equal. cbn [fmap list_fmap alter list_alter].
  unfold u8_set, u8_new. rewrite Nat.add_1_r. cbn [replicate].
  rewrite Z.mod_small by lia. reflexivity.
Qed.

Lemma set_cells_lookup (j : nat) (v : nat -> Z) (m : nat)
    (shares : list (list Z)) (i : nat) :
  fold_left (fun sh i => Shamir.set_cell sh i j (v i)) (seq 0 m) shares !! i
  = if decide (i < m)%nat
    then (fun s => u8_set s j (v i)) <$> shares !! i
    else shares !! i.
Proof.
  induction m as [|m IH].
  - cbn [seq fold_left]. destruct (decide (i < 0)%nat); [lia|reflexivity].
  - rewrite seq_S, fold_left_app. cbn [fold_left Nat.add].
    unfold Shamir.set_cell at 1. rewrite list_lookup_alter.
    destruct (decide (m = i)) as [->|Hne].
    + rewrite IH. destruct (decide (i < i)%nat); [lia|].
      destruct (decide (i < S i)%nat); [reflexivity|lia].
    + rewrite IH. destruct (decide (i < m)%nat), (decide (i < S m)%nat);
        try reflexivity; lia.
Qed.

Lemma splitSecret_loop (src : entropy) (cur : nat) (secret : list Z)
    (n k : Z) (b : nat) :
  2 <= k -> (b <= length secret)%nat ->
  fold_left
    (fun '(shares, cur) byteIdx =>
       let coefficients := u8_new (Z.to_nat k) in
       let coefficients :=
         u8_set coefficients 0
           (to_int32 (u8_get secret (Some (Z.of_nat byteIdx)))) in
       let '(coefficients, cur) :=
         getRandomValues src cur coefficients 1 in
       (fold_left
          (fun shares i =>
             Shamir.set_cell shares i (byteIdx + 1)
               (Shamir.evaluatePolynomial coefficients (Z.of_nat i + 1)))
          (seq 0 (Z.to_nat n)) shares,
        cur))
    (seq 0 b)
    (share_upto src cur secret k 0 <$> seq 0 (Z.to_nat n), cur)
  = (share_upto src cur secret k b <$> seq 0 (Z.to_nat n),
     (cur + b * (Z.to_nat k - 1))%nat).
Proof.
  intros Hk. induction b as [|b IH]; intros Hb.
  - cbn [seq fold_left]. f_equal. lia.
  - rewrite seq_S, fold_left_app, IH by lia. cbn [fold_left Nat.add].
    assert (Ek : exists k', Z.to_nat k = S k') by (exists (Z.to_nat k - 1)%nat; lia).
    destruct Ek as [k' Ek].
    assert (Ecoef : getRandomValues src (cur + b * (Z.to_nat k - 1))
        (u8_set (u8_new (Z.to_nat k)) 0
           (to_int32 (u8_get secret (Some (Z.of_nat b))))) 1
      = (coefficients_of src cur secret k b,
         (cur + S b * (Z.to_nat k - 1))%nat)).
    { unfold getRandomValues, coefficients_of, u8_set, u8_new.
      rewrite length_insert, length_replicate, Ek. cbn [replicate].
      f_equal. lia. }
    rewrite Ecoef. f_equal.
    apply list_eq. intros i. rewrite set_cells_lookup, !list_lookup_fmap.
    destruct (decide (i < Z.to_nat n)%nat) as [Hi|Hi].
    + rewrite lookup_seq_lt by assumption.
      cbn [fmap option_fmap option_map Nat.add]. f_equal.
      unfold share_upto, u8_set. rewrite Nat.add_1_r.
      change (<[S b := ?v]> (?x :: ?l)) with (x :: <[b := v]> l).
      f_equal.
      rewrite insert_app_r_alt by (rewrite length_fmap, length_seq; lia).
      rewrite length_fmap, length_seq, Nat.sub_diag.
      replace (length secret - b)%nat with (S (length secret - S b)) by lia.
      cbn [replicate]. rewrite seq_S, fmap_app, <- app_assoc. reflexivity.
    + rewrite lookup_seq_ge by lia. reflexivity.
Qed.

Lemma splitSecret_spec (src : entropy) (cur : nat) (secret : list Z)
    (n k : Z) :
  2 <= k <= n -> n <= 255 ->
  Shamir.splitSecret src cur secret n k
  = Return (share_upto src cur secret k (length secret) <$> seq 0 (Z.to_nat n),
            (cur + length secret * (Z.to_nat k - 1))%nat).
Proof.
  intros Hk Hn. unfold Shamir.splitSecret.
  destruct (Z.ltb_spec n k); [lia|].
  destruct (Z.ltb_spec k 2); [lia|].
  destruct (Z.ltb_spec 255 n); [lia|].
  f_equal. rewrite init_shares by lia.
  rewrite <- (splitSecret_loop src cur secret n k (length secret)) by lia.
  f_equal. f_equal. apply list_fmap_ext. intros _ i _.
  unfold share_upto. cbn [seq fmap list_fmap app]. rewrite Nat.sub_0_r.
  reflexivity.
Qed.

Definition gf_coefficients (src : entropy) (cur : nat)
    (secret : list Z) (k : Z) (b : nat) : list GF :=
  of_Z <$> coefficients_of src cur secret k b.

Lemma coefficients_of_val src cur secret k b :
  coefficients_of src cur secret k b = val <$> gf_coefficients src cur secret k b.
Proof.
  unfold gf_coefficients, coefficients_of. cbn [fmap list_fmap].
  f_equal.
  - cbn [val of_Z]. rewrite Z.mod_mod by lia. reflexivity.
  - change (list_fmap ?A ?B ?f ?l) with (f <$> l).
    rewrite <- !list_fmap_compose. apply list_fmap_ext. intros _ t _.
    cbn. rewrite Z.mod_mod by lia. reflexivity.
Qed.

Lemma length_coefficients_of src cur secret k b :
  2 <= k -> length (coefficients_of src cur secret k b) = Z.to_nat k.
Proof.
  intros Hk. unfold coefficients_of. cbn [length].
  rewrite length_fmap, length_seq. lia.
Qed.

Lemma share_upto_val src cur secret k i :
  (i < 255)%nat ->
  share_upto src cur secret k (length secret) i
  = val (of_Z (Z.of_nat i + 1))
    :: ((fun b => val (gf_horner (gf_coefficients src cur secret k b)
                         (of_Z (Z.of_nat i + 1))))
          <$> seq 0 (length secret)).
Proof.
  intros Hi. unfold share_upto.
  rewrite Nat.sub_diag. cbn [replicate]. rewrite app_nil_r.
  assert (Ex : val (of_Z (Z.of_nat i + 1)) = Z.of_nat i + 1)
    by (apply val_of_Z; lia).
  rewrite Ex. f_equal. apply list_fmap_ext. intros _ b _.
  rewrite coefficients_of_val. rewrite <- Ex at 1.
  rewrite evaluatePolynomial_val. apply Z.mod_small, val_range.
Qed.

(** The sub-list of [shares] picked by the indices [idx], in that order. *)
Definition pick (shares : list (list Z)) (idx : list nat) : list (list Z) :=
  (fun i => from_option id [] (shares !! i)) <$> idx.

Lemma reconstruct_split (src : entropy) (cur : nat) (secret : list Z)
    (n k : Z) (idx : list nat) :
  Forall (fun z => is_byte z = true) secret ->
  2 <= k <= n -> n <= 255 ->
  NoDup idx -> (Z.to_nat k <= length idx)%nat ->
  Forall (fun i => (i < Z.to_nat n)%nat) idx ->
  Shamir.reconstructSecret
    (pick (share_upto src cur secret k (length secret) <$> seq 0 (Z.to_nat n))
          idx)
  = Return secret.
Proof.
  intros Hsec Hk Hn Hnd Hlen Hidx.
  set (fxs := (fun i => of_Z (Z.of_nat i + 1)) <$> idx).
  assert (Epick :
    pick (share_upto src cur secret k (length secret) <$> seq 0 (Z.to_nat n)) idx
    = (fun x => val x ::
         ((fun b => val ((fun b x => gf_horner (gf_coefficients src cur secret k b) x) b x))
            <$> seq 0 (length secret))) <$> fxs).
  { unfold pick, fxs. rewrite <- list_fmap_compose. apply list_fmap_ext.
    intros j i Hj. cbn.
    assert (Hi : (i < Z.to_nat n)%nat) by exact (Forall_lookup_1 _ idx j i Hidx Hj).
    rewrite list_lookup_fmap, lookup_seq_lt by assumption.
    cbn [fmap option_fmap option_map from_option id Nat.add].
    apply share_upto_val. lia. }
  rewrite Epick.
  assert (Hfnd : NoDup fxs).
  { apply NoDup_fmap_2_strong; [|assumption].
    intros i j Hi Hj E.
    rewrite Forall_forall in Hidx.
    pose proof (Hidx i Hi). pose proof (Hidx j Hj).
    apply (f_equal val) in E. rewrite !val_of_Z in E by lia. lia. }
  rewrite reconstructSecret_val
    by (try assumption; unfold fxs; rewrite length_fmap; lia).
  f_equal. apply list_eq. intros b.
  rewrite list_lookup_fmap.
  destruct (decide (b < length secret)%nat) as [Hb|Hb].
  - rewrite lookup_seq_lt by assumption.
    cbn [fmap option_fmap option_map Nat.add].
    unfold gf_interp, gf_horner.
    rewrite (interp_horner _ _ _ _ _ _ _ _ GF_field GF_char2).
    + destruct (lookup_lt_is_Some_2 secret b Hb) as [s Hs].
      rewrite Hs. f_equal.
      unfold gf_coefficients, coefficients_of. cbn [fmap list_fmap hd].
      rewrite u8_get_nat, Hs. cbn [to_int32 val of_Z].
      rewrite Z.mod_mod by lia. apply Z.mod_small, is_byte_range.
      exact (Forall_lookup_1 _ secret b s Hsec Hs).
    + assumption.
    + unfold gf_coefficients, fxs.
      rewrite !length_fmap, length_coefficients_of; lia.
  - rewrite lookup_seq_ge by lia. cbn.
    symmetry. apply lookup_ge_None. lia.
Qed.

Definition gf_psum : list GF -> GF -> nat -> GF := psum fzero fone fadd fmul.

Lemma gmul_gdiv_cancel a b : 0 <= a < 256 -> 0 < b < 256 ->
  gmul (gdiv a b) b = a.
Proof.
  intros Ha Hb. pose proof (ginv_pos b Hb) as Hi.
  rewrite gdiv_gmul_ginv by assumption.
  rewrite <- gmul_assoc by lia.
  rewrite gmul_ginv_l by assumption.
  rewrite gmul_comm. apply gmul_1_l, Ha.
Qed.

Lemma gmul_cancel_r c b : 0 <= c < 256 -> 0 < b < 256 ->
  gdiv (gmul c b) b = c.
Proof.
  intros Hc Hb. pose proof (ginv_pos b Hb) as Hi.
  rewrite gdiv_gmul_ginv by (try apply gmul_range; lia).
  rewrite <- gmul_assoc by lia.
  rewrite (gmul_comm b), gmul_ginv_l by assumption.
  rewrite gmul_comm. apply gmul_1_l, Hc.
Qed.

(** * The claims *)

(** ** Finite-field engine *)

(** C2. On bytes, [gfMul] is the product of GF(2^8) modulo
    x^8 + x^4 + x^3 + x + 1: the carry-less product of the operands reduced
    modulo 0x11B. It is 0 when an operand is 0 and
    [EXP_TABLE[(LOG_TABLE[a] + LOG_TABLE[b]) mod 255]] otherwise. [gfDiv]
    throws exactly when the divisor is 0, returns 0 for a zero dividend and
    [EXP_TABLE[(LOG_TABLE[a] - LOG_TABLE[b] + 255) mod 255]] otherwise, and
    its result is the only byte [c] with [gfMul c b = a]. *)
Theorem C2_gf256_arithmetic (a b : Z) :
  0 <= a < 256 -> 0 <= b < 256 ->
  Shamir.gfMul (Some a) (Some b) = Some (gf256_mul a b) /\
  (exists q, 0 <= q < 128 /\
     clmul a b = Z.lxor (clmul 283 q) (gf256_mul a b) /\
     0 <= gf256_mul a b < 256) /\
  (a = 0 \/ b = 0 -> Shamir.gfMul (Some a) (Some b) = Some 0) /\
  (a <> 0 -> b <> 0 ->
     exists la lb e,
       Shamir.LOG_TABLE !! Z.to_nat a = Some la /\
       Shamir.LOG_TABLE !! Z.to_nat b = Some lb /\
       Shamir.EXP_TABLE !! Z.to_nat ((la + lb) mod 255) = Some e /\
       Shamir.gfMul (Some a) (Some b) = Some e) /\
  ((exists msg, Shamir.gfDiv (Some a) (Some b) = Throw msg) <-> b = 0) /\
  (b <> 0 -> a = 0 -> Shamir.gfDiv (Some a) (Some b) = Return (Some 0)) /\
  (b <> 0 -> a <> 0 ->
     exists la lb e,
       Shamir.LOG_TABLE !! Z.to_nat a = Some la /\
       Shamir.LOG_TABLE !! Z.to_nat b = Some lb /\
       Shamir.EXP_TABLE !! Z.to_nat ((la - lb + 255) mod 255) = Some e /\
       Shamir.gfDiv (Some a) (Some b) = Return (Some e)) /\
  (b <> 0 ->
     exists c, Shamir.gfDiv (Some a) (Some b) = Return (Some c) /\
       0 <= c < 256 /\
       Shamir.gfMul (Some c) (Some b) = Some a /\
       forall c', 0 <= c' < 256 ->
         Shamir.gfMul (Some c') (Some b) = Some a -> c' = c).
Proof.
  intros Ha Hb.
  assert (Hlog : forall z, 0 < z < 256 ->
    Shamir.LOG_TABLE !! Z.to_nat z = Some (glog z) /\ 0 <= glog z < 255).
  { intros z Hz. destruct (log_entry z Hz) as (E & Hr & _).
    unfold u8_get in E. destruct (Z.ltb_spec z 0); [lia|]. auto. }
  assert (Hexp : forall i, 0 <= i < 255 ->
    Shamir.EXP_TABLE !! Z.to_nat i = Some (gexp i)).
  { intros i Hi. destruct (exp_entry i Hi) as (E & _).
    unfold u8_get in E. destruct (Z.ltb_spec i 0); [lia|]. exact E. }
  repeat apply conj.
  - rewrite gfMul_gmul, gmul_gf256_mul by assumption. reflexivity.
  - apply gf256_mul_remainder; assumption.
  - intros [-> | ->]; [apply gfMul_zero_l | apply gfMul_zero_r].
  - intros Hna Hnb.
    destruct (Hlog a ltac:(lia)) as [Ea Hla].
    destruct (Hlog b ltac:(lia)) as [Eb Hlb].
    exists (glog a), (glog b), (gexp ((glog a + glog b) mod 255)).
    repeat apply conj; try assumption.
    + apply Hexp, Z.mod_pos_bound. lia.
    + apply gfMul_nonzero; lia.
  - intros [msg H]. destruct (Z.eq_dec b 0) as [|Hnb]; [assumption|].
    rewrite gfDiv_gdiv in H by lia. discriminate.
  - intros ->. eexists. reflexivity.
  - intros Hnb ->. apply gfDiv_zero_num. lia.
  - intros Hnb Hna.
    destruct (Hlog a ltac:(lia)) as [Ea Hla].
    destruct (Hlog b ltac:(lia)) as [Eb Hlb].
    exists (glog a), (glog b), (gexp ((glog a - glog b + 255) mod 255)).
    repeat apply conj; try assumption.
    + apply Hexp, Z.mod_pos_bound. lia.
    + apply gfDiv_nonzero; lia.
  - intros Hnb. exists (gdiv a b).
    pose proof (gdiv_range a b Ha ltac:(lia)) as Hc.
    repeat apply conj; try lia.
    + apply gfDiv_gdiv; lia.
    + rewrite gfMul_gmul by lia. f_equal. apply gmul_gdiv_cancel; lia.
    + intros c' Hc' E. rewrite gfMul_gmul in E by lia.
      injection E as E. rewrite <- E. symmetry. apply gmul_cancel_r; lia.
Qed.

Lemma C2_gf256_arithmetic_witness :
  (0 <= 87 < 256 /\ 0 <= 131 < 256) /\
  Shamir.gfMul (Some 87) (Some 131) = Some (gf256_mul 87 131).
Proof.
  split; [lia|].
  apply (C2_gf256_arithmetic 87 131); lia.
Defined.

(** ** Secret splitter *)

(** C8. [splitSecret] throws exactly when [2 <= k <= n <= 255] fails (with
    the message of the first violated check), and returns for every secret
    when it holds. *)
Theorem C8_splitSecret_threshold_check (src : entropy) (cur : nat)
    (secret : list Z) (n k : Z) :
  ((exists msg, Shamir.splitSecret src cur secret n k = Throw msg)
   <-> (k < 2 \/ n < k \/ 255 < n)) /\
  ((exists r, Shamir.splitSecret src cur secret n k = Return r)
   <-> 2 <= k <= n /\ n <= 255) /\
  (n < k ->
   Shamir.splitSecret src cur secret n k
   = Throw "Threshold must be <= number of shares") /\
  (k <= n -> k < 2 ->
   Shamir.splitSecret src cur secret n k = Throw "Threshold must be >= 2") /\
  (2 <= k <= n -> 255 < n ->
   Shamir.splitSecret src cur secret n k = Throw "Max 255 shares").
Proof.
  unfold Shamir.splitSecret.
  destruct (Z.ltb_spec n k); [|destruct (Z.ltb_spec k 2); [|destruct (Z.ltb_spec 255 n)]].
  all: repeat apply conj; try (intros; lia); try (intros; reflexivity).
  all: try (intros _; eexists; reflexivity).
  all: try (intros [? ?]; discriminate).
  all: try (split; [intros [? ?]; discriminate | intros; lia]).
  all: try (split; [intros; lia | intros _; eexists; reflexivity]).
  all: try (split; [intros _; lia | intros _; eexists; reflexivity]).
Qed.

Lemma C8_splitSecret_threshold_check_witness :
  Shamir.splitSecret (fun t => Z.of_nat t) 0 [1; 2] 3 4
  = Throw "Threshold must be <= number of shares".
Proof.
  apply (C8_splitSecret_threshold_check (fun t => Z.of_nat t) 0 [1; 2] 3 4).
  lia.
Defined.

Lemma coefficients_of_bytes src cur secret k b :
  Forall (fun c => 0 <= c < 256) (coefficients_of src cur secret k b).
Proof.
  rewrite coefficients_of_val. apply Forall_fmap, Forall_forall.
  intros c _. apply val_range.
Qed.

Lemma evaluatePolynomial_psum (cs : list Z) (x : Z) :
  Forall (fun c => 0 <= c < 256) cs -> 0 <= x < 256 ->
  Shamir.evaluatePolynomial cs x = val (gf_psum (of_Z <$> cs) (of_Z x) 0).
Proof.
  intros Hcs Hx.
  assert (E : cs = val <$> (of_Z <$> cs)).
  { rewrite <- list_fmap_compose. symmetry.
    rewrite <- (list_fmap_id cs) at 2. apply list_fmap_ext.
    intros i c Hc. cbn. apply Z.mod_small.
    exact (Forall_lookup_1 _ cs i c Hcs Hc). }
  rewrite E at 1. rewrite <- (val_of_Z x Hx) at 1.
  rewrite evaluatePolynomial_val. unfold gf_horner, gf_psum.
  rewrite (horner_psum _ _ _ _ _ _ _ _ GF_field). reflexivity.
Qed.

(** C7. For [2 <= k <= n <= 255], [splitSecret] returns [n] shares of
    length [L + 1]; byte 0 of share [i] is [i + 1], so the x-coordinates
    are 1, ..., n; and for every byte position [b] there is one array of
    [k] coefficients, the first of which is the secret byte, such that byte
    [b + 1] of every share is the value of [evaluatePolynomial] on it at
    the share's x-coordinate, that is the sum of the [c_j * x^j] in
    GF(256). *)
Theorem C7_splitSecret_shape (src : entropy) (cur : nat) (secret : list Z)
    (n k : Z) :
  Forall (fun z => is_byte z = true) secret ->
  2 <= k <= n -> n <= 255 ->
  exists shares cur' (polys : list (list Z)),
    Shamir.splitSecret src cur secret n k = Return (shares, cur') /\
    length shares = Z.to_nat n /\
    (fun s : list Z => s !! 0%nat) <$> shares
      = (fun i => Some (Z.of_nat i + 1)) <$> seq 0 (Z.to_nat n) /\
    NoDup ((fun s : list Z => s !! 0%nat) <$> shares) /\
    length polys = length secret /\
    (forall b cs, polys !! b = Some cs ->
       length cs = Z.to_nat k /\
       Forall (fun c => 0 <= c < 256) cs /\
       cs !! 0%nat = secret !! b) /\
    (forall i s, shares !! i = Some s ->
       length s = S (length secret) /\
       s !! 0%nat = Some (Z.of_nat i + 1) /\
       forall b cs, polys !! b = Some cs ->
         s !! S b = Some (Shamir.evaluatePolynomial cs (Z.of_nat i + 1)) /\
         Shamir.evaluatePolynomial cs (Z.of_nat i + 1)
         = val (gf_psum (of_Z <$> cs) (of_Z (Z.of_nat i + 1)) 0)).
Proof.
  intros Hsec Hk Hn.
  exists (share_upto src cur secret k (length secret) <$> seq 0 (Z.to_nat n)).
  exists (cur + length secret * (Z.to_nat k - 1))%nat.
  exists (coefficients_of src cur secret k <$> seq 0 (length secret)).
  assert (Hxs : (fun s : list Z => s !! 0%nat) <$>
      (share_upto src cur secret k (length secret) <$> seq 0 (Z.to_nat n))
      = (fun i => Some (Z.of_nat i + 1)) <$> seq 0 (Z.to_nat n)).
  { rewrite <- list_fmap_compose. apply list_fmap_ext. intros; reflexivity. }
  repeat apply conj.
  - apply splitSecret_spec; assumption.
  - rewrite length_fmap, length_seq. reflexivity.
  - exact Hxs.
  - rewrite Hxs. apply NoDup_fmap_2_strong; [|apply NoDup_seq].
    intros i j _ _ E. injection E as E. lia.
  - rewrite length_fmap, length_seq. reflexivity.
  - intros b cs Hb. apply list_lookup_fmap_Some in Hb as (b' & -> & Hb').
    apply lookup_seq in Hb' as [E Hlt]. cbn [Nat.add] in E. subst b'.
    repeat apply conj.
    + apply length_coefficients_of. lia.
    + apply coefficients_of_bytes.
    + unfold coefficients_of. cbn [lookup list_lookup].
      rewrite u8_get_nat.
      destruct (lookup_lt_is_Some_2 secret b Hlt) as [s Hs].
      rewrite Hs. cbn [to_int32]. f_equal. apply Z.mod_small, is_byte_range.
      exact (Forall_lookup_1 _ secret b s Hsec Hs).
  - intros i s Hi. apply list_lookup_fmap_Some in Hi as (i' & -> & Hi').
    apply lookup_seq in Hi' as [E Hlt]. cbn [Nat.add] in E. subst i'.
    rewrite share_upto_val by lia.
    repeat apply conj.
    + cbn [length]. rewrite length_fmap, length_seq. reflexivity.
    + cbn [lookup list_lookup]. f_equal. apply val_of_Z. lia.
    + intros b cs Hb. apply list_lookup_fmap_Some in Hb as (b' & -> & Hb').
      apply lookup_seq in Hb' as [E Hb']. cbn [Nat.add] in E. subst b'.
      assert (Ev : Shamir.evaluatePolynomial (coefficients_of src cur secret k b)
                     (Z.of_nat i + 1)
                   = val (gf_horner (gf_coefficients src cur secret k b)
                            (of_Z (Z.of_nat i + 1)))).
      { rewrite coefficients_of_val.
        rewrite <- (val_of_Z (Z.of_nat i + 1)) at 1 by lia.
        apply evaluatePolynomial_val. }
      split.
      * rewrite lookup_cons_ne_0 by lia. cbn [Nat.pred].
        rewrite list_lookup_fmap, lookup_seq_lt by assumption.
        cbn [fmap option_fmap option_map Nat.add]. rewrite Ev. reflexivity.
      * apply evaluatePolynomial_psum; [apply coefficients_of_bytes | lia].
Qed.

Definition demo_src : entropy := fun t => Z.of_nat (7 * t + 3).

Lemma C7_splitSecret_shape_witness :
  exists shares cur' (polys : list (list Z)),
    Shamir.splitSecret demo_src 0 [10; 200; 33] 3 2 = Return (shares, cur') /\
    length shares = Z.to_nat 3 /\
    (fun s : list Z => s !! 0%nat) <$> shares
      = (fun i => Some (Z.of_nat i + 1)) <$> seq 0 (Z.to_nat 3) /\
    NoDup ((fun s : list Z => s !! 0%nat) <$> shares) /\
    length polys = length [10; 200; 33] /\
    (forall b cs, polys !! b = Some cs ->
       length cs = Z.to_nat 2 /\
       Forall (fun c => 0 <= c < 256) cs /\
       cs !! 0%nat = [10; 200; 33] !! b) /\
    (forall i s, shares !! i = Some s ->
       length s = S (length [10; 200; 33]) /\
       s !! 0%nat = Some (Z.of_nat i + 1) /\
       forall b cs, polys !! b = Some cs ->
         s !! S b = Some (Shamir.evaluatePolynomial cs (Z.of_nat i + 1)) /\
         Shamir.evaluatePolynomial cs (Z.of_nat i + 1)
         = val (gf_psum (of_Z <$> cs) (of_Z (Z.of_nat i + 1)) 0)).
Proof.
  apply (C7_splitSecret_shape demo_src 0 [10; 200; 33] 3 2).
  - repeat constructor.
  - lia.
  - lia.
Defined.

(** ** Secret reconstructor *)

(** C1. For [2 <= k <= n <= 255] and every secret, [reconstructSecret]
    applied to any [k] of the [n] shares of [splitSecret], picked by
    distinct indices in any order, returns the secret. *)
Theorem C1_split_reconstruct_roundtrip (src : entropy) (cur : nat)
    (secret : list Z) (n k : Z) :
  Forall (fun z => is_byte z = true) secret ->
  2 <= k <= n -> n <= 255 ->
  exists shares cur',
    Shamir.splitSecret src cur secret n k = Return (shares, cur') /\
    length shares = Z.to_nat n /\
    forall idx : list nat,
      NoDup idx -> length idx = Z.to_nat k ->
      Forall (fun i => (i < length shares)%nat) idx ->
      Shamir.reconstructSecret (pick shares idx) = Return secret.
Proof.
  intros Hsec Hk Hn.
  exists (share_upto src cur secret k (length secret) <$> seq 0 (Z.to_nat n)).
  exists (cur + length secret * (Z.to_nat k - 1))%nat.
  repeat apply conj.
  - apply splitSecret_spec; assumption.
  - rewrite length_fmap, length_seq. reflexivity.
  - intros idx Hnd Hlen Hidx.
    rewrite length_fmap, length_seq in Hidx.
    apply reconstruct_split; try assumption. lia.
Qed.

Lemma C1_split_reconstruct_roundtrip_witness :
  exists shares cur',
    Shamir.splitSecret demo_src 0 [10; 200; 33] 4 3 = Return (shares, cur') /\
    length shares = Z.to_nat 4 /\
    forall idx : list nat,
      NoDup idx -> length idx = Z.to_nat 3 ->
      Forall (fun i => (i < length shares)%nat) idx ->
      Shamir.reconstructSecret (pick shares idx) = Return [10; 200; 33].
Proof.
  apply (C1_split_reconstruct_roundtrip demo_src 0 [10; 200; 33] 4 3).
  - repeat constructor.
  - lia.
  - lia.
Defined.

Example C1_roundtrip_example :
  match Shamir.splitSecret demo_src 0 [10; 200; 33] 4 3 with
  | Return (shares, _) => Shamir.reconstructSecret (pick shares [3; 0; 2]%nat)
  | Throw e => Throw e
  end = Return [10; 200; 33].
Proof. vm_compute. reflexivity. Qed.

Lemma u8_get_0 (s : list Z) : u8_get s (Some 0) = s !! 0%nat.
Proof. reflexivity. Qed.

(** A loop whose body keeps an invariant and never throws returns a state
    that satisfies the invariant. *)
Lemma for_each_inv {St} (P : St -> Prop) (body : St -> nat -> outcome St)
    (l : list nat) (s : St) :
  P s ->
  (forall s i, P s -> exists s', body s i = Return s' /\ P s') ->
  exists s', Shamir.for_each l body s = Return s' /\ P s'.
Proof.
  intros Hs Hbody. revert s Hs.
  induction l as [|i l IH]; intros s Hs; cbn [Shamir.for_each].
  - exists s. auto.
  - destruct (Hbody s i Hs) as (s' & E & Hs'). rewrite E.
    cbn [mbind outcome_bind]. apply IH, Hs'.
Qed.

(** A loop throws [msg] when its body can only throw [msg] and does so at
    some index whatever the state. *)
Lemma for_each_throw {St} (msg : string) (body : St -> nat -> outcome St)
    (l : list nat) (s : St) (i : nat) :
  i ∈ l ->
  (forall s, body s i = Throw msg) ->
  (forall s j, body s j = Throw msg \/ exists s', body s j = Return s') ->
  Shamir.for_each l body s = Throw msg.
Proof.
  intros Hi Hthrow Hbody. revert s.
  induction l as [|j l IH]; intros s; [inversion Hi|].
  cbn [Shamir.for_each].
  destruct (Hbody s j) as [E | (s' & E)]; rewrite E; cbn [mbind outcome_bind].
  - reflexivity.
  - apply elem_of_cons in Hi as [<- | Hi].
    + rewrite Hthrow in E. discriminate.
    + apply IH, Hi.
Qed.

Lemma gfDiv_cases a b :
  Shamir.gfDiv a b = Throw "Division by zero in GF(256)" \/
  exists v, Shamir.gfDiv a b = Return v.
Proof.
  unfold Shamir.gfDiv. destruct (strict_eq0 b); [left; reflexivity|].
  right. destruct (strict_eq0 a); eexists; reflexivity.
Qed.

(** Once a factor [xs[i] ^ xs[j]] is zero, so is the denominator. *)
Lemma lagrange_terms_dup (xs : list jsval) (i j : nat) :
  i <> j -> (j < length xs)%nat ->
  js_xor (Shamir.arr_get xs i) (Shamir.arr_get xs j) = 0 ->
  snd (Shamir.lagrange_terms xs i) = Some 0.
Proof.
  intros Hij Hj Hx. unfold Shamir.lagrange_terms.
  replace (length xs) with (j + S (length xs - S j))%nat by lia.
  rewrite seq_app, fold_left_app. cbn [seq fold_left Nat.add].
  match goal with
  | |- context [fold_left ?f (seq 0 j) ?a] =>
      destruct (fold_left f (seq 0 j) a) as [n d]
  end.
  destruct (decide (i = j)); [contradiction|].
  rewrite Hx, gfMul_zero_r.
  generalize (Shamir.gfMul n (Shamir.arr_get xs j)) as n'.
  generalize (seq (S j) (length xs - S j)) as l.
  induction l as [|j' l IH]; intros n'; [reflexivity|].
  cbn [fold_left]. destruct (decide (i = j')); apply IH.
Qed.

(** ** Reconstruction and inconsistent input *)

(** C3, as amended. [reconstructSecret] checks nothing about the contents
    of the shares: for every list of at least two shares that each carry an
    x-coordinate, with pairwise distinct x-coordinates, it returns a byte
    sequence of the length of the first share minus one without throwing,
    whatever the other bytes are and however long the other shares are.
    When two shares carry the same x-coordinate and the first share has a
    payload, it throws the division-by-zero error of [gfDiv]. *)
Theorem C3_reconstructSecret_validation (shares : list (list Z)) :
  (2 <= length shares)%nat ->
  Forall (fun s : list Z => exists x, s !! 0%nat = Some x /\ 0 <= x < 256) shares ->
  (NoDup ((fun s : list Z => s !! 0%nat) <$> shares) ->
   exists secret,
     Shamir.reconstructSecret shares = Return secret /\
     S (length secret) = length (default [] (shares !! 0%nat))) /\
  (forall i j si sj,
     i <> j -> shares !! i = Some si -> shares !! j = Some sj ->
     si !! 0%nat = sj !! 0%nat ->
     (2 <= length (default [] (shares !! 0%nat)))%nat ->
     Shamir.reconstructSecret shares = Throw "Division by zero in GF(256)").
Proof.
  intros Hlen Hx. unfold Shamir.reconstructSecret.
  destruct (Nat.ltb_spec (length shares) 2); [lia|].
  destruct shares as [|s0 rest]; [cbn in Hlen; lia|].
  set (shares := s0 :: rest) in *.
  change (from_option id [] (shares !! 0%nat)) with s0.
  change (default [] (shares !! 0%nat)) with s0.
  assert (Hs0 : (1 <= length s0)%nat).
  { apply Forall_cons in Hx as [(x & E & _) _].
    apply lookup_lt_Some in E. lia. }
  destruct (Z.ltb_spec (Z.of_nat (length s0) - 1) 0); [lia|].
  replace (Z.to_nat (Z.of_nat (length s0) - 1)) with (length s0 - 1)%nat by lia.
  split.
  - intros Hnd.
    set (fxs := (fun s : list Z => of_Z (default 0 (s !! 0%nat))) <$> shares).
    assert (Exs : (fun s => u8_get s (Some 0)) <$> shares
                  = (fun x => Some (val x)) <$> fxs).
    { unfold fxs. rewrite <- list_fmap_compose. apply list_fmap_ext.
      intros i s Hs. unfold compose.
      destruct (Forall_lookup_1 _ shares i s Hx Hs) as (x & E & Hr).
      rewrite u8_get_0, E. cbn. rewrite Z.mod_small by lia. reflexivity. }
    assert (Hfnd : NoDup fxs).
    { unfold fxs. apply NoDup_fmap_2_strong.
      - intros s t Hs Ht E.
        apply list_elem_of_lookup in Hs as [i Hs].
        apply list_elem_of_lookup in Ht as [j Ht].
        destruct (Forall_lookup_1 _ shares i s Hx Hs) as (x & Ex & Hrx).
        destruct (Forall_lookup_1 _ shares j t Hx Ht) as (y & Ey & Hry).
        rewrite Ex, Ey in E. cbn in E.
        apply (f_equal val) in E. rewrite !val_of_Z in E by lia. subst y.
        assert (i = j).
        { eapply (NoDup_lookup _ i j (Some x) Hnd);
            rewrite list_lookup_fmap; [rewrite Hs | rewrite Ht]; cbn;
            congruence. }
        congruence.
      - eapply NoDup_fmap_1. exact Hnd. }
    rewrite Exs.
    destruct (for_each_inv (fun secret => length secret = (length s0 - 1)%nat)
      (fun secret byteIdx =>
         result ←
           Shamir.for_each (seq 0 (length shares))
             (fun result i =>
                let '(numerator, denominator) :=
                  Shamir.lagrange_terms ((fun x => Some (val x)) <$> fxs) i in
                lagrangeCoeff ← Shamir.gfDiv numerator denominator;
                let share_i := from_option id [] (shares !! i) in
                Return
                  (js_xor (Some result)
                     (Shamir.gfMul
                        (u8_get share_i (Some (Z.of_nat byteIdx + 1)))
                        lagrangeCoeff)))
             0;
         Return (u8_set secret byteIdx result))
      (seq 0 (length s0 - 1)) (u8_new (length s0 - 1)))
      as (secret & E & Hsl).
    + apply length_replicate.
    + intros secret b Hsl.
      rewrite (for_each_index
        (fun r (s : list Z) =>
           js_xor (Some r)
             (Shamir.gfMul (u8_get s (Some (Z.of_nat b + 1)))
                (Some (val (gf_basis fxs (of_Z (default 0 (s !! 0%nat)))))))) _
        shares [] 0).
      * cbn [mbind outcome_bind]. eexists. split; [reflexivity|].
        unfold u8_set. rewrite length_insert. exact Hsl.
      * intros r i s Hs. cbn [app] in Hs.
        assert (Hi : fxs !! i = Some (of_Z (default 0 (s !! 0%nat)))).
        { unfold fxs. rewrite list_lookup_fmap, Hs. reflexivity. }
        rewrite (lagrange_terms_val fxs i _ Hfnd Hi).
        rewrite gfDiv_val.
        2:{ unfold gf_prodl.
            apply (basis_den_neq_0 _ _ _ _ _ _ _ _ GF_field GF_char2). }
        cbn [mbind outcome_bind]. rewrite Hs. reflexivity.
    + exists secret. split; [exact E | lia].
  - intros i j si sj Hij Hi Hj Hsame Hpayload.
    replace (length s0 - 1)%nat with (S (length s0 - 2)) by lia.
    cbn [seq Shamir.for_each].
    rewrite (for_each_throw "Division by zero in GF(256)" _ _ _ i).
    + reflexivity.
    + apply list_elem_of_In, in_seq. apply lookup_lt_Some in Hi. lia.
    + intros r.
      pose proof (lagrange_terms_dup
        ((fun s => u8_get s (Some 0)) <$> shares) i j Hij) as Hd.
      destruct (Shamir.lagrange_terms _ i) as [n d]. cbn [snd] in Hd.
      rewrite Hd; [reflexivity| |].
      * rewrite length_fmap. apply lookup_lt_Some in Hj. exact Hj.
      * unfold Shamir.arr_get. rewrite !list_lookup_fmap, Hi, Hj.
        cbn [fmap option_fmap option_map from_option id].
        rewrite !u8_get_0, Hsame. unfold js_xor. apply Z.lxor_nilpotent.
    + intros r i'.
      destruct (Shamir.lagrange_terms _ i') as [n d].
      destruct (gfDiv_cases n d) as [E | (v & E)]; rewrite E;
        cbn [mbind outcome_bind]; [left; reflexivity | right; eexists; reflexivity].
Qed.

Lemma C3_reconstructSecret_validation_witness :
  exists secret,
    Shamir.reconstructSecret [[1; 5; 9]; [2; 7]; [3]] = Return secret /\
    S (length secret) = length (default [] ([[1; 5; 9]; [2; 7]; [3]] !! 0%nat)).
Proof.
  apply (C3_reconstructSecret_validation [[1; 5; 9]; [2; 7]; [3]]).
  - cbn. lia.
  - repeat constructor; eexists; (split; [reflexivity | lia]).
  - cbn. repeat constructor; rewrite ?elem_of_cons, ?elem_of_nil; intuition congruence.
Defined.

(** C3 as stated fails: two shares with the same x-coordinate make
    [reconstructSecret] throw the division-by-zero error instead of
    returning a value silently. *)
Lemma C3_counterexample :
  (2 <= length [[1; 5]; [1; 7]])%nat /\
  Shamir.reconstructSecret [[1; 5]; [1; 7]]
  = Throw "Division by zero in GF(256)" /\
  ~ (forall shares : list (list Z),
       (2 <= length shares)%nat ->
       exists secret, Shamir.reconstructSecret shares = Return secret).
Proof.
  split; [cbn; lia|]. split; [vm_compute; reflexivity|].
  intros H. destruct (H [[1; 5]; [1; 7]]) as [secret E]; [cbn; lia|].
  vm_compute in E. discriminate.
Qed.

(** ** Quorum release policy *)

(** [Math.floor(Math.random() * m)] for the [t]-th random number. *)
Definition draw (rnd : KeyRelease.random) (t : nat) (m : Z) : nat :=
  Z.to_nat (KeyRelease.Math_floor (KeyRelease.times (rnd t) m)).










(** The binary64 numbers nearest to 0.7 and, from the second call on, to
    1/3. *)
Definition demo_rnd : KeyRelease.random :=
  fun t => match t with
           | 0%nat => {| KeyRelease.mant := 6305039478318694;
                         KeyRelease.expo := -53 |}
           | _ => {| KeyRelease.mant := 6004799503160661;
                     KeyRelease.expo := -54 |}
           end.


(** Two thirds rounded down to a binary64 number, whose product with 3 is
    rounded upwards to 2, then the number nearest to 1/3. *)
Definition rounding_rnd : KeyRelease.random :=
  fun t => match t with
           | 0%nat => {| KeyRelease.mant := 6004799503160661;
                         KeyRelease.expo := -53 |}
           | _ => {| KeyRelease.mant := 6004799503160661;
                     KeyRelease.expo := -54 |}
           end.



Example C4_release_example :
  KeyRelease.release demo_rnd 0 ["aa"; "bb"; "cc"]%string
  = ([Some "bb"; Some "aa"]%string, [Some "beta"; Some "alpha"]%string,
     Some {| KeyRelease.releasedIndices := [1; 0]%nat;
             KeyRelease.withheldIndex := Some 2%nat |}, 2%nat).
Proof. reflexivity. Qed.

(** The product is rounded before [Math.floor] is applied to it. For the
    number [6004799503160661 / 2 ^ 53] the exact product with 3 lies below
    2, the binary64 product is 2: the first draw is 2, not 1, and the
    shares of [beta] and [alpha] are released. *)
Example C4_release_rounded :
  6004799503160661 * 3 / 2 ^ 53 = 1 /\
  KeyRelease.times (rounding_rnd 0%nat) 3
  = {| KeyRelease.mant := 2 ^ 53; KeyRelease.expo := -52 |} /\
  draw rounding_rnd 0 3 = 2%nat /\ draw rounding_rnd 1 2 = 0%nat /\
  KeyRelease.release rounding_rnd 0 ["aa"; "bb"; "cc"]%string
  = ([Some "bb"; Some "aa"]%string, [Some "beta"; Some "alpha"]%string,
     Some {| KeyRelease.releasedIndices := [1; 0]%nat;
             KeyRelease.withheldIndex := Some 2%nat |}, 2%nat).
Proof. repeat split. Qed.

(** ** Share encapsulation: contract of the primitives

    [u8 l] says that [l] is the content of a [Uint8Array]. *)

Definition u8 (l : list Z) : Prop := Forall (fun z => 0 <= z < 256) l.

(** What the development assumes of [tweetnacl] and [tweetnacl-util]:
    base64 decoding inverts encoding; [nacl.box] returns a byte array for a
    24-byte nonce and 32-byte keys; a box sealed by [a] to the public key
    of [b] opens with the public key of [a] and the secret key of [b];
    public keys are 32 bytes. *)
Record nacl_contract
    (decodeBase64 : string -> outcome (list Z))
    (encodeBase64 : list Z -> string)
    (nacl_box : list Z -> list Z -> list Z -> list Z -> outcome (list Z))
    (nacl_box_open :
       list Z -> list Z -> list Z -> list Z -> outcome (option (list Z)))
    (scalarMult_base : list Z -> list Z) : Prop := {
  base64_roundtrip :
    forall b, u8 b -> decodeBase64 (encodeBase64 b) = Return b;
  public_key_bytes :
    forall sk, u8 sk -> length sk = 32%nat ->
      u8 (scalarMult_base sk) /\ length (scalarMult_base sk) = 32%nat;
  box_returns :
    forall m n pk sk, u8 m -> length n = 24%nat ->
      length pk = 32%nat -> length sk = 32%nat ->
      exists c, nacl_box m n pk sk = Return c /\ u8 c;
  box_open_correct :
    forall m n a b c, length n = 24%nat ->
      length a = 32%nat -> length b = 32%nat ->
      nacl_box m n (scalarMult_base b) a = Return c ->
      nacl_box_open c n (scalarMult_base a) b = Return (Some m)
}.

(** A toy instance of the primitives, to exhibit inputs of the theorems
    below: characters for base64, addition modulo 256 for the key
    agreement, and a box that carries the shared key in clear. It has no
    security; it only satisfies the contract. *)
Module Toy.

Definition decodeBase64 (s : string) : outcome (list Z) :=
  Return ((fun c => Z.of_N (Ascii.N_of_ascii c)) <$> String.list_ascii_of_string s).

Definition encodeBase64 (l : list Z) : string :=
  String.string_of_list_ascii ((fun z => Ascii.ascii_of_N (Z.to_N z)) <$> l).

Definition scalarMult_base (sk : list Z) : list Z :=
  (fun z => (z + 1) mod 256) <$> sk.

Definition before (pk sk : list Z) : list Z :=
  zip_with (fun x y => (x - 1 + y) mod 256) pk sk.

Definition sizes_ok (n pk sk : list Z) : bool :=
  (length n =? 24)%nat && (length pk =? 32)%nat && (length sk =? 32)%nat.

Definition nacl_box (m n pk sk : list Z) : outcome (list Z) :=
  if sizes_ok n pk sk then Return (before pk sk ++ m) else Throw "bad size".

Definition nacl_box_open (c n pk sk : list Z) : outcome (option (list Z)) :=
  if sizes_ok n pk sk then
    Return (if decide (take 32 c = before pk sk) then Some (drop 32 c) else None)
  else Throw "bad size".

Definition hexBytes (s : string) : outcome (list Z) :=
  if String.eqb s "" then Throw "Cannot read properties of null"
  else decodeBase64 s.

End Toy.

Lemma toy_base64_roundtrip (b : list Z) :
  u8 b -> Toy.decodeBase64 (Toy.encodeBase64 b) = Return b.
Proof.
  intros Hb. unfold Toy.decodeBase64, Toy.encodeBase64. f_equal.
  rewrite String.list_ascii_of_string_of_list_ascii.
  rewrite <- list_fmap_compose. rewrite <- (list_fmap_id b) at 2.
  apply list_fmap_ext. intros i z Hz. cbn.
  pose proof (Forall_lookup_1 _ b i z Hb Hz) as Hr. cbn beta in Hr.
  rewrite Ascii.N_ascii_embedding.
  - apply Z2N.id. lia.
  - change 256%N with (Z.to_N 256). apply Z2N.inj_lt; lia.
Qed.

Lemma toy_before_length (pk sk : list Z) :
  length pk = 32%nat -> length sk = 32%nat -> length (Toy.before pk sk) = 32%nat.
Proof. intros Hp Hs. unfold Toy.before. rewrite length_zip_with. lia. Qed.

Lemma toy_before_symmetric (a b : list Z) :
  Toy.before (Toy.scalarMult_base a) b = Toy.before (Toy.scalarMult_base b) a.
Proof.
  unfold Toy.before, Toy.scalarMult_base. revert b.
  induction a as [|x a IH]; intros [|y b]; try reflexivity.
  cbn [fmap list_fmap zip_with]. f_equal; [|apply IH].
  replace ((x + 1) mod 256 - 1 + y) with ((x + 1) mod 256 + (y - 1)) by lia.
  replace ((y + 1) mod 256 - 1 + x) with ((y + 1) mod 256 + (x - 1)) by lia.
  rewrite !Zplus_mod_idemp_l. f_equal. lia.
Qed.

Lemma toy_sizes_ok n pk sk :
  length n = 24%nat -> length pk = 32%nat -> length sk = 32%nat ->
  Toy.sizes_ok n pk sk = true.
Proof.
  intros Hn Hp Hs. unfold Toy.sizes_ok. rewrite Hn, Hp, Hs. reflexivity.
Qed.

Lemma toy_contract :
  nacl_contract Toy.decodeBase64 Toy.encodeBase64 Toy.nacl_box
    Toy.nacl_box_open Toy.scalarMult_base.
Proof.
  constructor.
  - apply toy_base64_roundtrip.
  - intros sk Hsk Hlen. split.
    + apply Forall_fmap, Forall_forall. intros z _. cbn.
      apply Z.mod_pos_bound. lia.
    + unfold Toy.scalarMult_base. rewrite length_fmap. exact Hlen.
  - intros m n pk sk Hm Hn Hpk Hsk. unfold Toy.nacl_box.
    rewrite toy_sizes_ok by assumption. eexists. split; [reflexivity|].
    apply Forall_app. split; [|exact Hm].
    unfold Toy.before. apply Forall_lookup. intros i z Hz.
    apply lookup_zip_with_Some in Hz as (x & y & -> & _ & _).
    apply Z.mod_pos_bound. lia.
  - intros m n a b c Hn Ha Hb E.
    assert (Hpa : length (Toy.scalarMult_base a) = 32%nat)
      by (unfold Toy.scalarMult_base; rewrite length_fmap; exact Ha).
    assert (Hpb : length (Toy.scalarMult_base b) = 32%nat)
      by (unfold Toy.scalarMult_base; rewrite length_fmap; exact Hb).
    unfold Toy.nacl_box in E. unfold Toy.nacl_box_open.
    rewrite (toy_sizes_ok n _ a) in E by assumption.
    rewrite (toy_sizes_ok n _ b) by assumption.
    injection E as <-.
    rewrite take_app_length', drop_app_length'
      by (symmetry; apply toy_before_length; assumption).
    rewrite (toy_before_symmetric b a).
    rewrite decide_True by reflexivity. reflexivity.
Qed.

Lemma randomBytes_eq (src : entropy) (cur n : nat) :
  Nodes.randomBytes src cur n
  = ((fun t => src t mod 256) <$> seq cur n, (cur + n)%nat).
Proof.
  unfold Nodes.randomBytes, getRandomValues, u8_new.
  rewrite length_replicate, Nat.sub_0_r. reflexivity.
Qed.

Lemma randomBytes_u8 (src : entropy) (cur n : nat) :
  u8 (Nodes.randomBytes src cur n).1 /\
  length (Nodes.randomBytes src cur n).1 = n.
Proof.
  rewrite randomBytes_eq. cbn [fst]. split.
  - apply Forall_fmap, Forall_forall. intros t _. cbn.
    apply Z.mod_pos_bound. lia.
  - rewrite length_fmap, length_seq. reflexivity.
Qed.


(** ** Clamping of X25519 secret keys

    [crypto_scalarmult] of tweetnacl, which [nacl.box], [nacl.box.open]
    and the public key of a secret key all go through, does not read the
    secret key [n] itself but its copy [z] with
    [z[31] = (n[31] & 127) | 64] and [z[0] &= 248]. *)
Definition clamp (n : list Z) : list Z :=
  <[0%nat := Z.land (default 0 (n !! 0%nat)) 248]>
    (<[31%nat := Z.lor (Z.land (default 0 (n !! 31%nat)) 127) 64]> n).





(** ** Proxy re-encryption and share encapsulation *)

Section NodeClaims.

Variable decodeBase64 : string -> outcome (list Z).
Variable encodeBase64 : list Z -> string.
Variable nacl_box : list Z -> list Z -> list Z -> list Z -> outcome (list Z).
Variable nacl_box_open :
  list Z -> list Z -> list Z -> list Z -> outcome (option (list Z)).
Variable scalarMult_base : list Z -> list Z.
Variable hexBytes : string -> outcome (list Z).



End NodeClaims.

Section SealingClaim.

Variable encodeBase64 : list Z -> string.
Variable nacl_box : list Z -> list Z -> list Z -> list Z -> outcome (list Z).
Variable scalarMult_base : list Z -> list Z.
Variable hexBytes : string -> outcome (list Z).

(** In [POST /api/encrypt-shares] with a sender public key, the share of
    node [i] is boxed with the node's secret key in the public-key
    argument and a fresh ephemeral secret key as secret key; the entry
    carries the public key of the ephemeral key. *)
Lemma encryptShare_sealed (nodeKeys : Nodes.NodeKeys)
    (senderPublicKey : option string) (src : entropy) (cur : nat)
    (shareHex : string) (i : nat) (node : Nodes.NodeKey)
    (shareBytes c : list Z) :
  let nonce := (fun t => src t mod 256) <$> seq cur 24 in
  let ephemeral_secretKey := (fun t => src t mod 256) <$> seq (cur + 24) 32 in
  Nodes.truthy senderPublicKey = true ->
  Nodes.lookupNode nodeKeys (Nodes.nodeIds !! i) = Some node ->
  hexBytes shareHex = Return shareBytes ->
  nacl_box shareBytes nonce (Nodes.secretKey node) ephemeral_secretKey
  = Return c ->
  Nodes.encryptShare encodeBase64 nacl_box scalarMult_base hexBytes
    nodeKeys senderPublicKey src cur shareHex i
  = (Return
       {| Nodes.ee_nodeId := Nodes.nodeIds !! i;
          Nodes.ee_encryptedShare :=
            inr {| Nodes.sn_nonce := encodeBase64 nonce;
                   Nodes.sn_encrypted := encodeBase64 c;
                   Nodes.sn_ephemeralPublicKey :=
                     encodeBase64 (scalarMult_base ephemeral_secretKey) |};
          Nodes.ee_error := None |}, (cur + 24 + 32)%nat).
Proof.
  intros nonce esk Hspk Hnode Hhex Ebox.
  unfold Nodes.encryptShare. rewrite Hnode, Hhex.
  rewrite randomBytes_eq, Hspk, randomBytes_eq.
  fold nonce. fold esk. rewrite Ebox. reflexivity.
Qed.

End SealingClaim.

(** ** Witnesses for the node claims, on the toy primitives *)

Definition demo_key (seed : Z) : list Z :=
  (fun t => (seed + Z.of_nat t) mod 256) <$> seq 0 32.

Definition demo_nodeKeys : Nodes.NodeKeys :=
  {| Nodes.alpha := {| Nodes.publicKey :=
                         Toy.encodeBase64 (Toy.scalarMult_base (demo_key 10));
                       Nodes.secretKey := demo_key 10 |};
     Nodes.beta := {| Nodes.publicKey :=
                        Toy.encodeBase64 (Toy.scalarMult_base (demo_key 20));
                      Nodes.secretKey := demo_key 20 |};
     Nodes.gamma := {| Nodes.publicKey :=
                         Toy.encodeBase64 (Toy.scalarMult_base (demo_key 30));
                       Nodes.secretKey := demo_key 30 |} |}.

Lemma demo_key_u8 (seed : Z) : u8 (demo_key seed) /\ length (demo_key seed) = 32%nat.
Proof.
  split; [|reflexivity].
  apply Forall_fmap, Forall_forall. intros t _. cbn.
  apply Z.mod_pos_bound. lia.
Qed.



(** The toy primitives behind a clamp, as X25519 has it: the key
    agreement reads the secret key clamped. *)
Module Clamped.

Definition scalarMult_base (sk : list Z) : list Z :=
  Toy.scalarMult_base (clamp sk).

Definition nacl_box (m n pk sk : list Z) : outcome (list Z) :=
  Toy.nacl_box m n pk (clamp sk).

Definition nacl_box_open (c n pk sk : list Z) : outcome (option (list Z)) :=
  Toy.nacl_box_open c n pk (clamp sk).

End Clamped.









(** ** Symmetric payload cipher *)

Lemma u8_set_all_concat (iv c : list Z) :
  u8_set_all (u8_set_all (u8_new (length iv + length c)) iv 0) c (length iv)
  = iv ++ c.
Proof.
  unfold u8_set_all, u8_new. rewrite take_0. cbn [app Nat.add].
  rewrite drop_replicate.
  replace (length iv + length c - length iv)%nat with (length c) by lia.
  rewrite take_app_length.
  rewrite drop_ge by (rewrite length_app, length_replicate; lia).
  rewrite app_nil_r. reflexivity.
Qed.

(** A toy authenticated cipher for the witness: the key is a number, sent
    along with the plaintext and compared on decryption. *)
Definition toy_encrypt (iv : list Z) (k : Z) (m : list Z) : outcome (list Z) :=
  Return (k :: m).

Definition toy_decrypt (iv : list Z) (k : Z) (c : list Z) : outcome (list Z) :=
  match c with
  | t :: m => if t =? k then Return m else Throw "OperationError"
  | [] => Throw "OperationError"
  end.

Lemma toy_cipher_inverse (iv : list Z) (k : Z) (m : list Z) :
  length iv = 12%nat ->
  exists c, toy_encrypt iv k m = Return c /\ toy_decrypt iv k c = Return m.
Proof.
  intros _. exists (k :: m). split; [reflexivity|].
  cbn. rewrite Z.eqb_refl. reflexivity.
Qed.

(** * Verification of the encodings, libraries, routes and contract *)

(** ** Hexadecimal encoding *)

Definition is_lower_hex (c : Ascii.ascii) : bool :=
  let n := Hex.code c in
  ((48 <=? n) && (n <=? 57)) || ((97 <=? n) && (n <=? 102)).

Definition hex2 (b : Z) : string := Hex.padStart (Hex.toString16 b) 2 Hex.char_0.

Definition hex2_ok (b : Z) : bool :=
  match hex2 b with
  | String c1 (String c2 EmptyString) =>
      is_lower_hex c1 && is_lower_hex c2 &&
      match Hex.parseInt16 (String c1 (String c2 EmptyString)) with
      | Some v => v =? b
      | None => false
      end
  | _ => false
  end.

Lemma hex2_spec (b : Z) : 0 <= b < 256 ->
  exists c1 c2,
    hex2 b = String c1 (String c2 EmptyString) /\
    is_lower_hex c1 = true /\ is_lower_hex c2 = true /\
    Hex.parseInt16 (String c1 (String c2 EmptyString)) = Some b.
Proof.
  intros Hb.
  assert (H : hex2_ok b = true).
  { apply forall_byte; [vm_compute; reflexivity | apply is_byte_range; lia]. }
  unfold hex2_ok in H.
  destruct (hex2 b) as [|c1 [|c2 [|? ?]]]; try discriminate.
  exists c1, c2. rewrite !andb_true_iff in H. destruct H as [[H1 H2] H3].
  destruct (Hex.parseInt16 _) as [v|]; [|discriminate].
  apply Z.eqb_eq in H3. subst v. auto.
Qed.

Lemma concat_empty_cons (x : string) (xs : list string) :
  String.concat "" (x :: xs) = (x +:+ String.concat "" xs)%string.
Proof.
  destruct xs as [|y ys]; cbn [String.concat].
  - induction x as [|c x IH]; [reflexivity|].
    change (String c x +:+ "") with (String c (x +:+ "")).
    rewrite <- IH. reflexivity.
  - reflexivity.
Qed.

Lemma append_two (c1 c2 : Ascii.ascii) (s : string) :
  (String c1 (String c2 EmptyString) +:+ s)%string = String c1 (String c2 s).
Proof. reflexivity. Qed.

Lemma shareToHex_cons (b : Z) (bs : list Z) :
  Hex.shareToHex (b :: bs) = (hex2 b +:+ Hex.shareToHex bs)%string.
Proof. unfold Hex.shareToHex. cbn [map]. apply concat_empty_cons. Qed.

Lemma substring_0_0 (s : string) : String.substring 0 0 s = EmptyString.
Proof. destruct s; reflexivity. Qed.

Lemma shareToHex_length (bs : list Z) :
  Forall (fun b => 0 <= b < 256) bs ->
  String.length (Hex.shareToHex bs) = (2 * length bs)%nat.
Proof.
  induction 1 as [|b bs Hb _ IH]; [reflexivity|].
  rewrite shareToHex_cons.
  destruct (hex2_spec b Hb) as (c1 & c2 & -> & _).
  rewrite append_two. cbn [String.length length]. rewrite IH. lia.
Qed.

Lemma shareToHex_substring (bs : list Z) (k : nat) (b : Z) :
  Forall (fun b => 0 <= b < 256) bs -> bs !! k = Some b ->
  String.substring (2 * k) 2 (Hex.shareToHex bs) = hex2 b.
Proof.
  intros Hbs. revert k. induction Hbs as [|b0 bs Hb0 _ IH]; intros k Hk.
  - discriminate.
  - rewrite shareToHex_cons.
    destruct (hex2_spec b0 Hb0) as (c1 & c2 & E & _).
    destruct k as [|k].
    + injection Hk as <-. rewrite E, append_two.
      cbn [Nat.mul String.substring]. rewrite substring_0_0.
      reflexivity.
    + cbn [lookup list_lookup] in Hk. rewrite E, append_two.
      replace (2 * S k)%nat with (S (S (2 * k))) by lia.
      cbn [String.substring]. apply IH, Hk.
Qed.

(** The loop of [hexToShare] fills the array from the pairs of characters;
    the write of a last odd character falls outside the array. *)
Lemma fill_pairs (f : nat -> Z) (n m : nat) :
  fold_left (fun bytes k => u8_set bytes (2 * k / 2) (f k)) (seq 0 m)
    (u8_new n)
  = ((fun k => f k mod 256) <$> seq 0 (min m n)) ++ replicate (n - m) 0.
Proof.
  induction m as [|m IH].
  - cbn [seq fold_left min fmap list_fmap app]. rewrite Nat.sub_0_r. reflexivity.
  - rewrite seq_S, fold_left_app, IH. cbn [fold_left Nat.add].
    replace (2 * m / 2)%nat with m
      by (rewrite Nat.mul_comm, Nat.div_mul; lia).
    unfold u8_set. destruct (decide (m < n)%nat) as [Hlt|Hge].
    + rewrite Nat.min_l by lia.
      rewrite insert_app_r_alt by (rewrite length_fmap, length_seq; lia).
      rewrite length_fmap, length_seq, Nat.sub_diag.
      replace (n - m)%nat with (S (n - S m)) by lia. cbn [replicate].
      rewrite Nat.min_l by lia. rewrite seq_S, fmap_app, <- app_assoc.
      reflexivity.
    + rewrite list_insert_ge
        by (rewrite length_app, length_fmap, length_seq, length_replicate; lia).
      rewrite !Nat.min_r by lia.
      replace (n - m)%nat with 0%nat by lia.
      replace (n - S m)%nat with 0%nat by lia. reflexivity.
Qed.

Lemma hexToShare_pairs (hex : string) :
  Hex.hexToShare hex
  = (fun k => to_int32 (Hex.parseInt16 (String.substring (2 * k) 2 hex)) mod 256)
      <$> seq 0 (String.length hex / 2).
Proof.
  unfold Hex.hexToShare.
  rewrite (fill_pairs
    (fun k => to_int32 (Hex.parseInt16 (String.substring (2 * k) 2 hex)))).
  assert (H : (String.length hex / 2 <= (String.length hex + 1) / 2)%nat).
  { apply Nat.Div0.div_le_mono. lia. }
  rewrite Nat.min_r by exact H.
  replace (String.length hex / 2 - (String.length hex + 1) / 2)%nat with 0%nat
    by lia.
  cbn [replicate]. apply app_nil_r.
Qed.

Lemma hexToShare_shareToHex (share : list Z) :
  Forall (fun b => 0 <= b < 256) share ->
  Hex.hexToShare (Hex.shareToHex share) = share.
Proof.
  intros Hb.
  rewrite hexToShare_pairs, shareToHex_length by assumption.
  replace (2 * length share / 2)%nat with (length share)
    by (rewrite Nat.mul_comm, Nat.div_mul; lia).
  apply list_eq. intros k. rewrite list_lookup_fmap.
  destruct (share !! k) as [b|] eqn:Hk.
  - rewrite lookup_seq_lt by (eapply lookup_lt_Some; exact Hk).
    cbn [fmap option_fmap option_map Nat.add].
    rewrite (shareToHex_substring share k b Hb Hk).
    pose proof (Forall_lookup_1 _ share k b Hb Hk) as Hr. cbn beta in Hr.
    destruct (hex2_spec b Hr) as (c1 & c2 & -> & _ & _ & ->).
    cbn [to_int32]. f_equal. apply Z.mod_small, Hr.
  - rewrite lookup_seq_ge by (apply lookup_ge_None; exact Hk). reflexivity.
Qed.

(** X1. [hexToShare] inverts [shareToHex] on byte arrays, and so does
    [hexToBytes] for [bytesToHex]. *)
Theorem X1_hex_roundtrip (share : list Z) :
  Forall (fun b => 0 <= b < 256) share ->
  Hex.hexToShare (Hex.shareToHex share) = share /\
  Hex.hexToBytes (Hex.bytesToHex share) = share.
Proof.
  intros Hb. split; exact (hexToShare_shareToHex share Hb).
Qed.

Lemma X1_hex_roundtrip_witness :
  Hex.hexToShare (Hex.shareToHex [0; 1; 15; 16; 171; 255])
  = [0; 1; 15; 16; 171; 255].
Proof.
  apply (X1_hex_roundtrip [0; 1; 15; 16; 171; 255]).
  repeat constructor; lia.
Defined.

(** X2. The hex string of a byte array has two characters per byte, all of
    them among [0-9a-f]. *)
Theorem X2_shareToHex_shape (share : list Z) :
  Forall (fun b => 0 <= b < 256) share ->
  String.length (Hex.shareToHex share) = (2 * length share)%nat /\
  Forall (fun c => is_lower_hex c = true)
    (String.list_ascii_of_string (Hex.shareToHex share)).
Proof.
  intros Hb. split; [apply shareToHex_length, Hb|].
  induction Hb as [|b bs Hb0 _ IH]; [constructor|].
  rewrite shareToHex_cons.
  destruct (hex2_spec b Hb0) as (c1 & c2 & -> & H1 & H2 & _).
  rewrite append_two. cbn [String.list_ascii_of_string].
  repeat constructor; assumption.
Qed.

Lemma X2_shareToHex_shape_witness :
  String.length (Hex.shareToHex [7; 200]) = (2 * length [7; 200])%nat /\
  Forall (fun c => is_lower_hex c = true)
    (String.list_ascii_of_string (Hex.shareToHex [7; 200])).
Proof.
  apply (X2_shareToHex_shape [7; 200]). repeat constructor; lia.
Defined.

Lemma substring_append_l (s t : string) (i n : nat) :
  (i + n <= String.length s)%nat ->
  String.substring i n (s +:+ t) = String.substring i n s.
Proof.
  revert i n. induction s as [|c s IH]; intros i n H.
  - cbn [String.length] in H. assert (i = 0%nat) by lia.
    assert (n = 0%nat) by lia. subst.
    change (EmptyString +:+ t)%string with t. rewrite substring_0_0. reflexivity.
  - change (String c s +:+ t)%string with (String c (s +:+ t)).
    cbn [String.length] in H. destruct i as [|i].
    + destruct n as [|n]; [reflexivity|].
      cbn [String.substring]. f_equal. apply IH. lia.
    + cbn [String.substring]. apply IH. lia.
Qed.

Lemma append_length (s t : string) :
  String.length (s +:+ t) = (String.length s + String.length t)%nat.
Proof.
  induction s as [|c s IH]; [reflexivity|].
  change (String c s +:+ t)%string with (String c (s +:+ t)).
  cbn [String.length]. rewrite IH. reflexivity.
Qed.

(** X3. [hexToShare] accepts any string: the result has half the length of
    the input, rounded down, and holds bytes; a last odd character is
    ignored; and a pair whose first character is neither a hexadecimal
    digit, a sign nor white space is read as 0. *)
Theorem X3_hexToShare_lenient (hex : string) :
  length (Hex.hexToShare hex) = (String.length hex / 2)%nat /\
  Forall (fun b => 0 <= b < 256) (Hex.hexToShare hex) /\
  (forall c, Nat.even (String.length hex) = true ->
     Hex.hexToShare (hex +:+ String c EmptyString) = Hex.hexToShare hex) /\
  (forall k c1 c2,
     String.substring (2 * k) 2 hex = String c1 (String c2 EmptyString) ->
     Hex.digit16 c1 = None -> Hex.is_space c1 = false ->
     Hex.code c1 <> 45 -> Hex.code c1 <> 43 ->
     (k < String.length hex / 2)%nat ->
     Hex.hexToShare hex !! k = Some 0).
Proof.
  repeat apply conj.
  - rewrite hexToShare_pairs, length_fmap, length_seq. reflexivity.
  - rewrite hexToShare_pairs. apply Forall_fmap, Forall_forall.
    intros k _. cbn. apply Z.mod_pos_bound. lia.
  - intros c Hev. rewrite !hexToShare_pairs, append_length.
    cbn [String.length].
    apply Nat.even_spec in Hev as [m Hm]. rewrite Hm.
    replace ((2 * m + 1) / 2)%nat with m
      by (apply (Nat.div_unique _ 2 m 1); lia).
    replace (2 * m / 2)%nat with m by (rewrite Nat.mul_comm, Nat.div_mul; lia).
    apply list_fmap_ext. intros i k Hk. apply lookup_seq in Hk as [-> Hk].
    cbn [Nat.add]. rewrite substring_append_l by lia. reflexivity.
  - intros k c1 c2 E Hd Hs Hm Hp Hk.
    rewrite hexToShare_pairs, list_lookup_fmap, lookup_seq_lt by assumption.
    cbn [fmap option_fmap option_map Nat.add]. rewrite E.
    unfold Hex.parseInt16. cbn [Hex.trimStart]. rewrite Hs.
    destruct (Z.eqb_spec (Hex.code c1) 45); [contradiction|].
    destruct (Z.eqb_spec (Hex.code c1) 43); [contradiction|].
    assert (H48 : (Hex.code c1 =? 48) = false).
    { apply Z.eqb_neq. intros E48. unfold Hex.digit16 in Hd.
      rewrite E48 in Hd. discriminate Hd. }
    rewrite H48. cbn [andb Hex.digits16]. rewrite Hd. reflexivity.
Qed.

Example hexToShare_examples :
  Hex.hexToShare "0a1" = [10] /\ Hex.hexToShare "zz7f" = [0; 127] /\
  Hex.hexToShare "" = [].
Proof. repeat split; reflexivity. Qed.

(** ** More on the Shamir module *)

(** X4. [reconstructSecret] returns the secret from any number of distinct
    shares of [splitSecret] that is at least the threshold, in any order. *)
Theorem X4_reconstruct_from_more_shares (src : entropy) (cur : nat)
    (secret : list Z) (n k : Z) (idx : list nat) :
  Forall (fun z => is_byte z = true) secret ->
  2 <= k <= n -> n <= 255 ->
  NoDup idx -> (Z.to_nat k <= length idx)%nat ->
  Forall (fun i => (i < Z.to_nat n)%nat) idx ->
  exists shares cur',
    Shamir.splitSecret src cur secret n k = Return (shares, cur') /\
    Shamir.reconstructSecret (pick shares idx) = Return secret.
Proof.
  intros Hsec Hk Hn Hnd Hlen Hidx.
  eexists _, _. split; [apply splitSecret_spec; assumption|].
  apply reconstruct_split; assumption.
Qed.

Lemma X4_reconstruct_from_more_shares_witness :
  exists shares cur',
    Shamir.splitSecret demo_src 0 [10; 200; 33] 5 2 = Return (shares, cur') /\
    Shamir.reconstructSecret (pick shares [4; 0; 2; 1]%nat)
    = Return [10; 200; 33].
Proof.
  apply (X4_reconstruct_from_more_shares demo_src 0 [10; 200; 33] 5 2
           [4; 0; 2; 1]%nat).
  - repeat constructor.
  - lia.
  - lia.
  - repeat constructor; rewrite ?elem_of_cons, ?elem_of_nil; lia.
  - cbn. lia.
  - repeat constructor; cbn; lia.
Defined.

(** X5. On bytes, [gfMul] with XOR as addition obeys the laws of a field:
    the product is a byte, multiplication is commutative and associative,
    distributes over XOR, has 1 as unit, and a product is 0 only when a
    factor is 0. *)
Theorem X5_gfMul_field_laws (a b c : Z) :
  0 <= a < 256 -> 0 <= b < 256 -> 0 <= c < 256 ->
  (exists p, Shamir.gfMul (Some a) (Some b) = Some p /\ 0 <= p < 256) /\
  Shamir.gfMul (Some a) (Some b) = Shamir.gfMul (Some b) (Some a) /\
  Shamir.gfMul (Shamir.gfMul (Some a) (Some b)) (Some c)
  = Shamir.gfMul (Some a) (Shamir.gfMul (Some b) (Some c)) /\
  Shamir.gfMul (Some a) (Some (js_xor (Some b) (Some c)))
  = Some (js_xor (Shamir.gfMul (Some a) (Some b))
                 (Shamir.gfMul (Some a) (Some c))) /\
  Shamir.gfMul (Some 1) (Some a) = Some a /\
  (Shamir.gfMul (Some a) (Some b) = Some 0 <-> a = 0 \/ b = 0).
Proof.
  intros Ha Hb Hc.
  pose proof (gmul_range a b Ha Hb) as Hab.
  pose proof (gmul_range b c Hb Hc) as Hbc.
  repeat apply conj.
  - exists (gmul a b). split; [apply gfMul_gmul; assumption | exact Hab].
  - rewrite !gfMul_gmul by assumption. f_equal. apply gmul_comm.
  - rewrite (gfMul_gmul a b), (gfMul_gmul b c) by assumption.
    rewrite !gfMul_gmul by assumption. f_equal. symmetry.
    apply gmul_assoc; assumption.
  - unfold js_xor. cbn [to_int32].
    rewrite !gfMul_gmul by (try apply lxor_range; assumption).
    cbn [to_int32]. f_equal. apply gmul_lxor_r; assumption.
  - rewrite gfMul_gmul by lia. f_equal. apply gmul_1_l, Ha.
  - intros E. rewrite gfMul_gmul in E by assumption. injection E as E.
    destruct (Z.eq_dec a 0) as [|Hna]; [left; assumption|].
    destruct (Z.eq_dec b 0) as [|Hnb]; [right; assumption|].
    exfalso. apply (gmul_neq_0 a b); lia.
  - intros [-> | ->]; [apply gfMul_zero_l | apply gfMul_zero_r].
Qed.

Lemma X5_gfMul_field_laws_witness :
  Shamir.gfMul (Some 87) (Some 131) = Shamir.gfMul (Some 131) (Some 87).
Proof. apply (X5_gfMul_field_laws 87 131 2); lia. Defined.

(** A polynomial of degree 1, as [splitSecret] builds it for threshold 2. *)
Lemma evaluatePolynomial_linear (s c x : Z) :
  0 <= s < 256 -> 0 <= c < 256 -> 0 <= x < 256 ->
  Shamir.evaluatePolynomial [s; c] x = Z.lxor (gmul c x) s.
Proof.
  intros Hs Hc Hx. unfold Shamir.evaluatePolynomial.
  cbn [length seq rev app fold_left].
  rewrite gfMul_zero_l.
  change (u8_get [s; c] (Some (Z.of_nat 1))) with (Some c).
  change (u8_get [s; c] (Some (Z.of_nat 0))) with (Some s).
  unfold js_xor at 2. cbn [to_int32]. rewrite Z.lxor_0_l.
  rewrite gfMul_gmul by assumption. reflexivity.
Qed.

Definition secret_byte (secret : list Z) (b : nat) : Z :=
  to_int32 (u8_get secret (Some (Z.of_nat b))) mod 256.

Lemma coefficients_of_two src cur secret b :
  coefficients_of src cur secret 2 b
  = [secret_byte secret b; src (cur + b)%nat mod 256].
Proof.
  unfold coefficients_of, secret_byte.
  change (Z.to_nat 2 - 1)%nat with 1%nat. rewrite Nat.mul_1_r. reflexivity.
Qed.

(** The random stream under which [secret'] gets the share of index [i]
    that [secret] gets under [src]. *)
Definition masking_stream (src : entropy) (cur : nat) (secret secret' : list Z)
    (i : nat) : entropy :=
  fun t =>
    let b := (t - cur)%nat in
    let x := Z.of_nat i + 1 in
    gdiv (Z.lxor (Z.lxor (gmul (src t mod 256) x) (secret_byte secret b))
                 (secret_byte secret' b)) x.

(** X6. With threshold 2 one share says nothing about the secret: for any
    other secret of the same length there is a random stream under which
    [splitSecret] gives that secret the very same share. *)
Theorem X6_single_share_hides_secret (src : entropy) (cur : nat)
    (secret secret' : list Z) (n : Z) (i : nat) :
  length secret' = length secret -> 2 <= n <= 255 -> (i < Z.to_nat n)%nat ->
  exists src' shares cur1 shares' cur2 share,
    Shamir.splitSecret src cur secret n 2 = Return (shares, cur1) /\
    Shamir.splitSecret src' cur secret' n 2 = Return (shares', cur2) /\
    shares !! i = Some share /\ shares' !! i = Some share.
Proof.
  intros Hlen Hn Hi.
  exists (masking_stream src cur secret secret' i).
  eexists _, _, _, _, _.
  split; [apply splitSecret_spec; lia|].
  split; [apply splitSecret_spec; lia|].
  rewrite !list_lookup_fmap, !lookup_seq_lt by assumption.
  cbn [fmap option_fmap option_map Nat.add].
  split; [reflexivity|]. f_equal.
  unfold share_upto. rewrite Hlen. f_equal. f_equal.
  apply list_fmap_ext. intros _ b _.
  rewrite !coefficients_of_two.
  assert (Hx : 0 < Z.of_nat i + 1 < 256) by lia.
  assert (Hs : 0 <= secret_byte secret b < 256)
    by (apply Z.mod_pos_bound; lia).
  assert (Hs' : 0 <= secret_byte secret' b < 256)
    by (apply Z.mod_pos_bound; lia).
  assert (Hc : 0 <= src (cur + b)%nat mod 256 < 256)
    by (apply Z.mod_pos_bound; lia).
  pose proof (gmul_range _ (Z.of_nat i + 1) Hc ltac:(lia)) as Hm.
  pose proof (lxor_range _ _ Hm Hs) as Hy.
  pose proof (lxor_range _ _ Hy Hs') as Hz.
  unfold masking_stream. replace (cur + b - cur)%nat with b by lia.
  pose proof (gdiv_range _ _ Hz Hx) as Hd.
  rewrite (Z.mod_small (gdiv _ _)) by exact Hd.
  rewrite !evaluatePolynomial_linear by (assumption || lia).
  rewrite gmul_gdiv_cancel by assumption.
  rewrite Z.lxor_assoc, Z.lxor_nilpotent, Z.lxor_0_r. reflexivity.
Qed.

Lemma X6_single_share_hides_secret_witness :
  exists src' shares cur1 shares' cur2 share,
    Shamir.splitSecret demo_src 0 [10; 200] 3 2 = Return (shares, cur1) /\
    Shamir.splitSecret src' 0 [77; 1] 3 2 = Return (shares', cur2) /\
    shares !! 1%nat = Some share /\ shares' !! 1%nat = Some share.
Proof.
  apply (X6_single_share_hides_secret demo_src 0 [10; 200] [77; 1] 3 1);
    [reflexivity | lia | cbn; lia].
Defined.

(** ** Upload, release and recovery of a key *)




(** ** The stores of the server *)


Lemma store_get_push_ne {A} (store : list (string * list A)) (a b : string)
    (x : A) :
  a <> b ->
  Server.store_get (Server.store_push store a x) b = Server.store_get store b.
Proof.
  intros Hab. unfold Server.store_get.
  induction store as [|[c l] store IH]; cbn [Server.store_push List.find fst snd].
  - apply String.eqb_neq in Hab. rewrite Hab. reflexivity.
  - destruct (String.eqb c a) eqn:E; cbn [List.find fst snd].
    + apply String.eqb_eq in E. subst c.
      apply String.eqb_neq in Hab. rewrite Hab. reflexivity.
    + destruct (String.eqb c b); [reflexivity | exact IH].
Qed.

Lemma find_app_last {A} (p : A -> bool) (l : list A) (x : A) :
  Forall (fun y => p y = false) l -> p x = true ->
  List.find p (l ++ [x]) = Some x.
Proof.
  intros Hl Hx. induction Hl as [|y l Hy _ IH]; cbn [app List.find].
  - rewrite Hx. reflexivity.
  - rewrite Hy. exact IH.
Qed.

Lemma find_app_first {A} (p : A -> bool) (l : list A) (x y : A) :
  List.find p l = Some y -> List.find p (l ++ [x]) = Some y.
Proof.
  induction l as [|z l IH]; cbn [app List.find]; [discriminate|].
  destruct (p z); [trivial | exact IH].
Qed.

Lemma or_null_Some (s : string) : s <> EmptyString ->
  KeyRelease.or_null (Some s) = Some s.
Proof.
  intros Hs. cbn. destruct (String.eqb_spec s ""); [contradiction | reflexivity].
Qed.

Lemma or_null_idem (x : option string) :
  KeyRelease.or_null (KeyRelease.or_null x) = KeyRelease.or_null x.
Proof.
  destruct x as [s|]; [|reflexivity]. cbn.
  destruct (String.eqb s "") eqn:E; [reflexivity|]. cbn. rewrite E. reflexivity.
Qed.


Definition demo_keyBytes : list Z := [10; 200; 33; 0].

Definition demo_shareHexes : list string :=
  Hex.shareToHex
    <$> (share_upto demo_src 0 demo_keyBytes 2 (length demo_keyBytes)
           <$> seq 0 3).

Definition demo_file : Server.UploadedFile :=
  {| Server.originalname := "a.txt"; Server.u_size := 16;
     Server.mimetype := "text/plain" |}.


(** X8. When fewer than three shares are stored, even two, the release
    gives out none of them and draws no random number, and the page takes
    the key the server stored in clear, if any. *)
Theorem X8_direct_key_fallback (rnd : KeyRelease.random) (cur : nat)
    (allShares : list string) (storedKey : option string) :
  (length allShares < 3)%nat ->
  KeyRelease.release rnd cur allShares = ([], [], None, cur) /\
  Client.recoverKeyHex
    {| KeyRelease.encryptionKey := KeyRelease.or_null storedKey;
       KeyRelease.shares := (KeyRelease.release rnd cur allShares).1.1.1;
       KeyRelease.releasedNodes := (KeyRelease.release rnd cur allShares).1.1.2;
       KeyRelease.threshold := 2;
       KeyRelease.totalShares := 3 |}
  = Return (KeyRelease.or_null storedKey).
Proof.
  intros Hlen.
  assert (E : KeyRelease.release rnd cur allShares = ([], [], None, cur)).
  { unfold KeyRelease.release.
    destruct (Nat.leb_spec 3 (length allShares)); [lia | reflexivity]. }
  split; [exact E|]. rewrite E. unfold Client.recoverKeyHex.
  cbn [fst snd KeyRelease.shares KeyRelease.encryptionKey length Nat.leb].
  destruct storedKey as [k|]; [|reflexivity].
  cbn [KeyRelease.or_null]. destruct (String.eqb k "") eqn:Ek; [reflexivity|].
  rewrite Ek. reflexivity.
Qed.

Lemma X8_direct_key_fallback_witness :
  Client.recoverKeyHex
    {| KeyRelease.encryptionKey := KeyRelease.or_null (Some "0aff"%string);
       KeyRelease.shares :=
         (KeyRelease.release demo_rnd 0 ["01aa"; "02bb"]%string).1.1.1;
       KeyRelease.releasedNodes :=
         (KeyRelease.release demo_rnd 0 ["01aa"; "02bb"]%string).1.1.2;
       KeyRelease.threshold := 2;
       KeyRelease.totalShares := 3 |}
  = Return (KeyRelease.or_null (Some "0aff"%string)).
Proof.
  apply (X8_direct_key_fallback demo_rnd 0 ["01aa"; "02bb"]%string
           (Some "0aff"%string)).
  cbn. lia.
Defined.

Lemma lower_hex_not_terminator (c : Ascii.ascii) :
  is_lower_hex c = true -> Hex.is_line_terminator c = false.
Proof.
  unfold is_lower_hex, Hex.is_line_terminator.
  generalize (Hex.code c). intros n H.
  destruct (Z.eqb_spec n 10) as [->|]; [discriminate H|].
  destruct (Z.eqb_spec n 13) as [->|]; [discriminate H|]. reflexivity.
Qed.

Lemma match_pairs_shareToHex (bytes : list Z) :
  Forall (fun b => 0 <= b < 256) bytes ->
  Hex.match_pairs (Hex.shareToHex bytes) = hex2 <$> bytes.
Proof.
  induction 1 as [|b bs Hb _ IH]; [reflexivity|].
  rewrite shareToHex_cons.
  destruct (hex2_spec b Hb) as (c1 & c2 & E & H1 & H2 & _).
  rewrite E, append_two. cbn [Hex.match_pairs fmap list_fmap].
  rewrite (lower_hex_not_terminator c1 H1), (lower_hex_not_terminator c2 H2).
  rewrite E. f_equal. exact IH.
Qed.

Lemma parse_hex2 (bytes : list Z) :
  Forall (fun b => 0 <= b < 256) bytes ->
  map (fun h => to_int32 (Hex.parseInt16 h) mod 256) (hex2 <$> bytes) = bytes.
Proof.
  induction 1 as [|x xs Hx _ IH]; [reflexivity|].
  cbn [fmap list_fmap map]. f_equal; [|exact IH].
  destruct (hex2_spec x Hx) as (c1 & c2 & E & _ & _ & P).
  rewrite E, P. apply Z.mod_small, Hx.
Qed.

Lemma pairsToBytes_hex (bytes : list Z) :
  Forall (fun b => 0 <= b < 256) bytes -> bytes <> [] ->
  Hex.pairsToBytes (Hex.bytesToHex bytes) = Return bytes.
Proof.
  intros Hb Hne. unfold Hex.pairsToBytes.
  change (Hex.bytesToHex bytes) with (Hex.shareToHex bytes).
  rewrite (match_pairs_shareToHex bytes Hb).
  pose proof (parse_hex2 bytes Hb) as P.
  destruct bytes as [|b bs]; [contradiction|].
  cbn [fmap list_fmap] in *. rewrite P. reflexivity.
Qed.

(** X9. The pages and the server decode a hex key or share with a regular
    expression: on the hex of a byte array that is not empty this gives
    the array back, and on the empty string it throws. *)
Theorem X9_pairsToBytes_inverts_hex (bytes : list Z) :
  Forall (fun b => 0 <= b < 256) bytes ->
  Hex.pairsToBytes (Hex.bytesToHex bytes)
  = match bytes with
    | [] => Throw "Cannot read properties of null (reading 'map')"
    | _ => Return bytes
    end.
Proof.
  intros Hb. unfold Hex.pairsToBytes.
  change (Hex.bytesToHex bytes) with (Hex.shareToHex bytes).
  rewrite (match_pairs_shareToHex bytes Hb).
  pose proof (parse_hex2 bytes Hb) as P.
  destruct bytes as [|b bs]; [reflexivity|].
  cbn [fmap list_fmap] in *. rewrite P. reflexivity.
Qed.

Lemma X9_pairsToBytes_inverts_hex_witness :
  Hex.pairsToBytes (Hex.bytesToHex [0; 10; 255]) = Return [0; 10; 255].
Proof.
  apply (X9_pairsToBytes_inverts_hex [0; 10; 255]). repeat constructor; lia.
Defined.

(** ** Files under the symmetric cipher *)

Section FileCipher.

Variable CryptoKey : Type.
Variable subtle_encrypt : list Z -> CryptoKey -> list Z -> outcome (list Z).
Variable subtle_decrypt : list Z -> CryptoKey -> list Z -> outcome (list Z).
Variable subtle_generateKey : nat -> outcome CryptoKey.
Variable subtle_exportKey : CryptoKey -> outcome (list Z).
Variable subtle_importKey : list Z -> outcome CryptoKey.

Lemma file_roundtrip (src : entropy) (cur kcur : nat)
    (fileData raw : list Z) (key key' : CryptoKey) :
  (forall iv k m, length iv = 12%nat ->
     exists c, subtle_encrypt iv k m = Return c /\
               subtle_decrypt iv k c = Return m) ->
  subtle_generateKey kcur = Return key ->
  subtle_exportKey key = Return raw ->
  u8 raw -> raw <> [] ->
  subtle_importKey raw = Return key' ->
  (forall iv c, subtle_decrypt iv key' c = subtle_decrypt iv key c) ->
  exists ciphertext,
    let iv := (fun t => src t mod 256) <$> seq cur 12 in
    AesFile.encryptFile CryptoKey subtle_encrypt subtle_generateKey
      subtle_exportKey src cur kcur fileData
    = Return (iv ++ ciphertext, raw, (cur + 12)%nat, S kcur) /\
    AesFile.decryptFile CryptoKey subtle_decrypt subtle_importKey
      (iv ++ ciphertext) raw = Return fileData /\
    AesFile.decryptDownload CryptoKey subtle_decrypt subtle_importKey
      (Some (Hex.bytesToHex raw)) (iv ++ ciphertext) = Return fileData.
Proof.
  intros Hgcm Hgen Hexp Hraw Hne Himp Hsame.
  set (iv := (fun t => src t mod 256) <$> seq cur 12).
  assert (Hliv : length iv = 12%nat)
    by (unfold iv; rewrite length_fmap, length_seq; reflexivity).
  destruct (Hgcm iv key fileData Hliv) as (c & Eenc & Edec).
  exists c. cbv zeta. fold iv.
  assert (Hdec : AesFile.decryptFile CryptoKey subtle_decrypt subtle_importKey
                   (iv ++ c) raw = Return fileData).
  { unfold AesFile.decryptFile, AesFile.importAESKey. rewrite Himp.
    cbn [mbind outcome_bind]. unfold Aes.decryptAES.
    rewrite take_app_length', drop_app_length' by (symmetry; exact Hliv).
    rewrite Hsame. exact Edec. }
  repeat apply conj.
  - unfold AesFile.encryptFile, AesFile.generateAESKey, AesFile.exportAESKey.
    rewrite Hgen. cbn [mbind outcome_bind mret outcome_ret]. rewrite Hexp.
    cbn [mbind outcome_bind]. unfold Aes.encryptAES.
    change (getRandomValues src cur (u8_new 12) 0)
      with (Nodes.randomBytes src cur 12).
    rewrite randomBytes_eq. fold iv. rewrite Eenc.
    cbn [mbind outcome_bind]. rewrite u8_set_all_concat. reflexivity.
  - exact Hdec.
  - unfold AesFile.decryptDownload.
    assert (Hhex : String.eqb (Hex.bytesToHex raw) "" = false).
    { apply String.eqb_neq. intros E.
      pose proof (shareToHex_length raw Hraw) as Hl.
      change (Hex.shareToHex raw) with (Hex.bytesToHex raw) in Hl.
      rewrite E in Hl. destruct raw; [contradiction | discriminate Hl]. }
    rewrite Hhex, (pairsToBytes_hex raw Hraw Hne). exact Hdec.
Qed.


(** X10. Provided AES-GCM decryption inverts encryption and the imported
    raw key decrypts as the generated one: [encryptFile] returns the
    12-byte IV followed by the ciphertext, with the raw key; [decryptFile]
    on that blob and key returns the file; and so does the download step
    of the pages from the hex of the key. *)
Theorem X10_file_roundtrip (src : entropy) (cur kcur : nat)
    (fileData raw : list Z) (key key' : CryptoKey) :
  (forall iv k m, length iv = 12%nat ->
     exists c, subtle_encrypt iv k m = Return c /\
               subtle_decrypt iv k c = Return m) ->
  subtle_generateKey kcur = Return key ->
  subtle_exportKey key = Return raw ->
  u8 raw -> raw <> [] ->
  subtle_importKey raw = Return key' ->
  (forall iv c, subtle_decrypt iv key' c = subtle_decrypt iv key c) ->
  exists ciphertext,
    let iv := (fun t => src t mod 256) <$> seq cur 12 in
    AesFile.encryptFile CryptoKey subtle_encrypt subtle_generateKey
      subtle_exportKey src cur kcur fileData
    = Return (iv ++ ciphertext, raw, (cur + 12)%nat, S kcur) /\
    AesFile.decryptFile CryptoKey subtle_decrypt subtle_importKey
      (iv ++ ciphertext) raw = Return fileData /\
    AesFile.decryptDownload CryptoKey subtle_decrypt subtle_importKey
      (Some (Hex.bytesToHex raw)) (iv ++ ciphertext) = Return fileData.
Proof.
  intros Hgcm Hgen Hexp Hraw Hne Himp Hsame.
  exact (file_roundtrip src cur kcur fileData raw key key'
           Hgcm Hgen Hexp Hraw Hne Himp Hsame).
Qed.

End FileCipher.

Lemma X10_file_roundtrip_witness :
  exists ciphertext,
    let iv := (fun t => demo_src t mod 256) <$> seq 0 12 in
    AesFile.encryptFile Z toy_encrypt (fun _ => Return 7)
      (fun k => Return [k]) demo_src 0 0 [104; 105]
    = Return (iv ++ ciphertext, [7], (0 + 12)%nat, 1%nat) /\
    AesFile.decryptFile Z toy_decrypt (fun raw => Return (hd 0 raw))
      (iv ++ ciphertext) [7] = Return [104; 105] /\
    AesFile.decryptDownload Z toy_decrypt (fun raw => Return (hd 0 raw))
      (Some (Hex.bytesToHex [7])) (iv ++ ciphertext) = Return [104; 105].
Proof.
  apply (X10_file_roundtrip Z toy_encrypt toy_decrypt (fun _ => Return 7)
           (fun k => Return [k]) (fun raw => Return (hd 0 raw))
           demo_src 0 0 [104; 105] [7] 7 7).
  - exact toy_cipher_inverse.
  - reflexivity.
  - reflexivity.
  - repeat constructor; lia.
  - discriminate.
  - reflexivity.
  - reflexivity.
Defined.

(** ** Base64 of byte arrays *)

Lemma get_string_of_list (l : list Ascii.ascii) (i : nat) :
  String.get i (String.string_of_list_ascii l) = l !! i.
Proof.
  revert i. induction l as [|c l IH]; intros [|i]; try reflexivity.
  cbn [String.string_of_list_ascii String.get lookup list_lookup]. apply IH.
Qed.

Lemma string_of_list_app (l1 l2 : list Ascii.ascii) :
  String.string_of_list_ascii (l1 ++ l2)
  = (String.string_of_list_ascii l1 +:+ String.string_of_list_ascii l2)%string.
Proof.
  induction l1 as [|c l1 IH]; [reflexivity|].
  cbn [app String.string_of_list_ascii].
  change (String c ?x +:+ ?y)%string with (String c (x +:+ y)).
  rewrite IH. reflexivity.
Qed.

Lemma binary_loop (bytes : list Z) :
  fold_left
    (fun binary i =>
       (binary +:+ String (Base64.fromCharCode
                             (to_int32 (u8_get bytes (Some (Z.of_nat i)))))
                     EmptyString)%string)
    (seq 0 (length bytes)) EmptyString
  = String.string_of_list_ascii (Base64.fromCharCode <$> bytes).
Proof.
  assert (G : forall n, (n <= length bytes)%nat ->
    fold_left
      (fun binary i =>
         (binary +:+ String (Base64.fromCharCode
                               (to_int32 (u8_get bytes (Some (Z.of_nat i)))))
                       EmptyString)%string)
      (seq 0 n) EmptyString
    = String.string_of_list_ascii (Base64.fromCharCode <$> take n bytes)).
  { induction n as [|n IH]; intros Hn; [reflexivity|].
    rewrite seq_S, fold_left_app, IH by lia. cbn [fold_left Nat.add].
    rewrite u8_get_nat.
    destruct (lookup_lt_is_Some_2 bytes n ltac:(lia)) as [b Hb].
    rewrite Hb, (take_S_r bytes n b Hb), fmap_app, string_of_list_app.
    reflexivity. }
  rewrite G by lia. rewrite firstn_all. reflexivity.
Qed.

Lemma charCode_fromCharCode (b : Z) : 0 <= b < 256 ->
  Base64.charCode (Base64.fromCharCode b) = b.
Proof.
  intros Hb. unfold Base64.charCode, Base64.fromCharCode.
  rewrite Z.mod_small by exact Hb.
  rewrite Ascii.N_ascii_embedding.
  - apply Z2N.id. lia.
  - change 256%N with (Z.to_N 256). apply Z2N.inj_lt; lia.
Qed.

Lemma length_string_of_list (l : list Ascii.ascii) :
  String.length (String.string_of_list_ascii l) = length l.
Proof. induction l as [|c l IH]; [reflexivity|]. cbn. rewrite IH. reflexivity. Qed.

Section Base64Claim.

Variable btoa : string -> outcome string.
Variable atob : string -> outcome string.

(** X11. Provided [atob] inverts [btoa], [base64ToBytes] inverts
    [bytesToBase64] on byte arrays. *)
Theorem X11_base64_roundtrip (bytes : list Z) :
  (forall s, exists e, btoa s = Return e /\ atob e = Return s) ->
  u8 bytes ->
  exists e, Base64.bytesToBase64 btoa bytes = Return e /\
            Base64.base64ToBytes atob e = Return bytes.
Proof.
  intros Hb64 Hu8.
  destruct (Hb64 (String.string_of_list_ascii (Base64.fromCharCode <$> bytes)))
    as (e & Eenc & Edec).
  exists e. split.
  - unfold Base64.bytesToBase64. rewrite binary_loop. exact Eenc.
  - unfold Base64.base64ToBytes. rewrite Edec. cbn [mbind outcome_bind].
    f_equal. rewrite length_string_of_list, length_fmap.
    rewrite (fold_left_ext_in _
      (fun bytes0 k =>
         u8_set bytes0 (2 * k / 2)
           (match String.get k
                    (String.string_of_list_ascii (Base64.fromCharCode <$> bytes))
            with Some c => Base64.charCode c | None => 0 end))).
    2:{ intros a x _. replace (2 * x / 2)%nat with x
          by (rewrite Nat.mul_comm, Nat.div_mul; lia). reflexivity. }
    rewrite fill_pairs, Nat.min_id, Nat.sub_diag. cbn [replicate].
    rewrite app_nil_r. apply list_eq. intros k.
    rewrite list_lookup_fmap.
    destruct (bytes !! k) as [b|] eqn:Hk.
    + rewrite lookup_seq_lt by (eapply lookup_lt_Some; exact Hk).
      cbn [fmap option_fmap option_map Nat.add].
      rewrite get_string_of_list, list_lookup_fmap, Hk.
      cbn [fmap option_fmap option_map].
      pose proof (Forall_lookup_1 _ bytes k b Hu8 Hk) as Hr. cbn beta in Hr.
      rewrite charCode_fromCharCode by exact Hr.
      f_equal. apply Z.mod_small, Hr.
    + rewrite lookup_seq_ge by (apply lookup_ge_None; exact Hk). reflexivity.
Qed.

End Base64Claim.

Lemma X11_base64_roundtrip_witness :
  exists e, Base64.bytesToBase64 (fun s => Return s) [0; 65; 255] = Return e /\
            Base64.base64ToBytes (fun s => Return s) e = Return [0; 65; 255].
Proof.
  apply (X11_base64_roundtrip (fun s => Return s) (fun s => Return s)
           [0; 65; 255]).
  - intros s. exists s. split; reflexivity.
  - repeat constructor; lia.
Defined.

(** ** Key pairs and the token in [localStorage] *)

Lemma string_app_inv_head (p a b : string) :
  (p +:+ a = p +:+ b)%string -> a = b.
Proof.
  induction p as [|c p IH]; [trivial|].
  change (String c p +:+ ?x)%string with (String c (p +:+ x)).
  intros E. injection E as E. exact (IH E).
Qed.

Lemma jwt_key_not_pair (a : string) :
  "blocksafe_jwt"%string <> (Storage.KEY_STORAGE_PREFIX +:+ a)%string.
Proof. intros E. vm_compute in E. discriminate E. Qed.

Section StorageClaim.

Variable JSON_stringify : Storage.X25519KeyPair -> string.
Variable JSON_parse : string -> outcome Storage.X25519KeyPair.

(** X12. Provided [JSON.parse] inverts [JSON.stringify] on a key pair:
    after [saveKeyPair] for an address, [loadKeyPair] returns the pair and
    [hasKeyPair] holds for it; the pairs of other addresses and the token
    are untouched; and neither setting nor clearing the token loses the
    pair. *)
Theorem X12_key_pair_storage (st : Storage.localStorage)
    (walletAddress : string) (keyPair : Storage.X25519KeyPair) :
  JSON_stringify keyPair <> EmptyString ->
  JSON_parse (JSON_stringify keyPair) = Return keyPair ->
  let st' := Storage.saveKeyPair JSON_stringify st walletAddress keyPair in
  Storage.loadKeyPair JSON_parse st' walletAddress = Return (Some keyPair) /\
  Storage.hasKeyPair st' walletAddress = true /\
  (forall other, other <> walletAddress ->
     Storage.loadKeyPair JSON_parse st' other
     = Storage.loadKeyPair JSON_parse st other /\
     Storage.hasKeyPair st' other = Storage.hasKeyPair st other) /\
  Storage.getAuthToken st' = Storage.getAuthToken st /\
  (forall token,
     Storage.loadKeyPair JSON_parse (Storage.setAuthToken st' token)
       walletAddress = Return (Some keyPair)) /\
  Storage.loadKeyPair JSON_parse (Storage.clearAuthToken st') walletAddress
  = Return (Some keyPair) /\
  Storage.isAuthenticated (Storage.clearAuthToken st') = false.
Proof.
  intros Hne Hparse st'.
  assert (Hload : forall s : Storage.localStorage,
            s !! (Storage.KEY_STORAGE_PREFIX +:+ walletAddress)%string
            = Some (JSON_stringify keyPair) ->
            Storage.loadKeyPair JSON_parse s walletAddress
            = Return (Some keyPair)).
  { intros s Hs. unfold Storage.loadKeyPair, Storage.getItem. rewrite Hs.
    apply String.eqb_neq in Hne. rewrite Hne, Hparse. reflexivity. }
  assert (Hst' : st' !! (Storage.KEY_STORAGE_PREFIX +:+ walletAddress)%string
                 = Some (JSON_stringify keyPair))
    by apply lookup_insert_eq.
  repeat apply conj.
  - apply Hload, Hst'.
  - unfold Storage.hasKeyPair, Storage.getItem. rewrite Hst'.
    apply bool_decide_eq_true. discriminate.
  - intros other Hother.
    assert (E : st' !! (Storage.KEY_STORAGE_PREFIX +:+ other)%string
                = st !! (Storage.KEY_STORAGE_PREFIX +:+ other)%string).
    { apply lookup_insert_ne. intros E. apply Hother. symmetry.
      exact (string_app_inv_head _ _ _ E). }
    unfold Storage.loadKeyPair, Storage.hasKeyPair, Storage.getItem.
    rewrite E. split; reflexivity.
  - unfold Storage.getAuthToken, Storage.getItem.
    apply lookup_insert_ne. intros E. symmetry in E.
    exact (jwt_key_not_pair _ E).
  - intros token. apply Hload.
    unfold Storage.setAuthToken, Storage.setItem.
    etrans; [apply lookup_insert_ne, jwt_key_not_pair | exact Hst'].
  - apply Hload. unfold Storage.clearAuthToken, Storage.removeItem.
    etrans; [apply lookup_delete_ne, jwt_key_not_pair | exact Hst'].
  - unfold Storage.isAuthenticated, Storage.clearAuthToken, Storage.removeItem,
      Storage.getItem.
    etrans; [apply (f_equal Nodes.truthy), lookup_delete_eq | reflexivity].
Qed.

End StorageClaim.

(** A toy encoding of a key pair for the witness: the two keys with a
    bar between them, parsed for one pair only. *)
Definition toy_stringify (kp : Storage.X25519KeyPair) : string :=
  (Storage.publicKey kp +:+ "|" +:+ Storage.secretKey kp)%string.

Definition toy_parse (s : string) : outcome Storage.X25519KeyPair :=
  if String.eqb s "pk|sk"
  then Return {| Storage.publicKey := "pk"; Storage.secretKey := "sk" |}
  else Throw "Unexpected token".

Lemma X12_key_pair_storage_witness :
  Storage.loadKeyPair toy_parse
    (Storage.saveKeyPair toy_stringify ∅ "ADDR"
       {| Storage.publicKey := "pk"; Storage.secretKey := "sk" |}) "ADDR"
  = Return (Some {| Storage.publicKey := "pk"; Storage.secretKey := "sk" |}).
Proof.
  refine (proj1 (X12_key_pair_storage toy_stringify toy_parse ∅ "ADDR"
                   {| Storage.publicKey := "pk"; Storage.secretKey := "sk" |}
                   _ _)).
  - discriminate.
  - reflexivity.
Defined.

(** ** Secret boxes *)

Section SecretBoxClaim.

Variable decodeBase64 : string -> outcome (list Z).
Variable encodeBase64 : list Z -> string.
Variable nacl_secretbox : list Z -> list Z -> list Z -> outcome (list Z).
Variable nacl_secretbox_open :
  list Z -> list Z -> list Z -> outcome (option (list Z)).

(** X13. Provided base64 decoding inverts encoding on byte arrays and a
    secret box made with a 24-byte nonce and a 32-byte key is a byte array
    that opens under the same nonce and key: for a 32-byte key,
    [decryptWithSharedSecret] returns the data that
    [encryptWithSharedSecret] sealed, the nonce being the next 24 random
    bytes. Whenever the primitive refuses a box,
    [decryptWithSharedSecret] throws and returns no data; and when the
    primitive throws, as it does on a key of another size,
    [encryptWithSharedSecret] throws the same error. *)
Theorem X13_secretbox_roundtrip (src : entropy) (cur : nat)
    (data secretKey : list Z) :
  (forall b, u8 b -> decodeBase64 (encodeBase64 b) = Return b) ->
  (forall m n k, u8 m -> u8 k -> length n = 24%nat -> length k = 32%nat ->
     exists c, nacl_secretbox m n k = Return c /\ u8 c /\
               nacl_secretbox_open c n k = Return (Some m)) ->
  u8 data -> u8 secretKey -> length secretKey = 32%nat ->
  (exists c,
     let nonce := (fun t => src t mod 256) <$> seq cur 24 in
     SecretBox.encryptWithSharedSecret encodeBase64 nacl_secretbox src cur
       data secretKey
     = Return ({| Nodes.nonce := encodeBase64 nonce;
                  Nodes.encrypted := encodeBase64 c |}, (cur + 24)%nat) /\
     SecretBox.decryptWithSharedSecret decodeBase64 nacl_secretbox_open
       (encodeBase64 c) (encodeBase64 nonce) secretKey = Return data) /\
  (forall e n k be bn,
     decodeBase64 e = Return be -> decodeBase64 n = Return bn ->
     nacl_secretbox_open be bn k = Return None ->
     SecretBox.decryptWithSharedSecret decodeBase64 nacl_secretbox_open e n k
     = Throw "Secretbox decryption failed") /\
  (forall k msg,
     nacl_secretbox data ((fun t => src t mod 256) <$> seq cur 24) k
     = Throw msg ->
     SecretBox.encryptWithSharedSecret encodeBase64 nacl_secretbox src cur
       data k
     = Throw msg).
Proof.
  intros Hb64 Hbox Hd Hk Hlk. repeat apply conj.
  - pose proof (randomBytes_u8 src cur 24) as [Hnu Hnl].
    rewrite randomBytes_eq in Hnu, Hnl. cbn [fst] in Hnu, Hnl.
    destruct (Hbox data _ secretKey Hd Hk Hnl Hlk) as (c & Ebox & Hc & Eopen).
    exists c. cbv zeta. split.
    + unfold SecretBox.encryptWithSharedSecret.
      rewrite randomBytes_eq, Ebox. reflexivity.
    + unfold SecretBox.decryptWithSharedSecret.
      rewrite (Hb64 c Hc), (Hb64 _ Hnu). cbn [mbind outcome_bind].
      rewrite Eopen. reflexivity.
  - intros e n k be bn Ee En Eopen.
    unfold SecretBox.decryptWithSharedSecret.
    rewrite Ee, En. cbn [mbind outcome_bind]. rewrite Eopen. reflexivity.
  - intros k msg E. unfold SecretBox.encryptWithSharedSecret.
    rewrite randomBytes_eq, E. reflexivity.
Qed.

End SecretBoxClaim.

(** A toy secret box for the witness: the key in front of the data; like
    the library it throws on a key or nonce of the wrong size. *)
Definition toy_secretbox (m n k : list Z) : outcome (list Z) :=
  if (length k =? 32)%nat then
    if (length n =? 24)%nat then Return (k ++ m) else Throw "bad nonce size"
  else Throw "bad key size".

Definition toy_secretbox_open (c n k : list Z) : outcome (option (list Z)) :=
  if (length k =? 32)%nat then
    if (length n =? 24)%nat then
      Return (if decide (take 32 c = k) then Some (drop 32 c) else None)
    else Throw "bad nonce size"
  else Throw "bad key size".

Lemma toy_secretbox_contract (m n k : list Z) :
  u8 m -> u8 k -> length n = 24%nat -> length k = 32%nat ->
  exists c, toy_secretbox m n k = Return c /\ u8 c /\
            toy_secretbox_open c n k = Return (Some m).
Proof.
  intros Hm Hk Hn Hlk. exists (k ++ m).
  unfold toy_secretbox, toy_secretbox_open. rewrite Hlk, Hn.
  cbn [Nat.eqb]. split; [reflexivity|]. split.
  - apply Forall_app. split; assumption.
  - rewrite take_app_length', drop_app_length' by (symmetry; exact Hlk).
    rewrite decide_True by reflexivity. reflexivity.
Qed.

Lemma X13_secretbox_roundtrip_witness :
  (exists c,
     let nonce := (fun t => demo_src t mod 256) <$> seq 0 24 in
     SecretBox.encryptWithSharedSecret Toy.encodeBase64 toy_secretbox
       demo_src 0 [1; 2; 3] (demo_key 9)
     = Return ({| Nodes.nonce := Toy.encodeBase64 nonce;
                  Nodes.encrypted := Toy.encodeBase64 c |}, (0 + 24)%nat) /\
     SecretBox.decryptWithSharedSecret Toy.decodeBase64 toy_secretbox_open
       (Toy.encodeBase64 c) (Toy.encodeBase64 nonce) (demo_key 9)
     = Return [1; 2; 3]) /\
  SecretBox.decryptWithSharedSecret Toy.decodeBase64 toy_secretbox_open
    (Toy.encodeBase64 (demo_key 9 ++ [1; 2; 3]))
    (Toy.encodeBase64 ((fun t => demo_src t mod 256) <$> seq 0 24))
    (demo_key 8)
  = Throw "Secretbox decryption failed" /\
  SecretBox.encryptWithSharedSecret Toy.encodeBase64 toy_secretbox
    demo_src 0 [1; 2; 3] [9; 9]
  = Throw "bad key size".
Proof.
  destruct (X13_secretbox_roundtrip Toy.decodeBase64 Toy.encodeBase64
              toy_secretbox toy_secretbox_open demo_src 0 [1; 2; 3]
              (demo_key 9) toy_base64_roundtrip toy_secretbox_contract)
    as (Hround & Hreject & Hthrow).
  - repeat constructor; lia.
  - apply demo_key_u8.
  - reflexivity.
  - repeat apply conj.
    + exact Hround.
    + eapply Hreject; vm_compute; reflexivity.
    + apply Hthrow. reflexivity.
Defined.

(** ** Node keys, sealing and re-encryption *)

(** A node key as [loadOrGenerateNodeKeys] makes it. *)
Definition node_key_ok (encodeBase64 : list Z -> string)
    (scalarMult_base : list Z -> list Z) (node : Nodes.NodeKey) : Prop :=
  Nodes.publicKey node = encodeBase64 (scalarMult_base (Nodes.secretKey node)) /\
  u8 (Nodes.secretKey node) /\ length (Nodes.secretKey node) = 32%nat.

Lemma lookupNode_cases (nodeKeys : Nodes.NodeKeys) (id : option string)
    (node : Nodes.NodeKey) :
  Nodes.lookupNode nodeKeys id = Some node ->
  node = Nodes.alpha nodeKeys \/ node = Nodes.beta nodeKeys \/
  node = Nodes.gamma nodeKeys.
Proof.
  unfold Nodes.lookupNode. destruct id as [id|]; [|discriminate].
  destruct (String.eqb id "alpha"); [intros [= <-]; auto|].
  destruct (String.eqb id "beta"); [intros [= <-]; auto|].
  destruct (String.eqb id "gamma"); [intros [= <-]; auto|discriminate].
Qed.

Section NodeSetupClaim.

Variable encodeBase64 : list Z -> string.
Variable scalarMult_base : list Z -> list Z.
Variable sha256 : string -> list Z.
Variable env : string -> option string.

Lemma nodeKey_spec (src : entropy) (cur : nat) (node : string) :
  (forall s, u8 (sha256 s) /\ length (sha256 s) = 32%nat) ->
  exists k cur',
    NodeSetup.nodeKey encodeBase64 scalarMult_base sha256 env src cur node
    = Return (k, cur') /\
    node_key_ok encodeBase64 scalarMult_base k /\
    (cur' = cur \/ cur' = (cur + 32)%nat) /\
    (Nodes.truthy (env ("NODE_" +:+ node +:+ "_PRIVATE_KEY")) &&
     String.prefix "0x" (default "" (env ("NODE_" +:+ node +:+ "_PRIVATE_KEY")))
     = true ->
     cur' = cur /\
     Nodes.secretKey k
     = sha256 (default "" (env ("NODE_" +:+ node +:+ "_PRIVATE_KEY")))).
Proof.
  intros Hsha. unfold NodeSetup.nodeKey.
  destruct (Nodes.truthy _ && String.prefix _ _) eqn:E.
  - destruct (Hsha (default ""%string (env ("NODE_" +:+ node +:+ "_PRIVATE_KEY"))))
      as [Hu Hl].
    unfold NodeSetup.keyPair_fromSecretKey. rewrite Hl. cbn.
    eexists _, _. split; [reflexivity|].
    split; [repeat split; assumption|]. split; [left; reflexivity|].
    intros _. split; reflexivity.
  - unfold NodeSetup.keyPair. rewrite randomBytes_eq.
    eexists _, _. split; [reflexivity|].
    pose proof (randomBytes_u8 src cur 32) as [Hu Hl].
    rewrite randomBytes_eq in Hu, Hl. cbn [fst] in Hu, Hl.
    split; [repeat split; assumption|]. split; [right; reflexivity|].
    discriminate.
Qed.

(** X14. Provided SHA-256 digests are 32 bytes, [loadOrGenerateNodeKeys]
    returns: for each node the public key is the base64 of the X25519
    public key of its 32-byte secret key; at most 96 random bytes are
    drawn; and when the three private keys are configured with a [0x]
    prefix none is drawn and the secret keys are the digests. *)
Theorem X14_node_keys_wellformed (src : entropy) (cur : nat) :
  (forall s, u8 (sha256 s) /\ length (sha256 s) = 32%nat) ->
  exists nodeKeys cur',
    NodeSetup.loadOrGenerateNodeKeys encodeBase64 scalarMult_base sha256 env
      src cur = Return (nodeKeys, cur') /\
    (forall id node, Nodes.lookupNode nodeKeys id = Some node ->
       node_key_ok encodeBase64 scalarMult_base node) /\
    (cur <= cur' <= cur + 96)%nat /\
    ((forall n, In n ["ALPHA"; "BETA"; "GAMMA"]%string ->
        exists v, env ("NODE_" +:+ n +:+ "_PRIVATE_KEY")%string
                  = Some ("0x" +:+ v)%string) ->
     cur' = cur /\
     Nodes.secretKey (Nodes.alpha nodeKeys)
     = sha256 (default "" (env "NODE_ALPHA_PRIVATE_KEY"%string)) /\
     Nodes.secretKey (Nodes.beta nodeKeys)
     = sha256 (default "" (env "NODE_BETA_PRIVATE_KEY"%string)) /\
     Nodes.secretKey (Nodes.gamma nodeKeys)
     = sha256 (default "" (env "NODE_GAMMA_PRIVATE_KEY"%string))).
Proof.
  intros Hsha. unfold NodeSetup.loadOrGenerateNodeKeys.
  destruct (nodeKey_spec src cur "ALPHA" Hsha) as (a & c1 & Ea & Ha & Hc1 & Fa).
  rewrite Ea. cbn [mbind outcome_bind].
  destruct (nodeKey_spec src c1 "BETA" Hsha) as (b & c2 & Eb & Hb & Hc2 & Fb).
  rewrite Eb. cbn [mbind outcome_bind].
  destruct (nodeKey_spec src c2 "GAMMA" Hsha) as (g & c3 & Eg & Hg & Hc3 & Fg).
  rewrite Eg. cbn [mbind outcome_bind mret outcome_ret].
  eexists _, _. split; [reflexivity|]. repeat apply conj.
  - intros id node Hnode.
    destruct (lookupNode_cases _ _ _ Hnode) as [-> | [-> | ->]]; assumption.
  - lia.
  - lia.
  - intros Hcfg.
    assert (Hpre : forall n, In n ["ALPHA"; "BETA"; "GAMMA"]%string ->
      Nodes.truthy (env ("NODE_" +:+ n +:+ "_PRIVATE_KEY")) &&
      String.prefix "0x" (default "" (env ("NODE_" +:+ n +:+ "_PRIVATE_KEY")))
      = true).
    { intros n Hn. destruct (Hcfg n Hn) as [v ->]. destruct v; reflexivity. }
    destruct (Fa (Hpre "ALPHA"%string ltac:(cbn; auto))) as [-> Sa].
    destruct (Fb (Hpre "BETA"%string ltac:(cbn; auto))) as [-> Sb].
    destruct (Fg (Hpre "GAMMA"%string ltac:(cbn; auto))) as [-> Sg].
    cbn [Nodes.alpha Nodes.beta Nodes.gamma]. auto.
Qed.

End NodeSetupClaim.

Lemma X14_node_keys_wellformed_witness :
  exists nodeKeys cur',
    NodeSetup.loadOrGenerateNodeKeys Toy.encodeBase64 Toy.scalarMult_base
      (fun _ => demo_key 1)
      (fun n => if String.eqb n "NODE_BETA_PRIVATE_KEY" then Some "0xabc"%string
                else None)
      demo_src 0 = Return (nodeKeys, cur') /\
    (forall id node, Nodes.lookupNode nodeKeys id = Some node ->
       node_key_ok Toy.encodeBase64 Toy.scalarMult_base node) /\
    (0 <= cur' <= 0 + 96)%nat.
Proof.
  destruct (X14_node_keys_wellformed Toy.encodeBase64 Toy.scalarMult_base
              (fun _ => demo_key 1)
              (fun n => if String.eqb n "NODE_BETA_PRIVATE_KEY"
                        then Some "0xabc"%string else None)
              demo_src 0 (fun _ => demo_key_u8 1))
    as (nodeKeys & cur' & E & Hok & Hcur & _).
  exists nodeKeys, cur'. auto.
Defined.

Section ReencryptClaim.

Variable decodeBase64 : string -> outcome (list Z).
Variable encodeBase64 : list Z -> string.
Variable nacl_box : list Z -> list Z -> list Z -> list Z -> outcome (list Z).
Variable nacl_box_open :
  list Z -> list Z -> list Z -> list Z -> outcome (option (list Z)).
Variable scalarMult_base : list Z -> list Z.

Hypothesis contract :
  nacl_contract decodeBase64 encodeBase64 nacl_box nacl_box_open
    scalarMult_base.
Hypothesis encode_nonempty :
  forall b, b <> [] -> encodeBase64 b <> EmptyString.
Hypothesis box_nonempty :
  forall m n pk sk c, nacl_box m n pk sk = Return c -> c <> [].

Lemma truthy_encode (b : list Z) : b <> [] ->
  Nodes.truthy (Some (encodeBase64 b)) = true.
Proof.
  intros Hb. cbn. apply negb_true_iff, String.eqb_neq, encode_nonempty, Hb.
Qed.

Lemma length_32_nonempty (b : list Z) : length b = 32%nat -> b <> [].
Proof. intros H ->. discriminate H. Qed.

(** X15. Under the contract of the box primitives, where base64 of a
    non-empty array is not empty and a box is never empty: a share that
    the sender sealed to the node of its index with [encryptForRecipient]
    is opened by [POST /api/nodes/reencrypt] and sealed again with the
    node key and the next 24 random bytes, and the recipient opens the
    answer with [decryptFromSender] and the node public key of the answer,
    which gives the share. *)
Theorem X15_reencrypt_delivers (nodeKeys : Nodes.NodeKeys)
    (src1 src2 : entropy) (cur1 cur2 : nat) (share senderSk recipientSk : list Z)
    (fileId : option string) (shareIndex : jsval) (node : Nodes.NodeKey) :
  Nodes.lookupNode nodeKeys (Some (Nodes.nodeIdOf shareIndex)) = Some node ->
  node_key_ok encodeBase64 scalarMult_base node ->
  u8 share ->
  u8 senderSk -> length senderSk = 32%nat ->
  u8 recipientSk -> length recipientSk = 32%nat ->
  exists sealed sealed',
    Nodes.encryptForRecipient decodeBase64 encodeBase64 nacl_box src1 cur1
      share (Nodes.publicKey node) (encodeBase64 senderSk)
    = Return (sealed, (cur1 + 24)%nat) /\
    Nodes.reencrypt decodeBase64 encodeBase64 nacl_box nacl_box_open
      nodeKeys src2 cur2
      {| Nodes.fileId := fileId;
         Nodes.recipientPublicKey :=
           Some (encodeBase64 (scalarMult_base recipientSk));
         Nodes.shareIndex := shareIndex;
         Nodes.encryptedShare :=
           Nodes.SF_object (Some (Nodes.encrypted sealed))
             (Some (Nodes.nonce sealed));
         Nodes.senderPublicKey :=
           Some (encodeBase64 (scalarMult_base senderSk)) |}
    = (Nodes.RJson
         {| Nodes.success := true;
            Nodes.reEncryptedShare := inr sealed';
            Nodes.nodeId := Nodes.nodeIdOf shareIndex;
            Nodes.nodePublicKey := Nodes.publicKey node |},
       (cur2 + 24)%nat) /\
    Nodes.decryptFromSender decodeBase64 nacl_box_open
      (Nodes.encrypted sealed') (Nodes.nonce sealed')
      (Nodes.publicKey node) (encodeBase64 recipientSk)
    = Return share.
Proof.
  intros Hnode (Hpk & Hnu & Hnl) Hshare Hsu Hsl Hru Hrl.
  destruct contract as [Hb64 Hpub Hbox Hopen].
  destruct (Hpub _ Hnu Hnl) as [Hnpu Hnpl].
  destruct (Hpub _ Hsu Hsl) as [Hspu Hspl].
  destruct (Hpub _ Hru Hrl) as [Hrpu Hrpl].
  pose proof (randomBytes_u8 src1 cur1 24) as [Hn1u Hn1l].
  pose proof (randomBytes_u8 src2 cur2 24) as [Hn2u Hn2l].
  rewrite randomBytes_eq in Hn1u, Hn1l, Hn2u, Hn2l.
  cbn [fst] in Hn1u, Hn1l, Hn2u, Hn2l.
  set (n1 := (fun t => src1 t mod 256) <$> seq cur1 24) in *.
  set (n2 := (fun t => src2 t mod 256) <$> seq cur2 24) in *.
  destruct (Hbox share n1 (scalarMult_base (Nodes.secretKey node)) senderSk
              Hshare Hn1l Hnpl Hsl) as (c1 & Ebox1 & Hc1).
  destruct (Hbox share n2 (scalarMult_base recipientSk) (Nodes.secretKey node)
              Hshare Hn2l Hrpl Hnl) as (c2 & Ebox2 & Hc2).
  pose proof (Hopen share n1 senderSk (Nodes.secretKey node) c1 Hn1l Hsl Hnl Ebox1)
    as Eopen1.
  pose proof (Hopen share n2 (Nodes.secretKey node) recipientSk c2 Hn2l Hnl Hrl
                Ebox2) as Eopen2.
  exists {| Nodes.nonce := encodeBase64 n1; Nodes.encrypted := encodeBase64 c1 |},
         {| Nodes.nonce := encodeBase64 n2; Nodes.encrypted := encodeBase64 c2 |}.
  repeat apply conj.
  - unfold Nodes.encryptForRecipient.
    rewrite Hpk, (Hb64 _ Hnpu), (Hb64 _ Hsu). cbn [mbind outcome_bind].
    rewrite randomBytes_eq. fold n1. rewrite Ebox1. reflexivity.
  - unfold Nodes.reencrypt. cbn [Nodes.shareIndex]. rewrite Hnode.
    assert (Estep : Nodes.reencrypt_step1 decodeBase64 nacl_box_open node
              {| Nodes.fileId := fileId;
                 Nodes.recipientPublicKey :=
                   Some (encodeBase64 (scalarMult_base recipientSk));
                 Nodes.shareIndex := shareIndex;
                 Nodes.encryptedShare :=
                   Nodes.SF_object (Some (encodeBase64 c1))
                     (Some (encodeBase64 n1));
                 Nodes.senderPublicKey :=
                   Some (encodeBase64 (scalarMult_base senderSk)) |}
            = Some share).
    { unfold Nodes.reencrypt_step1.
      cbn [Nodes.encryptedShare Nodes.senderPublicKey Nodes.shareField_truthy
           andb].
      rewrite (truthy_encode _ (length_32_nonempty _ Hspl)).
      cbn [Nodes.decodeEncrypted Nodes.nonceField default].
      pose proof (encode_nonempty c1 (box_nonempty _ _ _ _ _ Ebox1)) as Hne.
      apply String.eqb_neq in Hne. rewrite Hne.
      change (id (encodeBase64 (scalarMult_base senderSk)))
        with (encodeBase64 (scalarMult_base senderSk)).
      rewrite (Hb64 _ Hc1), (Hb64 _ Hn1u), (Hb64 _ Hspu).
      cbn [mbind outcome_bind]. rewrite Eopen1. reflexivity. }
    cbn [Nodes.encrypted Nodes.nonce]. rewrite Estep.
    cbn [Nodes.recipientPublicKey].
    rewrite (truthy_encode _ (length_32_nonempty _ Hrpl)).
    cbn [default].
    change (id (encodeBase64 (scalarMult_base recipientSk)))
      with (encodeBase64 (scalarMult_base recipientSk)).
    rewrite (Hb64 _ Hrpu), randomBytes_eq. fold n2. rewrite Ebox2.
    reflexivity.
  - unfold Nodes.decryptFromSender. cbn [Nodes.encrypted Nodes.nonce].
    rewrite Hpk, (Hb64 _ Hc2), (Hb64 _ Hn2u), (Hb64 _ Hnpu), (Hb64 _ Hru).
    cbn [mbind outcome_bind]. rewrite Eopen2. reflexivity.
Qed.

End ReencryptClaim.

Lemma toy_encode_nonempty (b : list Z) :
  b <> [] -> Toy.encodeBase64 b <> EmptyString.
Proof. destruct b; [contradiction | discriminate]. Qed.

Lemma toy_box_nonempty (m n pk sk c : list Z) :
  Toy.nacl_box m n pk sk = Return c -> c <> [].
Proof.
  unfold Toy.nacl_box, Toy.sizes_ok.
  destruct (length n =? 24)%nat; [|discriminate].
  destruct (length pk =? 32)%nat eqn:Ep; [|discriminate].
  destruct (length sk =? 32)%nat eqn:Es; [|discriminate].
  apply Nat.eqb_eq in Ep, Es. cbn [andb]. intros [= <-] E.
  apply (f_equal length) in E.
  rewrite length_app, (toy_before_length pk sk Ep Es) in E. discriminate E.
Qed.

Lemma X15_reencrypt_delivers_witness :
  exists sealed sealed',
    Nodes.encryptForRecipient Toy.decodeBase64 Toy.encodeBase64 Toy.nacl_box
      demo_src 0 [97; 98; 99] (Nodes.publicKey (Nodes.beta demo_nodeKeys))
      (Toy.encodeBase64 (demo_key 50))
    = Return (sealed, (0 + 24)%nat) /\
    Nodes.reencrypt Toy.decodeBase64 Toy.encodeBase64 Toy.nacl_box
      Toy.nacl_box_open demo_nodeKeys demo_src 100
      {| Nodes.fileId := Some "f1"%string;
         Nodes.recipientPublicKey :=
           Some (Toy.encodeBase64 (Toy.scalarMult_base (demo_key 40)));
         Nodes.shareIndex := Some 1;
         Nodes.encryptedShare :=
           Nodes.SF_object (Some (Nodes.encrypted sealed))
             (Some (Nodes.nonce sealed));
         Nodes.senderPublicKey :=
           Some (Toy.encodeBase64 (Toy.scalarMult_base (demo_key 50))) |}
    = (Nodes.RJson
         {| Nodes.success := true;
            Nodes.reEncryptedShare := inr sealed';
            Nodes.nodeId := Nodes.nodeIdOf (Some 1);
            Nodes.nodePublicKey := Nodes.publicKey (Nodes.beta demo_nodeKeys) |},
       (100 + 24)%nat) /\
    Nodes.decryptFromSender Toy.decodeBase64 Toy.nacl_box_open
      (Nodes.encrypted sealed') (Nodes.nonce sealed')
      (Nodes.publicKey (Nodes.beta demo_nodeKeys))
      (Toy.encodeBase64 (demo_key 40))
    = Return [97; 98; 99].
Proof.
  apply (X15_reencrypt_delivers Toy.decodeBase64 Toy.encodeBase64 Toy.nacl_box
           Toy.nacl_box_open Toy.scalarMult_base toy_contract
           toy_encode_nonempty toy_box_nonempty demo_nodeKeys demo_src demo_src
           0 100 [97; 98; 99] (demo_key 50) (demo_key 40) (Some "f1"%string)
           (Some 1) (Nodes.beta demo_nodeKeys)).
  - reflexivity.
  - split; [reflexivity | apply (demo_key_u8 20)].
  - repeat constructor; lia.
  - apply (demo_key_u8 50).
  - reflexivity.
  - apply (demo_key_u8 40).
  - reflexivity.
Defined.

(** The entry of [/api/encrypt-shares] for a share that is not sealed. *)
Definition clear_entry (i : nat) (shareHex : string) : Nodes.EncryptedEntry :=
  {| Nodes.ee_nodeId := Nodes.nodeIds !! i;
     Nodes.ee_encryptedShare := inl shareHex;
     Nodes.ee_error := if (i <? 3)%nat then None else Some "Node not found"%string |}.

Lemma lookupNode_nodeIds (nodeKeys : Nodes.NodeKeys) (i : nat) :
  (i < 3)%nat -> exists node, Nodes.lookupNode nodeKeys (Nodes.nodeIds !! i) = Some node.
Proof.
  intros Hi. destruct i as [|[|[|i]]]; [| | |lia]; eexists; reflexivity.
Qed.

Lemma lookupNode_beyond (nodeKeys : Nodes.NodeKeys) (i : nat) :
  (3 <= i)%nat -> Nodes.nodeIds !! i = None /\
                  Nodes.lookupNode nodeKeys (Nodes.nodeIds !! i) = None.
Proof.
  intros Hi. destruct i as [|[|[|i]]]; try lia. split; reflexivity.
Qed.

Section EncryptSharesClaim.

Variable encodeBase64 : list Z -> string.
Variable nacl_box : list Z -> list Z -> list Z -> list Z -> outcome (list Z).
Variable scalarMult_base : list Z -> list Z.

Lemma encryptAll_clear (nodeKeys : Nodes.NodeKeys)
    (senderPublicKey : option string) (src : entropy) :
  Nodes.truthy senderPublicKey = false ->
  forall (shares : list string) (i cur : nat),
    Forall (fun s => Hex.match_pairs s <> []) (take (3 - i) shares) ->
    Nodes.encryptAll encodeBase64 nacl_box scalarMult_base Hex.pairsToBytes
      nodeKeys senderPublicKey src cur shares i
    = (Return (imap (fun j s => clear_entry (i + j) s) shares),
       (cur + 24 * length (take (3 - i) shares))%nat).
Proof.
  intros Hs. induction shares as [|s shares IH]; intros i cur Hok.
  - cbn. rewrite take_nil. cbn. f_equal. lia.
  - cbn [Nodes.encryptAll]. unfold Nodes.encryptShare.
    destruct (decide (i < 3)%nat) as [Hi|Hi].
    + destruct (lookupNode_nodeIds nodeKeys i Hi) as [node ->].
      replace (3 - i)%nat with (S (3 - S i)) in Hok |- * by lia.
      rewrite firstn_cons in Hok |- *.
      apply Forall_cons in Hok as [Hs0 Hok].
      unfold Hex.pairsToBytes.
      destruct (Hex.match_pairs s) as [|p ps] eqn:Ep; [contradiction|].
      rewrite randomBytes_eq, Hs.
      rewrite (IH (S i) _ Hok).
      f_equal.
      * f_equal. cbn [imap]. f_equal.
        -- unfold clear_entry. rewrite Nat.add_0_r.
           destruct (Nat.ltb_spec i 3); [reflexivity | lia].
        -- apply imap_ext. intros j x _. cbn. f_equal. lia.
      * cbn [length]. lia.
    + destruct (lookupNode_beyond nodeKeys i ltac:(lia)) as [Eid ->].
      replace (3 - i)%nat with 0%nat in Hok |- * by lia.
      rewrite (IH (S i) cur)
        by (replace (3 - S i)%nat with 0%nat by lia; rewrite take_0; constructor).
      f_equal.
      * f_equal. cbn [imap]. f_equal.
        -- unfold clear_entry. rewrite Nat.add_0_r.
           destruct (Nat.ltb_spec i 3); [lia | reflexivity].
        -- apply imap_ext. intros j x _. cbn. f_equal. lia.
      * replace (3 - S i)%nat with 0%nat by lia. rewrite !take_0. reflexivity.
Qed.

(** X16. When the request of [/api/encrypt-shares] names no sender key,
    every share comes back in clear: the entry of each share holds the hex
    string itself, under the node of its index for the first three and
    with the error [Node not found] beyond; 24 random bytes are drawn for
    each of the first three all the same. A first share without any
    character to decode makes the route answer 500. *)
Theorem X16_encryptShares_in_clear (nodeKeys : Nodes.NodeKeys)
    (src : entropy) (cur : nat) (shares : list string)
    (senderPublicKey : option string) :
  Nodes.truthy senderPublicKey = false ->
  (Forall (fun s => Hex.match_pairs s <> []) (take 3 shares) ->
   Nodes.encryptShares encodeBase64 nacl_box scalarMult_base Hex.pairsToBytes
     nodeKeys src cur (Some shares) senderPublicKey
   = (inr (imap clear_entry shares),
      (cur + 24 * min 3 (length shares))%nat)) /\
  (forall s rest, shares = s :: rest -> Hex.match_pairs s = [] ->
   Nodes.encryptShares encodeBase64 nacl_box scalarMult_base Hex.pairsToBytes
     nodeKeys src cur (Some shares) senderPublicKey
   = (inl (500, "Cannot read properties of null (reading 'map')"%string), cur)).
Proof.
  intros Hs. split.
  - intros Hok. unfold Nodes.encryptShares.
    rewrite (encryptAll_clear nodeKeys senderPublicKey src Hs shares 0 cur Hok).
    rewrite length_take. reflexivity.
  - intros s rest -> Hnull. unfold Nodes.encryptShares.
    cbn [Nodes.encryptAll]. unfold Nodes.encryptShare.
    change (Nodes.lookupNode nodeKeys (Nodes.nodeIds !! 0%nat))
      with (Some (Nodes.alpha nodeKeys)).
    unfold Hex.pairsToBytes. rewrite Hnull. reflexivity.
Qed.

End EncryptSharesClaim.

Lemma X16_encryptShares_in_clear_witness :
  Nodes.encryptShares Toy.encodeBase64 Toy.nacl_box Toy.scalarMult_base
    Hex.pairsToBytes demo_nodeKeys demo_src 0
    (Some ["01aa"; "02bb"; "03cc"; "04dd"]%string) None
  = (inr (imap clear_entry ["01aa"; "02bb"; "03cc"; "04dd"]%string),
     (0 + 24 * min 3 (length ["01aa"; "02bb"; "03cc"; "04dd"]%string))%nat).
Proof.
  refine (proj1 (X16_encryptShares_in_clear Toy.encodeBase64 Toy.nacl_box
                   Toy.scalarMult_base demo_nodeKeys demo_src 0
                   ["01aa"; "02bb"; "03cc"; "04dd"]%string None _) _).
  - reflexivity.
  - repeat constructor; discriminate.
Defined.

(** A share that cannot be decoded stops the route with status 500; the
    nonces of the shares before it have been drawn by then. *)
Example encryptShares_stops_late :
  Nodes.encryptShares Toy.encodeBase64 Toy.nacl_box Toy.scalarMult_base
    Hex.pairsToBytes demo_nodeKeys demo_src 0
    (Some ["01aa"; "02bb"; ""]%string) None
  = (inl (500, "Cannot read properties of null (reading 'map')"%string),
     48%nat).
Proof. reflexivity. Qed.

(** ** The audit log *)

Definition audit_bounded (st : Server.state) : Prop :=
  (length (Server.auditLog st) <= 500)%nat.

Lemma addAudit_log (st : Server.state) now type actor fileId target txId :
  audit_bounded st ->
  let e := {| Server.a_type := type; Server.a_actor := actor;
              Server.a_fileId := fileId; Server.a_target := target;
              Server.a_timestamp := now; Server.a_txId := txId |} in
  Server.auditLog (Server.addAudit st now type actor fileId target txId)
  = drop (length (Server.auditLog st) + 1 - 500) (Server.auditLog st ++ [e]).
Proof.
  intros Hb e. unfold Server.addAudit. cbn [Server.auditLog Server.set_auditLog].
  fold e. rewrite length_app. cbn [length].
  unfold audit_bounded in Hb.
  destruct (Nat.ltb_spec 500 (length (Server.auditLog st) + 1)).
  - replace (length (Server.auditLog st) + 1 - 500)%nat with 1%nat by lia.
    reflexivity.
  - replace (length (Server.auditLog st) + 1 - 500)%nat with 0%nat by lia.
    reflexivity.
Qed.

Lemma addAudit_bounded (st : Server.state) now type actor fileId target txId :
  audit_bounded st ->
  audit_bounded (Server.addAudit st now type actor fileId target txId).
Proof.
  intros Hb. unfold audit_bounded. rewrite addAudit_log by exact Hb.
  rewrite length_drop, length_app. cbn [length]. unfold audit_bounded in Hb. lia.
Qed.

Lemma slice_last_length {A} (n : nat) (l : list A) :
  length (Server.slice_last n l) = min n (length l).
Proof. unfold Server.slice_last. rewrite length_drop. lia. Qed.

Lemma slice_last_snoc {A} (n : nat) (l : list A) (x : A) :
  (0 < n)%nat -> exists l', Server.slice_last n (l ++ [x]) = l' ++ [x].
Proof.
  intros Hn. unfold Server.slice_last. rewrite length_app. cbn [length].
  rewrite drop_app_le by lia. eexists. reflexivity.
Qed.

Lemma filter_drop_snoc {A} (p : A -> bool) (k : nat) (l : list A) (x : A) :
  (k <= length l)%nat -> p x = true ->
  exists l', List.filter p (drop k (l ++ [x])) = l' ++ [x].
Proof.
  intros Hk Hx. rewrite drop_app_le by exact Hk.
  rewrite List.filter_app. cbn [List.filter]. rewrite Hx.
  eexists. reflexivity.
Qed.

Lemma rev_slice_last {A} (n : nat) (l : list A) :
  rev (Server.slice_last n l) = take n (rev l).
Proof. unfold Server.slice_last. symmetry. apply firstn_rev. Qed.

Lemma filter_lookup_in {A} (p : A -> bool) (l : list A) (u : nat) (a : A) :
  List.filter p l !! u = Some a -> exists i, l !! i = Some a.
Proof.
  intros H. apply list_elem_of_lookup_2, list_elem_of_In, List.filter_In in H.
  destruct H as [H _]. apply list_elem_of_In, list_elem_of_lookup_1 in H.
  exact H.
Qed.

(** Filtering keeps the order of the entries. *)
Lemma filter_lookup_order {A} (p : A -> bool) (l : list A) (v u : nat)
    (b a : A) :
  (v < u)%nat ->
  List.filter p l !! v = Some b -> List.filter p l !! u = Some a ->
  exists i j, (i < j)%nat /\ l !! i = Some b /\ l !! j = Some a.
Proof.
  revert v u. induction l as [|x l IH]; intros v u Hvu Hb Ha;
    [discriminate Hb|].
  cbn [List.filter] in Hb, Ha. destruct (p x).
  - destruct u as [|u]; [lia|]. cbn [lookup list_lookup] in Ha.
    destruct v as [|v].
    + injection Hb as <-. destruct (filter_lookup_in p l u a Ha) as [j Hj].
      exists 0%nat, (S j). split; [lia|]. split; [reflexivity | exact Hj].
    + cbn [lookup list_lookup] in Hb.
      destruct (IH v u ltac:(lia) Hb Ha) as (i & j & Hij & Hi & Hj).
      exists (S i), (S j). split; [lia|]. split; assumption.
  - destruct (IH v u Hvu Hb Ha) as (i & j & Hij & Hi & Hj).
    exists (S i), (S j). split; [lia|]. split; assumption.
Qed.

(** X17. The audit log holds the entries in the order they were logged
    and never more than 500 of them: [addAudit] appends the entry and,
    when the log is full, drops the oldest one; the eight routes that log
    keep the bound, and the routes that change the state without logging
    (nonce request, signing in, accepting an invitation) leave the log as
    it is. [GET /api/audit] answers with the events that name the caller
    as actor or target, the latest logged first, cut off after 50: of two
    events of the answer, the one that comes first stands later in the
    log. An event is the first one its actor sees right after it was
    logged. *)
Theorem X17_audit_log_bounded (jwt_sign : string -> Z -> string)
    (st : Server.state) (now : Z)
    (type actor address : string) (fileId target txId : option string) :
  audit_bounded st ->
  let e := {| Server.a_type := type; Server.a_actor := actor;
              Server.a_fileId := fileId; Server.a_target := target;
              Server.a_timestamp := now; Server.a_txId := txId |} in
  let st' := Server.addAudit st now type actor fileId target txId in
  let mine := fun a => String.eqb (Server.a_actor a) address
                       || Server.opt_eqb (Server.a_target a) address in
  Server.auditLog st'
  = drop (length (Server.auditLog st) + 1 - 500) (Server.auditLog st ++ [e]) /\
  (length (Server.auditLog st) = 500%nat ->
   Server.auditLog st' = drop 1 (Server.auditLog st) ++ [e]) /\
  ((length (Server.auditLog st) < 500)%nat ->
   Server.auditLog st' = Server.auditLog st ++ [e]) /\
  audit_bounded st' /\
  Server.getAudit st address
  = take 50 (rev (List.filter mine (Server.auditLog st))) /\
  (forall i j a b,
     (i < j)%nat ->
     Server.getAudit st address !! i = Some a ->
     Server.getAudit st address !! j = Some b ->
     exists p q, (q < p)%nat /\ Server.auditLog st !! p = Some a /\
                 Server.auditLog st !! q = Some b) /\
  (length (Server.getAudit st address) <= 50)%nat /\
  Forall (fun a => Server.a_actor a = address \/ Server.a_target a = Some address)
    (Server.getAudit st address) /\
  head (Server.getAudit st' actor) = Some e /\
  (forall JSON_parse file body pinned uuid,
     audit_bounded
       (fst (Server.upload JSON_parse st now address file body pinned uuid))) /\
  (forall fid, audit_bounded (fst (Server.deleteFile st now address fid))) /\
  (forall fid rcp perm exp wk uuid,
     audit_bounded
       (fst (Server.shareFile st now address fid rcp perm exp wk uuid))) /\
  (forall fid exp tok,
     audit_bounded (fst (Server.createPublicLink st now address fid exp tok))) /\
  (forall pk, audit_bounded (fst (Server.registerKey st now address pk))) /\
  (forall name uuid,
     audit_bounded (fst (Server.createGroup st now address name uuid))) /\
  (forall gid m role,
     audit_bounded (fst (Server.invite st now address gid m role))) /\
  (forall gid m, audit_bounded (fst (Server.removeMember st now address gid m))) /\
  (forall gid,
     Server.auditLog (fst (Server.accept st address gid)) = Server.auditLog st) /\
  (forall nonce,
     Server.auditLog (fst (Server.getNonce st now nonce address))
     = Server.auditLog st) /\
  Server.auditLog (fst (Server.verify jwt_sign st now address))
  = Server.auditLog st.
Proof.
  intros Hb e st' mine.
  assert (Hlog := addAudit_log st now type actor fileId target txId Hb).
  cbv zeta in Hlog. fold e st' in Hlog.
  assert (Hget : forall s a,
    Server.getAudit s a
    = take 50 (rev (List.filter
                      (fun x => String.eqb (Server.a_actor x) a
                                || Server.opt_eqb (Server.a_target x) a)
                      (Server.auditLog s)))).
  { intros s a. unfold Server.getAudit. apply rev_slice_last. }
  repeat apply conj.
  - exact Hlog.
  - intros Hfull. rewrite Hlog, Hfull.
    change (500 + 1 - 500)%nat with 1%nat.
    apply drop_app_le. lia.
  - intros Hroom. rewrite Hlog.
    replace (length (Server.auditLog st) + 1 - 500)%nat with 0%nat by lia.
    reflexivity.
  - apply addAudit_bounded, Hb.
  - apply Hget.
  - intros i j a b Hij Hia Hjb. rewrite Hget in Hia, Hjb.
    apply lookup_take_Some in Hia as [Hia _].
    apply lookup_take_Some in Hjb as [Hjb _].
    rewrite rev_alt in Hia, Hjb.
    apply reverse_lookup_Some in Hia as [Hia Hli].
    apply reverse_lookup_Some in Hjb as [Hjb Hlj].
    pose proof (fun Hlt => filter_lookup_order _ _ _ _ b a Hlt Hjb Hia) as H.
    destruct H as (q & p & Hqp & Hq & Hp); [lia|].
    exists p, q. auto.
  - rewrite Hget, length_take. lia.
  - unfold Server.getAudit. apply Forall_rev. unfold Server.slice_last.
    apply Forall_drop. apply Forall_forall. intros a Ha.
    apply list_elem_of_In, List.filter_In in Ha as [_ Ha].
    apply orb_true_iff in Ha as [Ha|Ha].
    + left. apply String.eqb_eq, Ha.
    + right. unfold Server.opt_eqb in Ha.
      destruct (Server.a_target a) as [t|]; [|discriminate].
      apply String.eqb_eq in Ha. subst t. reflexivity.
  - unfold Server.getAudit. rewrite Hlog.
    destruct (filter_drop_snoc
                (fun a => String.eqb (Server.a_actor a) actor
                          || Server.opt_eqb (Server.a_target a) actor)
                (length (Server.auditLog st) + 1 - 500) (Server.auditLog st) e)
      as [l' ->].
    + unfold audit_bounded in Hb. lia.
    + cbn. rewrite String.eqb_refl. reflexivity.
    + destruct (slice_last_snoc 50 l' e ltac:(lia)) as [l'' ->].
      rewrite rev_app_distr. reflexivity.
  - intros JSON_parse file body pinned uuid. unfold Server.upload.
    destruct file; [|exact Hb]. destruct pinned; [|exact Hb].
    apply addAudit_bounded. exact Hb.
  - intros fid. unfold Server.deleteFile.
    destruct (List.find _ _); [|exact Hb]. apply addAudit_bounded. exact Hb.
  - intros fid rcp perm exp wk uuid. unfold Server.shareFile.
    destruct (KeyRelease.or_null rcp); [|exact Hb].
    destruct (List.find _ _); [|exact Hb]. apply addAudit_bounded. exact Hb.
  - intros fid exp tok. unfold Server.createPublicLink.
    destruct (List.find _ _); [|exact Hb]. apply addAudit_bounded. exact Hb.
  - intros pk. unfold Server.registerKey.
    destruct (KeyRelease.or_null pk); [|exact Hb].
    apply addAudit_bounded. exact Hb.
  - intros name uuid. unfold Server.createGroup.
    destruct (KeyRelease.or_null name); [|exact Hb].
    apply addAudit_bounded. exact Hb.
  - intros gid m role. unfold Server.invite.
    destruct (_ !! gid); [|exact Hb].
    destruct (negb _); [exact Hb|]. destruct (existsb _ _); [exact Hb|].
    apply addAudit_bounded. exact Hb.
  - intros gid m. unfold Server.removeMember.
    destruct (_ !! gid); [|exact Hb].
    destruct (negb _); [exact Hb|]. apply addAudit_bounded. exact Hb.
  - intros gid. unfold Server.accept.
    destruct (_ !! gid); [|reflexivity].
    destruct (List.find _ _); reflexivity.
  - intros nonce. reflexivity.
  - unfold Server.verify. destruct (_ !! address); [|reflexivity].
    destruct (_ <? now); [reflexivity|]. cbn [fst].
    destruct (_ !! address); reflexivity.
Qed.

(** A full log of 500 events of [alice], numbered by their time stamps. *)
Definition demo_event (i : nat) : Server.AuditEntry :=
  {| Server.a_type := "FILE_UPLOAD"; Server.a_actor := "alice";
     Server.a_fileId := None; Server.a_target := None;
     Server.a_timestamp := Z.of_nat i; Server.a_txId := None |}.

Definition demo_full_log : Server.state :=
  Server.set_auditLog Server.empty_state (demo_event <$> seq 0 500).

Lemma X17_audit_log_bounded_witness :
  let e := {| Server.a_type := "FILE_SHARE"; Server.a_actor := "alice";
              Server.a_fileId := Some "f1"%string;
              Server.a_target := Some "bob"%string;
              Server.a_timestamp := 999; Server.a_txId := None |} in
  let st' := Server.addAudit demo_full_log 999 "FILE_SHARE" "alice"
               (Some "f1"%string) (Some "bob"%string) None in
  length (Server.auditLog demo_full_log) = 500%nat /\
  head (Server.auditLog demo_full_log) = Some (demo_event 0) /\
  Server.auditLog st' = drop 1 (Server.auditLog demo_full_log) ++ [e] /\
  head (Server.auditLog st') = Some (demo_event 1) /\
  audit_bounded st' /\
  Server.getAudit demo_full_log "alice"
  = take 50 (rev (Server.auditLog demo_full_log)) /\
  head (Server.getAudit demo_full_log "alice") = Some (demo_event 499) /\
  head (Server.getAudit st' "alice") = Some e.
Proof.
  intros e st'.
  assert (Hfull : length (Server.auditLog demo_full_log) = 500%nat)
    by reflexivity.
  destruct (X17_audit_log_bounded (fun a _ => a) demo_full_log 999
              "FILE_SHARE" "alice" "alice" (Some "f1"%string)
              (Some "bob"%string) None)
    as (_ & Hdrop & _ & Hb' & Hget & _ & _ & _ & Hhead & _).
  - unfold audit_bounded. rewrite Hfull. lia.
  - fold e st' in Hdrop, Hb', Hhead.
    repeat apply conj.
    + exact Hfull.
    + reflexivity.
    + exact (Hdrop Hfull).
    + rewrite (Hdrop Hfull). reflexivity.
    + exact Hb'.
    + rewrite Hget. reflexivity.
    + rewrite Hget. reflexivity.
    + exact Hhead.
Defined.

(** ** Signing in *)

Lemma upto_space_append (t rest : string) :
  Forall (fun c => Hex.code c <> 32) (String.list_ascii_of_string t) ->
  Server.upto_space (t +:+ String (Ascii.ascii_of_N 32) rest) = t /\
  Server.upto_space t = t.
Proof.
  induction t as [|c t IH]; intros Ht.
  - split; reflexivity.
  - cbn [String.list_ascii_of_string] in Ht.
    apply Forall_cons in Ht as [Hc Ht]. destruct (IH Ht) as [IH1 IH2].
    change (String c t +:+ ?x)%string with (String c (t +:+ x)).
    cbn [Server.upto_space].
    destruct (Z.eqb_spec (Hex.code c) 32); [contradiction|].
    rewrite IH1, IH2. split; reflexivity.
Qed.

Lemma substring_all (s : string) : String.substring 0 (String.length s) s = s.
Proof. induction s as [|c s IH]; [reflexivity|]. cbn. rewrite IH. reflexivity. Qed.

Section SignIn.

Variable jwt_sign : string -> Z -> string.
Variable jwt_verify : string -> Z -> option string.

(** X18. A nonce is good once and for five minutes: after
    [GET /api/auth/nonce], [POST /api/auth/verify] for the address answers
    with a token signed for it if at most 300000 ms have passed and with
    400 otherwise; either way the nonce is gone, so that a second
    [verify] answers 400, and the nonces of other addresses are
    untouched. The answer depends on nothing but the address: no
    signature is looked at. *)
Theorem X18_nonce_single_use (st : Server.state) (now0 now1 now2 : Z)
    (nonce address : string) :
  let st1 := fst (Server.getNonce st now0 nonce address) in
  let r1 := Server.verify jwt_sign st1 now1 address in
  snd r1
  = (if now0 + 300000 <? now1
     then Server.Err 400 "Nonce expired — request a new one"
     else Server.Ok (jwt_sign address (now1 / 1000), address)) /\
  snd (Server.verify jwt_sign (fst r1) now2 address)
  = Server.Err 400 "No nonce found for this address" /\
  (forall other, other <> address ->
     Server.nonces (fst r1) !! other = Server.nonces st !! other) /\
  (now1 <= now0 + 300000 -> is_Some (Server.users (fst r1) !! address)).
Proof.
  intros st1 r1.
  set (item := {| Server.n_nonce := nonce;
                  Server.n_message :=
                    snd (snd (Server.getNonce st now0 nonce address));
                  Server.n_expiresAt := now0 + 5 * 60 * 1000 |}).
  assert (Hn : Server.nonces st1 !! address = Some item).
  { unfold st1, Server.getNonce. cbn [fst Server.nonces Server.set_nonces].
    apply lookup_insert_eq. }
  assert (Hother : forall other, other <> address ->
            Server.nonces st1 !! other = Server.nonces st !! other).
  { intros other Ho. unfold st1, Server.getNonce.
    cbn [fst Server.nonces Server.set_nonces].
    apply lookup_insert_ne. congruence. }
  unfold r1, Server.verify. rewrite Hn. cbn [Server.n_expiresAt item].
  change (now0 + 5 * 60 * 1000) with (now0 + 300000).
  destruct (Z.ltb_spec (now0 + 300000) now1) as [Hexp|Hok]; cbn [fst snd].
  - repeat apply conj.
    + reflexivity.
    + cbn [Server.nonces Server.set_nonces].
      rewrite lookup_delete_eq. reflexivity.
    + intros other Ho. cbn [Server.nonces Server.set_nonces].
      rewrite lookup_delete_ne by congruence. apply Hother, Ho.
    + lia.
  - cbn [Server.users Server.set_nonces].
    destruct (Server.users st1 !! address) as [u|] eqn:Eu; cbn [fst snd].
    + repeat apply conj.
      * reflexivity.
      * cbn [Server.nonces Server.set_nonces].
        rewrite lookup_delete_eq. reflexivity.
      * intros other Ho. cbn [Server.nonces Server.set_nonces].
        rewrite lookup_delete_ne by congruence. apply Hother, Ho.
      * intros _. cbn [Server.users Server.set_nonces]. rewrite Eu. eauto.
    + repeat apply conj.
      * reflexivity.
      * cbn [Server.nonces Server.set_nonces Server.set_users].
        rewrite lookup_delete_eq. reflexivity.
      * intros other Ho. cbn [Server.nonces Server.set_nonces Server.set_users].
        rewrite lookup_delete_ne by congruence. apply Hother, Ho.
      * intros _. cbn [Server.users Server.set_users].
        rewrite lookup_insert_eq. eauto.
Qed.

(** X19. [requireAuth] answers 401 without a header or with one that does
    not start with [Bearer ]; otherwise it verifies what stands between
    the first space and the next one. Provided [jwt.verify] accepts what
    [jwt.sign] made less than 24 hours ago, in whole seconds, the token that
    [POST /api/auth/verify] answers with, if it holds no space, lets its
    address through, whatever follows it after a space. *)
Theorem X19_requireAuth_accepts_token (st : Server.state) (now1 now2 : Z)
    (address token junk : string) :
  (forall a iat now, iat <= now / 1000 < iat + 86400 ->
     jwt_verify (jwt_sign a iat) now = Some a) ->
  snd (Server.verify jwt_sign st now1 address) = Server.Ok (token, address) ->
  Forall (fun c => Hex.code c <> 32) (String.list_ascii_of_string token) ->
  now1 <= now2 -> now2 / 1000 < now1 / 1000 + 86400 ->
  Server.requireAuth jwt_verify (Some ("Bearer " +:+ token)%string) now2
  = Server.Ok address /\
  Server.requireAuth jwt_verify
    (Some ("Bearer " +:+ token +:+ " " +:+ junk)%string) now2
  = Server.Ok address /\
  Server.requireAuth jwt_verify None now2
  = Server.Err 401 "Missing or invalid authorization header" /\
  (forall header now,
     String.prefix "Bearer " header = false ->
     Server.requireAuth jwt_verify (Some header) now
     = Server.Err 401 "Missing or invalid authorization header").
Proof.
  intros Hjwt Hver Htok Hle Hlt.
  assert (Etok : token = jwt_sign address (now1 / 1000)).
  { unfold Server.verify in Hver.
    destruct (Server.nonces st !! address); [|discriminate Hver].
    destruct (_ <? now1); [discriminate Hver|].
    cbn [snd] in Hver. congruence. }
  assert (Hv : jwt_verify token now2 = Some address).
  { rewrite Etok. apply Hjwt. split.
    - apply Z.div_le_mono; lia.
    - exact Hlt. }
  destruct (upto_space_append token junk Htok) as [Hs1 Hs2].
  repeat apply conj.
  - unfold Server.requireAuth.
    change (String.eqb ("Bearer " +:+ token) "") with false.
    assert (Hp : String.prefix "Bearer " ("Bearer " +:+ token) = true)
      by (destruct token; reflexivity).
    rewrite Hp. cbn [negb andb].
    change (String.length ("Bearer " +:+ token))
      with (S (S (S (S (S (S (S (String.length token)))))))).
    replace (S (S (S (S (S (S (S (String.length token))))))) - 7)%nat
      with (String.length token) by lia.
    change (String.substring 7 (String.length token) ("Bearer " +:+ token))
      with (String.substring 0 (String.length token) token).
    rewrite substring_all, Hs2, Hv. reflexivity.
  - unfold Server.requireAuth.
    change (String.eqb ("Bearer " +:+ token +:+ " " +:+ junk) "") with false.
    assert (Hp : String.prefix "Bearer " ("Bearer " +:+ token +:+ " " +:+ junk)
                 = true).
    { destruct token; reflexivity. }
    rewrite Hp. cbn [negb andb].
    change (String.length ("Bearer " +:+ token +:+ " " +:+ junk))
      with (S (S (S (S (S (S (S (String.length (token +:+ " " +:+ junk))))))))).
    replace (S (S (S (S (S (S (S (String.length (token +:+ " " +:+ junk))))))))
             - 7)%nat
      with (String.length (token +:+ " " +:+ junk)) by lia.
    change (String.substring 7 ?n ("Bearer " +:+ token +:+ " " +:+ junk))
      with (String.substring 0 n (token +:+ " " +:+ junk)).
    rewrite substring_all.
    change (" " +:+ junk)%string with (String (Ascii.ascii_of_N 32) junk).
    rewrite Hs1, Hv. reflexivity.
  - reflexivity.
  - intros header now Hp. unfold Server.requireAuth.
    rewrite Hp, andb_false_r. reflexivity.
Qed.

End SignIn.

Lemma X19_requireAuth_accepts_token_witness :
  Server.requireAuth (fun t _ => Some t) (Some ("Bearer " +:+ "ALICE")%string) 2000
  = Server.Ok "ALICE"%string.
Proof.
  refine (proj1 (X19_requireAuth_accepts_token (fun a _ => a) (fun t _ => Some t)
                   (fst (Server.getNonce Server.empty_state 0 "n1" "ALICE"))
                   1000 2000 "ALICE" "ALICE" "x" _ _ _ _ _)).
  - reflexivity.
  - reflexivity.
  - repeat constructor; discriminate.
  - lia.
  - reflexivity.
Defined.

(** ** Deleting a file *)

Lemma store_get_update {A} (store : list (string * list A)) (a : string)
    (g : list A -> list A) :
  g [] = [] ->
  Server.store_get (Server.store_update store a g) a
  = g (Server.store_get store a).
Proof.
  intros Hg. unfold Server.store_get, Server.store_update.
  induction store as [|[b l] store IH]; cbn [map List.find fst snd].
  - symmetry. exact Hg.
  - destruct (String.eqb b a) eqn:E; cbn [fst snd]; rewrite E.
    + reflexivity.
    + exact IH.
Qed.

Lemma store_get_update_ne {A} (store : list (string * list A)) (a b : string)
    (g : list A -> list A) :
  a <> b ->
  Server.store_get (Server.store_update store a g) b = Server.store_get store b.
Proof.
  intros Hab. unfold Server.store_get, Server.store_update.
  induction store as [|[c l] store IH]; cbn [map List.find fst snd]; [reflexivity|].
  destruct (String.eqb c a) eqn:E; cbn [fst snd].
  - apply String.eqb_eq in E. subst c. apply String.eqb_neq in Hab.
    rewrite Hab. exact IH.
  - destruct (String.eqb c b); [reflexivity | exact IH].
Qed.

Lemma fmap_update_first {A B} (h : A -> B) (p : A -> bool) (f : A -> A)
    (l : list A) :
  (forall x, h (f x) = h x) -> h <$> Server.update_first p f l = h <$> l.
Proof.
  intros Hh. induction l as [|x l IH]; [reflexivity|].
  cbn [Server.update_first]. destruct (p x); cbn [fmap list_fmap].
  - rewrite Hh. reflexivity.
  - f_equal. exact IH.
Qed.

Lemma find_update_first {A} (p : A -> bool) (f : A -> A) (l : list A) (x : A) :
  (forall y, p (f y) = p y) ->
  List.find p l = Some x ->
  List.find p (Server.update_first p f l) = Some (f x).
Proof.
  intros Hp. induction l as [|y l IH]; [discriminate|].
  cbn [List.find Server.update_first]. destruct (p y) eqn:E.
  - intros [= <-]. cbn [List.find]. rewrite Hp, E. reflexivity.
  - intros Hx. cbn [List.find]. rewrite E. exact (IH Hx).
Qed.

Lemma find_none_fresh (l : list Server.FileItem) (fid : string) (q : Server.FileItem -> bool) :
  fid ∉ Server.id <$> l ->
  List.find (fun g => String.eqb (Server.id g) fid && q g) l = None.
Proof.
  induction l as [|y l IH]; [reflexivity|].
  cbn [fmap list_fmap]. rewrite not_elem_of_cons. intros [Hy Hl].
  cbn [List.find]. assert (E : String.eqb (Server.id y) fid = false)
    by (apply String.eqb_neq; congruence).
  rewrite E. exact (IH Hl).
Qed.

Lemma deleted_not_found (l : list Server.FileItem) (fid : string) :
  NoDup (Server.id <$> l) ->
  List.find (fun g => String.eqb (Server.id g) fid && negb (Server.isDeleted g))
    (Server.update_first (fun g => String.eqb (Server.id g) fid)
       (fun g => Server.set_isDeleted g true) l) = None.
Proof.
  induction l as [|y l IH]; [reflexivity|].
  cbn [fmap list_fmap]. rewrite NoDup_cons. intros [Hy Hl].
  cbn [Server.update_first]. destruct (String.eqb (Server.id y) fid) eqn:E.
  - cbn [List.find Server.set_isDeleted Server.id Server.isDeleted negb].
    rewrite E. cbn [andb]. apply String.eqb_eq in E. subst fid.
    apply find_none_fresh, Hy.
  - cbn [List.find]. rewrite E. exact (IH Hl).
Qed.

Lemma deleted_listing (l : list Server.FileItem) (fid : string) :
  NoDup (Server.id <$> l) ->
  List.filter (fun g => negb (Server.isDeleted g))
    (Server.update_first (fun g => String.eqb (Server.id g) fid)
       (fun g => Server.set_isDeleted g true) l)
  = List.filter (fun g => negb (String.eqb (Server.id g) fid))
      (List.filter (fun g => negb (Server.isDeleted g)) l).
Proof.
  induction l as [|y l IH]; [reflexivity|].
  cbn [fmap list_fmap]. rewrite NoDup_cons. intros [Hy Hl].
  cbn [Server.update_first]. destruct (String.eqb (Server.id y) fid) eqn:E.
  - cbn [List.filter Server.set_isDeleted Server.isDeleted negb].
    apply String.eqb_eq in E. subst fid.
    assert (G : forall l', Server.id y ∉ Server.id <$> l' ->
              List.filter (fun g => negb (String.eqb (Server.id g) (Server.id y))) l'
              = l').
    { induction l' as [|z l' IH']; [reflexivity|].
      cbn [fmap list_fmap]. rewrite not_elem_of_cons. intros [Hz Hl'].
      cbn [List.filter].
      assert (E : String.eqb (Server.id z) (Server.id y) = false)
        by (apply String.eqb_neq; congruence).
      rewrite E. cbn [negb]. f_equal. exact (IH' Hl'). }
    assert (Hsub : Server.id y
                   ∉ Server.id <$> List.filter (fun g => negb (Server.isDeleted g)) l).
    { intros Hin. apply Hy. apply list_elem_of_fmap in Hin as (z & Ez & Hz).
      apply list_elem_of_fmap. exists z. split; [exact Ez|].
      apply list_elem_of_In. apply list_elem_of_In, List.filter_In in Hz.
      tauto. }
    destruct (Server.isDeleted y); cbn [negb List.filter].
    + symmetry. apply G, Hsub.
    + rewrite String.eqb_refl. cbn [negb]. symmetry. apply G, Hsub.
  - cbn [List.filter]. destruct (Server.isDeleted y); cbn [negb List.filter].
    + exact (IH Hl).
    + rewrite E. cbn [negb]. f_equal. exact (IH Hl).
Qed.

(** The key that a public link gives, read off the file and the link. *)
Definition link_view (r : Server.FileItem * Server.PublicLink)
  : option string * Server.PublicLink :=
  (Server.encryptionKey (fst r), snd r).

Lemma find_link_in_deleted (l : list Server.FileItem) (p : Server.FileItem -> bool)
    (token : string) :
  link_view <$> Server.find_link_in
                  (Server.update_first p (fun g => Server.set_isDeleted g true) l)
                  token
  = link_view <$> Server.find_link_in l token.
Proof.
  induction l as [|y l IH]; [reflexivity|].
  cbn [Server.update_first]. destruct (p y).
  - cbn [Server.find_link_in Server.set_isDeleted Server.publicLinks].
    destruct (Server.publicLinks y) as [links|]; [|reflexivity].
    destruct (List.find _ links); reflexivity.
  - cbn [Server.find_link_in].
    destruct (Server.publicLinks y) as [links|]; [|exact IH].
    destruct (List.find _ links); [reflexivity | exact IH].
Qed.

Lemma find_link_deleted (store : list (string * list Server.FileItem))
    (a : string) (p : Server.FileItem -> bool) (token : string) :
  link_view <$> Server.find_link
                  (Server.store_update store a
                     (Server.update_first p (fun g => Server.set_isDeleted g true)))
                  token
  = link_view <$> Server.find_link store token.
Proof.
  induction store as [|[b l] store IH]; [reflexivity|].
  cbn [Server.store_update map fst snd].
  destruct (String.eqb b a); cbn [Server.find_link fst snd].
  - pose proof (find_link_in_deleted l p token) as H.
    destruct (Server.find_link_in (Server.update_first _ _ l) token) as [r|],
             (Server.find_link_in l token) as [r'|];
      cbn [fmap option_fmap option_map] in H |- *; try discriminate H.
    + exact H.
    + exact IH.
  - destruct (Server.find_link_in l token); [reflexivity | exact IH].
Qed.

Lemma getPublicKey_view (st st' : Server.state) (now : Z) (token : string) :
  link_view <$> Server.find_link (Server.filesStore st') token
  = link_view <$> Server.find_link (Server.filesStore st) token ->
  Server.getPublicKey st' now token = Server.getPublicKey st now token.
Proof.
  unfold Server.getPublicKey. intros H.
  destruct (Server.find_link (Server.filesStore st') token) as [[f' l']|],
           (Server.find_link (Server.filesStore st) token) as [[f l]|];
    cbn [fmap option_fmap option_map link_view fst snd] in H;
    try discriminate H; [|reflexivity].
  injection H as Hk ->. rewrite Hk. reflexivity.
Qed.

(** X20. Deleting a file hides it and revokes nothing. Where the ids of
    the owner's files are distinct, after [DELETE /api/files/:id] the file
    is no longer listed and can no longer be shared or given a public
    link; but the owner's key route still answers with its key and
    shares, and the key routes of shares, groups and public links answer
    exactly as before the deletion. *)
Theorem X20_delete_revokes_nothing (st : Server.state) (now : Z)
    (owner fileId : string) (f : Server.FileItem) :
  NoDup (Server.id <$> Server.store_get (Server.filesStore st) owner) ->
  List.find (fun g => String.eqb (Server.id g) fileId)
    (Server.store_get (Server.filesStore st) owner) = Some f ->
  let st' := fst (Server.deleteFile st now owner fileId) in
  snd (Server.deleteFile st now owner fileId) = Server.Ok true /\
  Server.listFiles st' owner
  = List.filter (fun g => negb (String.eqb (Server.id g) fileId))
      (Server.listFiles st owner) /\
  (forall now' recipient permission expiresIn wrappedKey uuid,
     recipient <> EmptyString ->
     snd (Server.shareFile st' now' owner fileId (Some recipient) permission
            expiresIn wrappedKey uuid)
     = Server.Err 404 "File not found") /\
  (forall now' expiresIn linkToken,
     snd (Server.createPublicLink st' now' owner fileId expiresIn linkToken)
     = Server.Err 404 "File not found") /\
  Server.getFileKey st' owner fileId
  = Server.Ok (Server.encryptionKey f, Server.shares f) /\
  (forall rnd cur now' address shareId,
     Server.getSharedFileKey st' rnd cur now' address shareId
     = Server.getSharedFileKey st rnd cur now' address shareId) /\
  (forall rnd cur address groupId fileId',
     Server.getGroupFileKey st' rnd cur address groupId fileId'
     = Server.getGroupFileKey st rnd cur address groupId fileId') /\
  (forall now' token,
     Server.getPublicKey st' now' token = Server.getPublicKey st now' token).
Proof.
  intros Hnd Hfind st'.
  set (del := Server.update_first (fun g => String.eqb (Server.id g) fileId)
                (fun g => Server.set_isDeleted g true)).
  assert (Est : st' = Server.addAudit
                        (Server.set_filesStore st
                           (Server.store_update (Server.filesStore st) owner del))
                        now "FILE_DELETE" owner (Some (Server.id f)) None None).
  { unfold st', Server.deleteFile. rewrite Hfind. reflexivity. }
  assert (Efs : Server.filesStore st'
                = Server.store_update (Server.filesStore st) owner del)
    by (rewrite Est; reflexivity).
  assert (Eget : Server.store_get (Server.filesStore st') owner
                 = del (Server.store_get (Server.filesStore st) owner))
    by (rewrite Efs; apply store_get_update; reflexivity).
  repeat apply conj.
  - unfold Server.deleteFile. rewrite Hfind. reflexivity.
  - unfold Server.listFiles. rewrite Eget. apply deleted_listing, Hnd.
  - intros now' recipient permission expiresIn wrappedKey uuid Hr.
    unfold Server.shareFile. rewrite (or_null_Some recipient Hr), Eget.
    unfold del. rewrite (deleted_not_found _ fileId Hnd). reflexivity.
  - intros now' expiresIn linkToken. unfold Server.createPublicLink.
    rewrite Eget. unfold del. rewrite (deleted_not_found _ fileId Hnd).
    reflexivity.
  - unfold Server.getFileKey. rewrite Eget. unfold del.
    rewrite (find_update_first (fun g => String.eqb (Server.id g) fileId)
               (fun g => Server.set_isDeleted g true) _ f
               (fun y => eq_refl) Hfind).
    reflexivity.
  - intros rnd cur now' address shareId. rewrite Est. reflexivity.
  - intros rnd cur address groupId fileId'. unfold Server.getGroupFileKey.
    rewrite Efs. f_equal; [rewrite Est; reflexivity|].
    unfold Server.store_update. rewrite map_map. apply map_ext.
    intros [a l]. cbn [fst snd]. destruct (String.eqb a owner); [|reflexivity].
    cbn [fst snd]. f_equal. unfold del. apply fmap_update_first.
    intros x. reflexivity.
  - intros now' token. apply getPublicKey_view. rewrite Efs. unfold del.
    apply find_link_deleted.
Qed.

Definition demo_stored_file : Server.FileItem :=
  {| Server.id := "file-1"; Server.name := "a.txt"; Server.cid := "Qm1";
     Server.owner := "alice"; Server.size := 16;
     Server.mimeType := "text/plain"; Server.createdAt := 1000;
     Server.isDeleted := false; Server.encryptionKey := Some "0aff"%string;
     Server.shares := ["01aa"; "02bb"; "03cc"]%string;
     Server.groupId := None; Server.publicLinks := None |}.

Definition demo_state : Server.state :=
  Server.set_filesStore Server.empty_state [("alice"%string, [demo_stored_file])].

Lemma X20_delete_revokes_nothing_witness :
  Server.getFileKey (fst (Server.deleteFile demo_state 2000 "alice" "file-1"))
    "alice" "file-1"
  = Server.Ok (Some "0aff"%string, ["01aa"; "02bb"; "03cc"]%string).
Proof.
  refine (proj1 (proj2 (proj2 (proj2 (proj2
            (X20_delete_revokes_nothing demo_state 2000 "alice" "file-1"
               demo_stored_file _ _)))))).
  - cbn. apply NoDup_singleton.
  - reflexivity.
Defined.

(** ** Public links *)

Definition add_link (link : Server.PublicLink) (g : Server.FileItem)
  : Server.FileItem :=
  Server.set_publicLinks g (Some (default [] (Server.publicLinks g) ++ [link])).

Lemma find_link_in_added (l : list Server.FileItem) (p : Server.FileItem -> bool)
    (link : Server.PublicLink) (f : Server.FileItem) :
  List.find p l = Some f ->
  Server.find_link_in l (Server.pl_token link) = None ->
  Server.find_link_in (Server.update_first p (add_link link) l)
    (Server.pl_token link)
  = Some (add_link link f, link).
Proof.
  induction l as [|y l IH]; [discriminate|].
  cbn [List.find Server.update_first Server.find_link_in].
  destruct (p y) eqn:E.
  - intros [= <-] Hfresh.
    cbn [Server.find_link_in add_link Server.set_publicLinks Server.publicLinks].
    assert (Hold : Forall (fun l0 => String.eqb (Server.pl_token l0)
                                       (Server.pl_token link) = false)
                     (default [] (Server.publicLinks y))).
    { destruct (Server.publicLinks y) as [links|]; [|constructor].
      cbn [default from_option id].
      destruct (List.find _ links) eqn:Ef; [discriminate Hfresh|].
      apply Forall_forall. intros l0 Hl0.
      apply (find_none _ _ Ef). apply list_elem_of_In, Hl0. }
    rewrite (find_app_last _ _ link Hold (String.eqb_refl _)). reflexivity.
  - intros Hf Hfresh. cbn [Server.find_link_in].
    destruct (Server.publicLinks y) as [links|].
    + destruct (List.find _ links); [discriminate Hfresh|]. exact (IH Hf Hfresh).
    + exact (IH Hf Hfresh).
Qed.

Lemma find_link_added (store : list (string * list Server.FileItem))
    (owner : string) (p : Server.FileItem -> bool)
    (link : Server.PublicLink) (f : Server.FileItem) :
  List.find p (Server.store_get store owner) = Some f ->
  Server.find_link store (Server.pl_token link) = None ->
  Server.find_link
    (Server.store_update store owner (Server.update_first p (add_link link)))
    (Server.pl_token link)
  = Some (add_link link f, link).
Proof.
  unfold Server.store_get.
  induction store as [|[b l] store IH]; [discriminate|].
  cbn [List.find Server.store_update map Server.find_link fst snd].
  destruct (String.eqb b owner) eqn:E; cbn [fst snd]; intros Hf Hfresh.
  - destruct (Server.find_link_in l (Server.pl_token link)) eqn:El;
      [discriminate Hfresh|].
    rewrite (find_link_in_added l p link f Hf El). reflexivity.
  - destruct (Server.find_link_in l (Server.pl_token link)) eqn:El;
      [discriminate Hfresh|].
    exact (IH Hf Hfresh).
Qed.

(** X21. A public link made for a file that is not deleted, with a token
    no link has yet, serves the key of the file and its description to
    anyone who has the token, until the time of creation plus the
    lifetime, one hour unless the request says otherwise; after that it
    answers 410. A link whose expiry computes to 0 never expires. *)
Theorem X21_public_link_lifetime (st : Server.state) (now : Z)
    (owner fileId linkToken : string) (expiresIn : option Z)
    (f : Server.FileItem) :
  List.find (fun g => String.eqb (Server.id g) fileId && negb (Server.isDeleted g))
    (Server.store_get (Server.filesStore st) owner) = Some f ->
  Server.find_link (Server.filesStore st) linkToken = None ->
  let e := now + default 3600 expiresIn * 1000 in
  let r := Server.createPublicLink st now owner fileId expiresIn linkToken in
  snd r = Server.Ok (linkToken, e) /\
  forall now',
    Server.getPublicKey (fst r) now' linkToken
    = (if negb (e =? 0) && (e <? now') then Server.Err 410 "Link has expired"
       else Server.Ok (KeyRelease.or_null (Server.encryptionKey f))) /\
    Server.getPublic (fst r) now' linkToken
    = (if negb (e =? 0) && (e <? now') then Server.Err 410 "Link has expired"
       else Server.Ok (Server.name f, Server.cid f, Server.size f,
                       Server.mimeType f, owner)).
Proof.
  intros Hfind Hfresh e r.
  set (link := {| Server.pl_token := linkToken; Server.pl_fileId := Server.id f;
                  Server.pl_cid := Server.cid f; Server.pl_name := Server.name f;
                  Server.pl_owner := owner;
                  Server.pl_encryptionKey :=
                    KeyRelease.or_null (Server.encryptionKey f);
                  Server.pl_createdAt := now; Server.pl_expiresAt := e |}).
  assert (Er : r = (Server.addAudit
                      (Server.set_filesStore st
                         (Server.store_update (Server.filesStore st) owner
                            (Server.update_first
                               (fun g => String.eqb (Server.id g) fileId
                                         && negb (Server.isDeleted g))
                               (add_link link))))
                      now "PUBLIC_LINK_CREATED" owner (Some (Server.id f))
                      None None,
                    Server.Ok (linkToken, e))).
  { unfold r, Server.createPublicLink. rewrite Hfind. reflexivity. }
  rewrite Er. cbn [fst snd]. split; [reflexivity|]. intros now'.
  pose proof (find_link_added (Server.filesStore st) owner _ link f Hfind Hfresh)
    as Hl.
  unfold Server.getPublicKey, Server.getPublic.
  cbn [Server.filesStore Server.addAudit Server.set_auditLog
       Server.set_filesStore].
  change (Server.pl_token link) with linkToken in Hl.
  rewrite Hl. unfold Server.link_expired.
  cbn [Server.pl_expiresAt link Server.pl_owner Server.pl_encryptionKey
       add_link Server.set_publicLinks Server.encryptionKey Server.name
       Server.cid Server.size Server.mimeType].
  destruct (negb (e =? 0) && (e <? now')); [split; reflexivity|].
  split; [|reflexivity]. rewrite or_null_idem.
  destruct (KeyRelease.or_null (Server.encryptionKey f)); reflexivity.
Qed.

Lemma X21_public_link_lifetime_witness :
  Server.getPublicKey
    (fst (Server.createPublicLink demo_state 2000 "alice" "file-1" None "tok"))
    3000 "tok"
  = Server.Ok (Some "0aff"%string).
Proof.
  refine (proj1 (proj2 (X21_public_link_lifetime demo_state 2000 "alice"
                          "file-1" "tok" None demo_stored_file _ _) 3000)).
  - reflexivity.
  - reflexivity.
Defined.

(** ** Groups on the server *)








(** ** The group registry contract *)

Lemma box_exists_lookup {K} `{Countable K} {V} (m : gmap K V) (k : K) :
  GroupRegistry.box_exists m k
  = match m !! k with Some _ => true | None => false end.
Proof.
  unfold GroupRegistry.box_exists. destruct (m !! k) eqn:E.
  - apply bool_decide_eq_true. eauto.
  - apply bool_decide_eq_false. intros [v Hv]. discriminate Hv.
Qed.

Lemma assert_admin_spec (st : GroupRegistry.state) (g : Z) (sender : string) :
  (GroupRegistry.assert_admin st (g, sender) = Return tt /\
   GroupRegistry.isAdmin st g sender = true) \/
  ((exists msg, GroupRegistry.assert_admin st (g, sender) = Throw msg) /\
   GroupRegistry.isAdmin st g sender = false).
Proof.
  unfold GroupRegistry.assert_admin, GroupRegistry.isAdmin,
    GroupRegistry.box_value, GroupRegistry.assert.
  rewrite box_exists_lookup.
  destruct (GroupRegistry.memberStatuses st !! (g, sender)) as [s|];
    cbn [mbind outcome_bind];
    [|right; split; [eexists; reflexivity | reflexivity]].
  destruct (s =? 2); cbn [mbind outcome_bind andb].
  - destruct (GroupRegistry.memberRoles st !! (g, sender)) as [r|];
      cbn [mbind outcome_bind];
      [|right; split; [eexists; reflexivity | reflexivity]].
    destruct (r =? 1);
      [left; split; reflexivity
      |right; split; [eexists; reflexivity | reflexivity]].
  - right. split; [eexists; reflexivity|].
    destruct (GroupRegistry.memberRoles st !! (g, sender)); reflexivity.
Qed.

(** X23. [inviteMember] and [removeMember] succeed exactly when the
    sender is an admin of the group in the sense of [isAdmin]: a joined
    member whose role is 1. *)
Theorem X23_admin_only (st : GroupRegistry.state) (sender : string) (g : Z)
    (user : string) :
  ((exists st', GroupRegistry.inviteMember st sender g user = Return st')
   <-> GroupRegistry.isAdmin st g sender = true) /\
  ((exists st', GroupRegistry.removeMember st sender g user = Return st')
   <-> GroupRegistry.isAdmin st g sender = true).
Proof.
  unfold GroupRegistry.inviteMember, GroupRegistry.removeMember.
  destruct (assert_admin_spec st g sender) as [[-> Ha]|[[msg ->] Ha]];
    rewrite Ha; cbn [mbind outcome_bind mret outcome_ret].
  - split; (split; [reflexivity | eauto]).
  - split; (split; [intros [st' E]; discriminate E | discriminate]).
Qed.

(** X25. An invitation resets its target, whoever that is: after an admin
    has invited a user, the user has status 1 and role 0 in the group and
    is neither member nor admin of it until it accepts, even when it was
    an admin before or is the sender itself; the sender stays admin only
    if it did not invite itself. After accepting, the user is a member
    and no admin. *)
Theorem X25_invite_resets (st : GroupRegistry.state) (sender : string) (g : Z)
    (user : string) :
  GroupRegistry.isAdmin st g sender = true ->
  exists st' st'',
    GroupRegistry.inviteMember st sender g user = Return st' /\
    GroupRegistry.getMemberStatus st' g user = 1 /\
    GroupRegistry.getMemberRole st' g user = 0 /\
    GroupRegistry.isMember st' g user = false /\
    GroupRegistry.isAdmin st' g user = false /\
    GroupRegistry.isAdmin st' g sender = bool_decide (user <> sender) /\
    GroupRegistry.acceptInvite st' user g = Return st'' /\
    GroupRegistry.isMember st'' g user = true /\
    GroupRegistry.isAdmin st'' g user = false.
Proof.
  intros Ha. unfold GroupRegistry.inviteMember.
  destruct (assert_admin_spec st g sender) as [[E _]|[_ Hn]];
    [|rewrite Hn in Ha; discriminate Ha].
  rewrite E. cbn [mbind outcome_bind mret outcome_ret].
  eexists _, _. split; [reflexivity|].
  unfold GroupRegistry.getMemberStatus, GroupRegistry.getMemberRole,
    GroupRegistry.isMember, GroupRegistry.isAdmin, GroupRegistry.acceptInvite,
    GroupRegistry.box_value, GroupRegistry.assert.
  rewrite box_exists_lookup.
  cbn [GroupRegistry.memberStatuses GroupRegistry.memberRoles
       GroupRegistry.set_memberStatuses GroupRegistry.set_memberRoles].
  rewrite !lookup_insert_eq. cbn [mbind outcome_bind mret outcome_ret Z.eqb].
  repeat apply conj; try reflexivity.
  - destruct (decide (user = sender)) as [->|Hne].
    + rewrite !lookup_insert_eq. rewrite bool_decide_eq_false_2 by tauto.
      reflexivity.
    + rewrite !lookup_insert_ne by congruence.
      rewrite bool_decide_eq_true_2 by exact Hne. exact Ha.
  - cbn [GroupRegistry.memberStatuses GroupRegistry.memberRoles
         GroupRegistry.set_memberStatuses GroupRegistry.set_memberRoles].
    rewrite ?lookup_insert_eq. reflexivity.
  - cbn [GroupRegistry.memberStatuses GroupRegistry.memberRoles
         GroupRegistry.set_memberStatuses GroupRegistry.set_memberRoles].
    rewrite ?lookup_insert_eq. reflexivity.
Qed.

Definition demo_registry : GroupRegistry.state :=
  GroupRegistry.run_all GroupRegistry.createApplication
    [("alice"%string, GroupRegistry.CreateGroup "team")].

Lemma X25_invite_resets_witness :
  exists st' st'',
    GroupRegistry.inviteMember demo_registry "alice" 1 "alice" = Return st' /\
    GroupRegistry.getMemberStatus st' 1 "alice" = 1 /\
    GroupRegistry.getMemberRole st' 1 "alice" = 0 /\
    GroupRegistry.isMember st' 1 "alice" = false /\
    GroupRegistry.isAdmin st' 1 "alice" = false /\
    GroupRegistry.isAdmin st' 1 "alice"
    = bool_decide ("alice"%string <> "alice"%string) /\
    GroupRegistry.acceptInvite st' "alice" 1 = Return st'' /\
    GroupRegistry.isMember st'' 1 "alice" = true /\
    GroupRegistry.isAdmin st'' 1 "alice" = false.
Proof.
  apply (X25_invite_resets demo_registry "alice" 1 "alice").
  vm_compute. reflexivity.
Defined.

(** What holds of every state the contract can reach. *)
Record registry_ok (st : GroupRegistry.state) : Prop := {
  count_range : 0 <= GroupRegistry.groupCount st < 2 ^ 64;
  status_ok :
    forall g u s, GroupRegistry.memberStatuses st !! (g, u) = Some s ->
      1 <= g <= GroupRegistry.groupCount st /\
      (s = 0 \/ s = 1 \/ s = 2) /\
      (s <> 0 ->
       exists r, GroupRegistry.memberRoles st !! (g, u) = Some r /\
                 (r = 0 \/ r = 1));
  names_ok :
    forall g, is_Some (GroupRegistry.groupNames st !! g)
              <-> 1 <= g <= GroupRegistry.groupCount st;
  creators_ok :
    forall g, is_Some (GroupRegistry.groupCreators st !! g)
              <-> 1 <= g <= GroupRegistry.groupCount st
}.

Lemma createApplication_ok : registry_ok GroupRegistry.createApplication.
Proof.
  split; cbn.
  - lia.
  - intros g u s H. rewrite lookup_empty in H. discriminate H.
  - intros g. rewrite lookup_empty. split; [intros [? H]; discriminate H | lia].
  - intros g. rewrite lookup_empty. split; [intros [? H]; discriminate H | lia].
Qed.

Lemma admin_group_exists (st : GroupRegistry.state) (g : Z) (sender : string) :
  registry_ok st -> GroupRegistry.assert_admin st (g, sender) = Return tt ->
  1 <= g <= GroupRegistry.groupCount st.
Proof.
  intros Hok E. unfold GroupRegistry.assert_admin, GroupRegistry.assert,
    GroupRegistry.box_value in E.
  rewrite box_exists_lookup in E.
  destruct (GroupRegistry.memberStatuses st !! (g, sender)) as [s|] eqn:Es;
    [|discriminate E].
  apply (status_ok st Hok g sender s Es).
Qed.

Lemma set_status_ok (st : GroupRegistry.state) (g : Z) (u : string) (s : Z) :
  registry_ok st -> 1 <= g <= GroupRegistry.groupCount st ->
  (s = 0 \/ s = 1 \/ s = 2) ->
  (s <> 0 -> exists r, GroupRegistry.memberRoles st !! (g, u) = Some r /\
                       (r = 0 \/ r = 1)) ->
  registry_ok
    (GroupRegistry.set_memberStatuses st
       (<[(g, u) := s]> (GroupRegistry.memberStatuses st))).
Proof.
  intros Hok Hg Hs Hr. split; cbn.
  - apply (count_range st Hok).
  - intros g' u' s' H.
    destruct (decide ((g, u) = (g', u'))) as [[= <- <-]|Hne].
    + rewrite lookup_insert_eq in H. injection H as <-. auto.
    + rewrite lookup_insert_ne in H by exact Hne.
      apply (status_ok st Hok g' u' s' H).
  - apply (names_ok st Hok).
  - apply (creators_ok st Hok).
Qed.

Lemma run_ok (st st' : GroupRegistry.state) (sender : string)
    (c : GroupRegistry.call) :
  registry_ok st -> GroupRegistry.run st sender c = Return st' ->
  registry_ok st'.
Proof.
  intros Hok. destruct c as [name|g user|g|g|g user|g]; cbn [GroupRegistry.run].
  - unfold GroupRegistry.createGroup, GroupRegistry.uint64_add.
    destruct (Z.ltb_spec (GroupRegistry.groupCount st + 1) (2 ^ 64)) as [Hlt|];
      [|discriminate].
    cbn [mbind outcome_bind mret outcome_ret]. intros [= <-].
    pose proof (count_range st Hok) as Hc. split; cbn.
    + lia.
    + intros g u s H.
      destruct (decide ((GroupRegistry.groupCount st + 1, sender) = (g, u)))
        as [[= <- <-]|Hne].
      * rewrite lookup_insert_eq in H. injection H as <-.
        rewrite lookup_insert_eq. split; [lia|]. split; [auto|]. eauto.
      * rewrite lookup_insert_ne in H by exact Hne.
        destruct (status_ok st Hok g u s H) as (Hg & Hs & Hr).
        split; [lia|]. split; [exact Hs|].
        rewrite lookup_insert_ne by exact Hne. exact Hr.
    + intros g. destruct (decide (GroupRegistry.groupCount st + 1 = g)) as [<-|Hne].
      * rewrite lookup_insert_eq. split; [lia | eauto].
      * rewrite lookup_insert_ne by exact Hne.
        rewrite (names_ok st Hok g). lia.
    + intros g. destruct (decide (GroupRegistry.groupCount st + 1 = g)) as [<-|Hne].
      * rewrite lookup_insert_eq. split; [lia | eauto].
      * rewrite lookup_insert_ne by exact Hne.
        rewrite (creators_ok st Hok g). lia.
  - unfold GroupRegistry.inviteMember.
    destruct (GroupRegistry.assert_admin st (g, sender)) as [[]|] eqn:E;
      [|discriminate].
    cbn [mbind outcome_bind mret outcome_ret]. intros [= <-].
    pose proof (admin_group_exists st g sender Hok E) as Hg.
    split; cbn.
    + apply (count_range st Hok).
    + intros g' u' s' H.
      destruct (decide ((g, user) = (g', u'))) as [[= <- <-]|Hne].
      * rewrite lookup_insert_eq in H. injection H as <-.
        rewrite lookup_insert_eq. split; [exact Hg|]. split; [auto|]. eauto.
      * rewrite lookup_insert_ne in H by exact Hne.
        rewrite lookup_insert_ne by exact Hne.
        apply (status_ok st Hok g' u' s' H).
    + apply (names_ok st Hok).
    + apply (creators_ok st Hok).
  - unfold GroupRegistry.acceptInvite, GroupRegistry.assert,
      GroupRegistry.box_value.
    rewrite box_exists_lookup.
    destruct (GroupRegistry.memberStatuses st !! (g, sender)) as [s|] eqn:Es;
      [|discriminate].
    cbn [mbind outcome_bind]. destruct (Z.eqb_spec s 1) as [->|]; [|discriminate].
    cbn [mbind outcome_bind mret outcome_ret]. intros [= <-].
    destruct (status_ok st Hok g sender 1 Es) as (Hg & _ & Hr).
    apply set_status_ok;
      [exact Hok | exact Hg | auto | intros _; apply Hr; discriminate].
  - unfold GroupRegistry.rejectInvite, GroupRegistry.assert,
      GroupRegistry.box_value.
    rewrite box_exists_lookup.
    destruct (GroupRegistry.memberStatuses st !! (g, sender)) as [s|] eqn:Es;
      [|discriminate].
    cbn [mbind outcome_bind]. destruct (Z.eqb_spec s 1) as [->|]; [|discriminate].
    cbn [mbind outcome_bind mret outcome_ret]. intros [= <-].
    destruct (status_ok st Hok g sender 1 Es) as (Hg & _ & Hr).
    apply set_status_ok;
      [exact Hok | exact Hg | auto | intros H; contradiction].
  - unfold GroupRegistry.removeMember.
    destruct (GroupRegistry.assert_admin st (g, sender)) as [[]|] eqn:E;
      [|discriminate].
    cbn [mbind outcome_bind mret outcome_ret]. intros [= <-].
    pose proof (admin_group_exists st g sender Hok E) as Hg.
    apply set_status_ok;
      [exact Hok | exact Hg | auto | intros H; contradiction].
  - unfold GroupRegistry.leaveGroup, GroupRegistry.assert,
      GroupRegistry.box_value.
    rewrite box_exists_lookup.
    destruct (GroupRegistry.memberStatuses st !! (g, sender)) as [s|] eqn:Es;
      [|discriminate].
    cbn [mbind outcome_bind]. destruct (Z.eqb_spec s 2) as [->|]; [|discriminate].
    cbn [mbind outcome_bind mret outcome_ret]. intros [= <-].
    destruct (status_ok st Hok g sender 2 Es) as (Hg & _ & Hr).
    apply set_status_ok;
      [exact Hok | exact Hg | auto | intros H; contradiction].
Qed.

Lemma run_all_ok (txns : list (string * GroupRegistry.call))
    (st : GroupRegistry.state) :
  registry_ok st -> registry_ok (GroupRegistry.run_all st txns).
Proof.
  unfold GroupRegistry.run_all. revert st.
  induction txns as [|[sender c] txns IH]; intros st Hok; [exact Hok|].
  cbn [fold_left fst snd].
  destruct (GroupRegistry.run st sender c) as [st'|] eqn:E.
  - apply IH. exact (run_ok st st' sender c Hok E).
  - apply IH, Hok.
Qed.

(** X24. In every state the contract reaches from its creation by
    transactions, failed ones included: the group count is a [uint64];
    the groups with a name, and with a creator, are those numbered from 1
    to the count; every stored member status is 0, 1 or 2 and belongs to
    such a group; and a status other than 0 comes with a stored role 0
    or 1, so that the admin check of [inviteMember] and [removeMember]
    never fails on a missing box. *)
Theorem X24_registry_invariant (txns : list (string * GroupRegistry.call)) :
  let st := GroupRegistry.run_all GroupRegistry.createApplication txns in
  registry_ok st /\
  (forall g, (exists name, GroupRegistry.getGroupName st g = Return name)
             <-> 1 <= g <= GroupRegistry.getGroupCount st) /\
  (forall sender g user,
     GroupRegistry.inviteMember st sender g user <> Throw "Box must have value" /\
     GroupRegistry.removeMember st sender g user <> Throw "Box must have value").
Proof.
  intros st.
  assert (Hok : registry_ok st) by apply run_all_ok, createApplication_ok.
  split; [exact Hok|]. split.
  - intros g. rewrite <- (names_ok st Hok g).
    unfold GroupRegistry.getGroupName, GroupRegistry.assert,
      GroupRegistry.box_value.
    rewrite box_exists_lookup.
    destruct (GroupRegistry.groupNames st !! g) as [n|];
      cbn [mbind outcome_bind].
    + split; eauto.
    + split; [intros [? H]; discriminate H | intros [? H]; discriminate H].
  - intros sender g user.
    assert (Ha : GroupRegistry.assert_admin st (g, sender)
                 <> Throw "Box must have value").
    { unfold GroupRegistry.assert_admin, GroupRegistry.assert,
        GroupRegistry.box_value.
      rewrite box_exists_lookup.
      destruct (GroupRegistry.memberStatuses st !! (g, sender)) as [s|] eqn:Es;
        cbn [mbind outcome_bind]; [|discriminate].
      destruct (Z.eqb_spec s 2) as [->|]; cbn [mbind outcome_bind];
        [|discriminate].
      destruct (status_ok st Hok g sender 2 Es) as (_ & _ & Hr).
      destruct Hr as (r & -> & _); [discriminate|].
      cbn [mbind outcome_bind]. destruct (r =? 1); discriminate. }
    unfold GroupRegistry.inviteMember, GroupRegistry.removeMember.
    destruct (GroupRegistry.assert_admin st (g, sender)) as [[]|msg];
      cbn [mbind outcome_bind mret outcome_ret].
    + split; discriminate.
    + split; intros [= ->]; apply Ha; reflexivity.
Qed.

(** X26. Nobody is made a member by someone else: when a transaction
    that succeeds turns a user who was no member of a group into a member
    of it, the user sent it, and it either created the group or accepted
    an invitation the user held. And a user gets to hold an invitation
    only through [inviteMember] by an admin of the group. *)
Theorem X26_membership_needs_consent (st st' : GroupRegistry.state)
    (sender : string) (c : GroupRegistry.call) (g : Z) (u : string) :
  GroupRegistry.run st sender c = Return st' ->
  (GroupRegistry.isMember st g u = false ->
   GroupRegistry.isMember st' g u = true ->
   u = sender /\
   ((exists name, c = GroupRegistry.CreateGroup name /\
                  g = GroupRegistry.groupCount st + 1) \/
    (c = GroupRegistry.AcceptInvite g /\
     GroupRegistry.getMemberStatus st g u = 1))) /\
  (GroupRegistry.getMemberStatus st g u <> 1 ->
   GroupRegistry.getMemberStatus st' g u = 1 ->
   c = GroupRegistry.InviteMember g u /\
   GroupRegistry.isAdmin st g sender = true).
Proof.
  unfold GroupRegistry.isMember, GroupRegistry.getMemberStatus.
  destruct c as [name|g0 user|g0|g0|g0 user|g0]; cbn [GroupRegistry.run].
  - unfold GroupRegistry.createGroup, GroupRegistry.uint64_add.
    destruct (_ <? _); [|discriminate].
    cbn [mbind outcome_bind mret outcome_ret]. intros [= <-]. cbn.
    destruct (decide ((GroupRegistry.groupCount st + 1, sender) = (g, u)))
      as [[= <- <-]|Hne].
    + rewrite !lookup_insert_eq. split; [eauto 6|]. cbn. intros _ H. discriminate H.
    + rewrite !lookup_insert_ne by exact Hne.
      split; [intros H1 H2; rewrite H1 in H2; discriminate H2|].
      intros H1 H2. contradiction.
  - unfold GroupRegistry.inviteMember.
    destruct (assert_admin_spec st g0 sender) as [[-> Ha]|[[msg ->] _]];
      [|discriminate].
    cbn [mbind outcome_bind mret outcome_ret]. intros [= <-]. cbn.
    destruct (decide ((g0, user) = (g, u))) as [[= <- <-]|Hne].
    + rewrite !lookup_insert_eq. cbn. split; [intros _ H; discriminate H|].
      intros _ _. split; [reflexivity | exact Ha].
    + rewrite !lookup_insert_ne by exact Hne.
      split; [intros H1 H2; rewrite H1 in H2; discriminate H2|].
      intros H1 H2. contradiction.
  - unfold GroupRegistry.acceptInvite, GroupRegistry.assert,
      GroupRegistry.box_value.
    rewrite box_exists_lookup.
    destruct (GroupRegistry.memberStatuses st !! (g0, sender)) as [s|] eqn:Es;
      [|discriminate].
    cbn [mbind outcome_bind]. destruct (Z.eqb_spec s 1) as [->|]; [|discriminate].
    cbn [mbind outcome_bind mret outcome_ret]. intros [= <-]. cbn.
    destruct (decide ((g0, sender) = (g, u))) as [[= <- <-]|Hne].
    + rewrite !lookup_insert_eq, Es. cbn. split.
      * intros _ _. split; [reflexivity|]. right. split; reflexivity.
      * intros H. contradiction.
    + rewrite !lookup_insert_ne by exact Hne.
      split; [intros H1 H2; rewrite H1 in H2; discriminate H2|].
      intros H1 H2. contradiction.
  - unfold GroupRegistry.rejectInvite, GroupRegistry.assert,
      GroupRegistry.box_value.
    rewrite box_exists_lookup.
    destruct (GroupRegistry.memberStatuses st !! (g0, sender)) as [s|] eqn:Es;
      [|discriminate].
    cbn [mbind outcome_bind]. destruct (Z.eqb_spec s 1) as [->|]; [|discriminate].
    cbn [mbind outcome_bind mret outcome_ret]. intros [= <-]. cbn.
    destruct (decide ((g0, sender) = (g, u))) as [[= <- <-]|Hne].
    + rewrite !lookup_insert_eq. cbn.
      split; [intros _ H; discriminate H | intros _ H; discriminate H].
    + rewrite !lookup_insert_ne by exact Hne.
      split; [intros H1 H2; rewrite H1 in H2; discriminate H2|].
      intros H1 H2. contradiction.
  - unfold GroupRegistry.removeMember.
    destruct (assert_admin_spec st g0 sender) as [[-> Ha]|[[msg ->] _]];
      [|discriminate].
    cbn [mbind outcome_bind mret outcome_ret]. intros [= <-]. cbn.
    destruct (decide ((g0, user) = (g, u))) as [[= <- <-]|Hne].
    + rewrite !lookup_insert_eq. cbn.
      split; [intros _ H; discriminate H | intros _ H; discriminate H].
    + rewrite !lookup_insert_ne by exact Hne.
      split; [intros H1 H2; rewrite H1 in H2; discriminate H2|].
      intros H1 H2. contradiction.
  - unfold GroupRegistry.leaveGroup, GroupRegistry.assert,
      GroupRegistry.box_value.
    rewrite box_exists_lookup.
    destruct (GroupRegistry.memberStatuses st !! (g0, sender)) as [s|] eqn:Es;
      [|discriminate].
    cbn [mbind outcome_bind]. destruct (Z.eqb_spec s 2) as [->|]; [|discriminate].
    cbn [mbind outcome_bind mret outcome_ret]. intros [= <-]. cbn.
    destruct (decide ((g0, sender) = (g, u))) as [[= <- <-]|Hne].
    + rewrite !lookup_insert_eq. cbn.
      split; [intros _ H; discriminate H | intros _ H; discriminate H].
    + rewrite !lookup_insert_ne by exact Hne.
      split; [intros H1 H2; rewrite H1 in H2; discriminate H2|].
      intros H1 H2. contradiction.
Qed.

Definition demo_invited : GroupRegistry.state :=
  GroupRegistry.run_all GroupRegistry.createApplication
    [("alice"%string, GroupRegistry.CreateGroup "team");
     ("alice"%string, GroupRegistry.InviteMember 1 "bob")].

Definition demo_joined : GroupRegistry.state :=
  GroupRegistry.run_all demo_invited
    [("bob"%string, GroupRegistry.AcceptInvite 1)].

Lemma X26_membership_needs_consent_witness :
  "bob"%string = "bob"%string /\
  ((exists name, GroupRegistry.AcceptInvite 1 = GroupRegistry.CreateGroup name /\
                 1 = GroupRegistry.groupCount demo_invited + 1) \/
   (GroupRegistry.AcceptInvite 1 = GroupRegistry.AcceptInvite 1 /\
    GroupRegistry.getMemberStatus demo_invited 1 "bob" = 1)).
Proof.
  refine (proj1 (X26_membership_needs_consent demo_invited demo_joined "bob"
                   (GroupRegistry.AcceptInvite 1) 1 "bob" _) _ _).
  - vm_compute. reflexivity.
  - vm_compute. reflexivity.
  - vm_compute. reflexivity.
Defined.

(** ** A group file from upload to download *)



Section GroupFile.

Variable CryptoKey : Type.
Variable subtle_encrypt : list Z -> CryptoKey -> list Z -> outcome (list Z).
Variable subtle_decrypt : list Z -> CryptoKey -> list Z -> outcome (list Z).
Variable subtle_generateKey : nat -> outcome CryptoKey.
Variable subtle_exportKey : CryptoKey -> outcome (list Z).
Variable subtle_importKey : list Z -> outcome CryptoKey.
Variable JSON_parse : string -> outcome (list string).


End GroupFile.




(** ** Who gets a key, and until when *)

Lemma find_none_Forall {A} (p : A -> bool) (l : list A) :
  Forall (fun y => p y = false) l -> List.find p l = None.
Proof.
  induction 1 as [|y l Hy _ IH]; [reflexivity|].
  cbn [List.find]. rewrite Hy. exact IH.
Qed.

Lemma getSharedFileKey_found (st : Server.state) (rnd : KeyRelease.random)
    (cur : nat) (now : Z) (address shareId : string) (s : Server.ShareItem) :
  List.find (fun x => String.eqb (Server.s_id x) shareId)
    (default [] (Server.sharesStore st !! address)) = Some s ->
  fst (fst (Server.getSharedFileKey st rnd cur now address shareId))
  = (if negb (Server.s_expiresAt s =? 0) && (0 <? Server.s_expiresAt s)
        && (Server.s_expiresAt s <? now)
     then KeyRelease.Status 410 "Share has expired"
     else KeyRelease.Json
            {| KeyRelease.encryptionKey :=
                 KeyRelease.or_null (Server.s_encryptionKey s);
               KeyRelease.shares :=
                 (KeyRelease.release rnd cur (Server.s_shares s)).1.1.1;
               KeyRelease.releasedNodes :=
                 (KeyRelease.release rnd cur (Server.s_shares s)).1.1.2;
               KeyRelease.threshold := 2;
               KeyRelease.totalShares := 3 |}).
Proof.
  intros Hfind.
  unfold Server.getSharedFileKey, KeyRelease.getSharedFileKey.
  rewrite lookup_fmap.
  assert (E : List.find (fun x => String.eqb (KeyRelease.sf_id x) shareId)
                (default [] ((fun l : list Server.ShareItem =>
                                Server.to_SharedFileItem <$> l)
                             <$> Server.sharesStore st !! address))
              = Some (Server.to_SharedFileItem s)).
  { destruct (Server.sharesStore st !! address) as [l|];
      cbn [fmap option_fmap option_map default from_option id] in *;
      [|discriminate Hfind].
    induction l as [|x l IH]; [discriminate Hfind|].
    cbn [fmap list_fmap List.find] in *.
    change (KeyRelease.sf_id (Server.to_SharedFileItem x)) with (Server.s_id x).
    destruct (String.eqb (Server.s_id x) shareId).
    - injection Hfind as ->. reflexivity.
    - exact (IH Hfind). }
  rewrite E.
  cbn [Server.to_SharedFileItem KeyRelease.sf_expiresAt KeyRelease.sf_shares
       KeyRelease.sf_encryptionKey default from_option id].
  destruct (negb _ && _ && _); [reflexivity|].
  destruct (KeyRelease.release rnd cur (Server.s_shares s)) as [[[? ?] ?] ?].
  reflexivity.
Qed.

(** X28. The list of shares and the key route agree on expiry except at
    the very millisecond of the expiry: a share the list shows has its
    key served; a share whose key route answers 410 is not listed; but a
    share that expires at exactly the time of the request is already left
    out of the list while its key is still served. *)
Theorem X28_expiry_list_and_key (st : Server.state) (rnd : KeyRelease.random)
    (cur : nat) (now : Z) (address : string) (s : Server.ShareItem) :
  List.find (fun x => String.eqb (Server.s_id x) (Server.s_id s))
    (default [] (Server.sharesStore st !! address)) = Some s ->
  let resp :=
    fst (fst (Server.getSharedFileKey st rnd cur now address (Server.s_id s))) in
  (In s (Server.listShared st now address) ->
   exists data, resp = KeyRelease.Json data) /\
  (resp = KeyRelease.Status 410 "Share has expired" ->
   ~ In s (Server.listShared st now address)) /\
  (Server.s_expiresAt s = now -> 0 < now ->
   ~ In s (Server.listShared st now address) /\
   exists data, resp = KeyRelease.Json data).
Proof.
  intros Hfind resp.
  assert (Hresp := getSharedFileKey_found st rnd cur now address _ s Hfind).
  fold resp in Hresp.
  assert (Hlist : In s (Server.listShared st now address)
                  <-> (Server.s_expiresAt s =? 0) || (now <? Server.s_expiresAt s)
                      = true).
  { unfold Server.listShared. rewrite List.filter_In. split; [tauto|].
    intros H. split; [|exact H]. apply (find_some _ _ Hfind). }
  repeat apply conj.
  - intros Hin. apply Hlist in Hin. rewrite Hresp.
    destruct (Z.eqb_spec (Server.s_expiresAt s) 0) as [E0|E0];
      cbn [negb andb orb] in *; [eauto|].
    apply Z.ltb_lt in Hin.
    destruct (Z.ltb_spec (Server.s_expiresAt s) now); [lia|].
    rewrite andb_false_r. eauto.
  - intros H410 Hin. apply Hlist in Hin. rewrite Hresp in H410.
    destruct (Z.eqb_spec (Server.s_expiresAt s) 0) as [E0|E0];
      cbn [negb andb orb] in *; [discriminate H410|].
    apply Z.ltb_lt in Hin.
    destruct (Z.ltb_spec (Server.s_expiresAt s) now); [lia|].
    rewrite andb_false_r in H410. discriminate H410.
  - intros E Hpos. split.
    + rewrite Hlist.
      destruct (Z.eqb_spec (Server.s_expiresAt s) 0) as [E0|E0]; [lia|].
      cbn [orb]. rewrite E, Z.ltb_irrefl. intros H. discriminate H.
    + rewrite Hresp, E, Z.ltb_irrefl, andb_false_r. eauto.
Qed.

Definition demo_share : Server.ShareItem :=
  {| Server.s_id := "share-1"; Server.s_fileId := "file-1";
     Server.s_name := "a.txt"; Server.s_cid := "Qm1"; Server.s_size := 16;
     Server.s_mimeType := "text/plain"; Server.s_owner := "alice";
     Server.s_permission := "read"; Server.s_wrappedKey := "";
     Server.s_encryptionKey := Some "0aff"%string;
     Server.s_shares := ["01aa"; "02bb"; "03cc"]%string;
     Server.s_sharedAt := 2000; Server.s_expiresAt := 5000 |}.

Definition demo_shared_state : Server.state :=
  Server.set_sharesStore demo_state {["bob"%string := [demo_share]]}.

Lemma X28_expiry_list_and_key_witness :
  ~ In demo_share (Server.listShared demo_shared_state 5000 "bob") /\
  exists data,
    fst (fst (Server.getSharedFileKey demo_shared_state demo_rnd 0 5000 "bob"
                (Server.s_id demo_share)))
    = KeyRelease.Json data.
Proof.
  refine (proj2 (proj2 (X28_expiry_list_and_key demo_shared_state demo_rnd 0
                          5000 "bob" demo_share _)) _ _).
  - reflexivity.
  - reflexivity.
  - lia.
Defined.

(** X29. Keys are kept apart by address: after an upload by the owner and
    a share to a recipient, whatever the stores held before, the owner's
    key route and the shared-key route answer any other address exactly
    as they did before; in particular an address without a file or share
    of these ids gets 404 from both. *)
Theorem X29_keys_kept_apart (JSON_parse : string -> outcome (list string))
    (st : Server.state) (now1 now2 : Z)
    (owner recipient other uuid shareId cid : string)
    (file : Server.UploadedFile) (body : Server.UploadBody)
    (permission wrappedKey : option string) (expiresIn : option Z) :
  other <> owner -> other <> recipient -> recipient <> EmptyString ->
  let st1 :=
    fst (Server.upload JSON_parse st now1 owner (Some file) body (Return cid) uuid) in
  let st2 :=
    fst (Server.shareFile st1 now2 owner uuid (Some recipient) permission
           expiresIn wrappedKey shareId) in
  (forall fileId,
     Server.getFileKey st2 other fileId = Server.getFileKey st other fileId) /\
  (forall rnd cur now sid,
     Server.getSharedFileKey st2 rnd cur now other sid
     = Server.getSharedFileKey st rnd cur now other sid) /\
  (Forall (fun f => Server.id f <> uuid)
     (Server.store_get (Server.filesStore st) other) ->
   Server.getFileKey st2 other uuid = Server.Err 404 "File not found") /\
  (Forall (fun s => Server.s_id s <> shareId)
     (default [] (Server.sharesStore st !! other)) ->
   forall rnd cur now,
     Server.getSharedFileKey st2 rnd cur now other shareId
     = (KeyRelease.Status 404 "Share not found", None, cur)).
Proof.
  intros Ho Hr Hrec st1 st2.
  assert (Hfs1 : Server.store_get (Server.filesStore st1) other
                 = Server.store_get (Server.filesStore st) other).
  { unfold st1, Server.upload.
    cbn [fst Server.filesStore Server.addAudit Server.set_auditLog
         Server.set_filesStore].
    apply store_get_push_ne. congruence. }
  assert (Hss1 : Server.sharesStore st1 = Server.sharesStore st)
    by reflexivity.
  assert (Hfs2 : Server.store_get (Server.filesStore st2) other
                 = Server.store_get (Server.filesStore st) other).
  { rewrite <- Hfs1. unfold st2, Server.shareFile.
    rewrite (or_null_Some recipient Hrec).
    destruct (List.find _ _); reflexivity. }
  assert (Hss2 : Server.sharesStore st2 !! other
                 = Server.sharesStore st !! other).
  { rewrite <- Hss1. unfold st2, Server.shareFile.
    rewrite (or_null_Some recipient Hrec).
    destruct (List.find _ _); [|reflexivity].
    cbn [fst Server.sharesStore Server.addAudit Server.set_auditLog
         Server.set_sharesStore].
    apply lookup_insert_ne. congruence. }
  assert (Hkey : forall rnd cur now sid,
            Server.getSharedFileKey st2 rnd cur now other sid
            = Server.getSharedFileKey st rnd cur now other sid).
  { intros rnd cur now sid.
    unfold Server.getSharedFileKey, KeyRelease.getSharedFileKey.
    rewrite !lookup_fmap, Hss2. reflexivity. }
  repeat apply conj.
  - intros fileId. unfold Server.getFileKey. rewrite Hfs2. reflexivity.
  - exact Hkey.
  - intros Hfresh. unfold Server.getFileKey. rewrite Hfs2.
    assert (E : List.find (fun f => String.eqb (Server.id f) uuid)
                  (Server.store_get (Server.filesStore st) other) = None).
    { apply find_none_Forall. eapply Forall_impl; [exact Hfresh|].
      intros f Hf. apply String.eqb_neq, Hf. }
    rewrite E. reflexivity.
  - intros Hfresh rnd cur now. rewrite Hkey.
    unfold Server.getSharedFileKey, KeyRelease.getSharedFileKey.
    rewrite lookup_fmap.
    assert (E : List.find (fun x => String.eqb (KeyRelease.sf_id x) shareId)
                  (default [] ((fun l : list Server.ShareItem =>
                                  Server.to_SharedFileItem <$> l)
                               <$> Server.sharesStore st !! other))
                = None).
    { apply find_none_Forall.
      destruct (Server.sharesStore st !! other) as [l|];
        cbn [fmap option_fmap option_map default from_option id] in *;
        [|constructor].
      apply Forall_fmap. eapply Forall_impl; [exact Hfresh|].
      intros x Hx. apply String.eqb_neq, Hx. }
    rewrite E. reflexivity.
Qed.

Lemma X29_keys_kept_apart_witness :
  Server.getFileKey
    (fst (Server.shareFile
            (fst (Server.upload (fun _ => Return demo_shareHexes)
                    Server.empty_state 1000 "alice" (Some demo_file)
                    {| Server.ub_filename := None;
                       Server.ub_encryptionKey := Some "0aff"%string;
                       Server.ub_shares := Some "json"%string;
                       Server.ub_groupId := None |}
                    (Return "Qm1"%string) "file-1"))
            2000 "alice" "file-1" (Some "bob"%string) None None None "share-1"))
    "carol" "file-1"
  = Server.Err 404 "File not found".
Proof.
  refine (proj1 (proj2 (proj2
            (X29_keys_kept_apart (fun _ => Return demo_shareHexes)
               Server.empty_state 1000 2000 "alice" "bob" "carol" "file-1"
               "share-1" "Qm1" demo_file
               {| Server.ub_filename := None;
                  Server.ub_encryptionKey := Some "0aff"%string;
                  Server.ub_shares := Some "json"%string;
                  Server.ub_groupId := None |}
               None None None _ _ _))) _).
  - discriminate.
  - discriminate.
  - discriminate.
  - constructor.
Defined.
